(** * crumb: the runtime validation engine ([src/validator.ts])

    A shallow embedding of the schema classes of the validator and of their
    [parse] and [toJsonSchema] methods, followed by the properties of the
    engine that its specification states.

    Conventions of the embedding.
    - A JavaScript string is a [string]; every character stands for one
      UTF-16 code unit below 256, so [String.length] is [.length].
    - A JavaScript number is a [number]: [NaN], an infinity or the rational
      a finite double denotes.  Comparison of doubles is exact, so [<] and
      [>] are those of the rationals; the conversions that round
      ([Number(s)], [String(n)], [new Date(s)], [toISOString], [JSON.stringify])
      belong to the host and are fields of the class [Host].
    - A JavaScript object is the list of its own enumerable properties in
      [Object.keys] order: the keys that are array indices first, in
      ascending order, then the other keys in the order of their creation.
      Its prototype is [Object.prototype] unless an assignment to
      [__proto__] gave it another ([VInherits]).  [obj[key]] is [obj_get]:
      the own property, or the one found along the prototype chain.
      [obj[key] = v] is [obj_assign], which comes to the setter of
      [__proto__] when the key is that name, and which gives a new property
      its place in [Object.keys] order ([put]).  The shape of an object
      schema is an object literal of the program, in which the name
      [__proto__] declares no key, and its keys are visited in
      [Object.keys] order; for the keys of a shape, and for the fixed keys
      of the exported documents, [obj[key] = v] is [obj_set], which updates
      an own property or adds one at the end.
    - [throw] is the [Raise] outcome; a thrown value is a [ValidationError]
      or any other value ([ThrowOther]).
    - A schema instance is a tree node carrying its [_customMessage]. *)

From Stdlib Require Import String Ascii List Bool ZArith QArith.
From Stdlib Require Import DecimalString.
Import ListNotations.

Local Close Scope Q_scope.
Local Open Scope nat_scope.
Local Open Scope list_scope.
Local Open Scope string_scope.

Set Implicit Arguments.
Set Warnings "-register-all".

(* ------------------------------------------------------------------ *)
(** ** Numbers *)

Inductive number : Type :=
| NaN
| Infinity (negative : bool)
| Finite (q : Q).

(** [a < b] on JavaScript numbers: false as soon as one side is [NaN]. *)
Definition num_lt (a b : number) : bool :=
  match a, b with
  | NaN, _ | _, NaN => false
  | Finite x, Finite y => negb (Qle_bool y x)
  | Finite _, Infinity neg => negb neg
  | Infinity neg, Finite _ => neg
  | Infinity n1, Infinity n2 => n1 && negb n2
  end.

(** [a > b]. *)
Definition num_gt (a b : number) : bool := num_lt b a.

(** [a === b] on numbers: [NaN] differs from itself. *)
Definition num_eq (a b : number) : bool :=
  match a, b with
  | Finite x, Finite y => Qeq_bool x y
  | Infinity n1, Infinity n2 => Bool.eqb n1 n2
  | _, _ => false
  end.

Definition Number_isNaN (a : number) : bool :=
  match a with NaN => true | _ => false end.

Definition Number_isInteger (a : number) : bool :=
  match a with
  | Finite q => (Qnum q mod Zpos (Qden q) =? 0)%Z
  | _ => false
  end.

(** The number of a length or of an index. *)
Definition of_nat (n : nat) : number := Finite (inject_Z (Z.of_nat n)).

(** [`${i}`] for a loop index. *)
Definition nat_to_string (n : nat) : string :=
  NilEmpty.string_of_uint (Nat.to_uint n).

(* ------------------------------------------------------------------ *)
(** ** Values *)

Inductive value : Type :=
| VUndefined
| VNull
| VBoolean (b : bool)
| VNumber (n : number)
| VString (s : string)
| VArray (items : list value)
| VObject (props : list (string * value))
| VDate (time : number)
| VFunction (name : string)
| VObjectPrototype
| VDatePrototype
| VInherits (proto : value) (props : list (string * value)).

(** [VObject props] is an ordinary object whose prototype is
    [Object.prototype]; [VInherits proto props] is one whose prototype is
    [proto], an object or [null].  [VFunction name] is a built-in function,
    known by its name: the values of the methods that objects inherit.
    [VObjectPrototype] and [VDatePrototype] are the two prototype objects
    that reading [__proto__] can hand to the engine. *)

Inductive jstype : Type :=
| TUndefined | TObject | TBoolean | TNumber | TString | TFunction.

Definition typeof (v : value) : jstype :=
  match v with
  | VUndefined => TUndefined
  | VNull | VArray _ | VObject _ | VDate _
  | VObjectPrototype | VDatePrototype | VInherits _ _ => TObject
  | VBoolean _ => TBoolean
  | VNumber _ => TNumber
  | VString _ => TString
  | VFunction _ => TFunction
  end.

Definition Array_isArray (v : value) : bool :=
  match v with VArray _ => true | _ => false end.

Definition is_undefined (v : value) : bool :=
  match v with VUndefined => true | _ => false end.

(** The own enumerable properties, [Object.entries(v)]; the properties of
    the built-in objects are not enumerable. *)
Definition Object_entries (v : value) : list (string * value) :=
  match v with
  | VObject props | VInherits _ props => props
  | _ => []
  end.

Definition Object_keys (A : Type) (props : list (string * A)) : list string :=
  map fst props.

(** The own property [key] of a property list, the entry [key] of a
    [Map]. *)
Fixpoint get (A : Type) (props : list (string * A)) (key : string) : option A :=
  match props with
  | [] => None
  | (k, v) :: rest => if String.eqb k key then Some v else get rest key
  end.

(** The own property [key] of an object, [undefined] when it has none. *)
Definition own_property (obj : value) (key : string) : value :=
  match get (Object_entries obj) key with
  | Some v => v
  | None => VUndefined
  end.

(** [map.set(key, x)] on a [Map], the list of its entries in insertion
    order. *)
Fixpoint set (A : Type) (entries : list (string * A)) (key : string) (x : A)
  : list (string * A) :=
  match entries with
  | [] => [(key, x)]
  | (k, y) :: rest =>
      if String.eqb k key then (k, x) :: rest
      else (k, y) :: set rest key x
  end.

(** The number that a string of decimal digits writes, after [acc]. *)
Fixpoint decimal (s : string) (acc : N) : option N :=
  match s with
  | EmptyString => Some acc
  | String c rest =>
      let n := nat_of_ascii c in
      if Nat.leb 48 n && Nat.leb n 57
      then decimal rest (10 * acc + N.of_nat (n - 48))%N
      else None
  end.

(** The array index that a key is: the canonical writing of an integer
    from 0 to 2^32 - 2. *)
Definition array_index (key : string) : option N :=
  match key with
  | EmptyString => None
  | String c rest =>
      if Ascii.eqb c "0" && negb (String.eqb rest "") then None
      else
        match decimal key 0 with
        | Some n => if (n <? 4294967295)%N then Some n else None
        | None => None
        end
  end.

(** Whether [Object.keys] lists a new key [key] before the key [k]: an
    array index comes before a greater one and before any other key. *)
Definition goes_before (key k : string) : bool :=
  match array_index key, array_index k with
  | Some a, Some b => (a <? b)%N
  | Some _, None => true
  | None, _ => false
  end.

(** Keys in [Object.keys] order, as far as the array indices go. *)
Fixpoint in_order (keys : list string) : bool :=
  match keys with
  | [] => true
  | k :: rest =>
      forallb (fun later : string => negb (goes_before later k)) rest
      && in_order rest
  end.

(** A new property takes its place in [Object.keys] order. *)
Fixpoint insert (A : Type) (entries : list (string * A)) (key : string)
  (x : A) : list (string * A) :=
  match entries with
  | [] => [(key, x)]
  | (k, y) :: rest =>
      if goes_before key k then (key, x) :: (k, y) :: rest
      else (k, y) :: insert rest key x
  end.

(** The own properties after [obj[key] = x] made or changed an own
    property: an existing property keeps its place. *)
Definition put (A : Type) (entries : list (string * A)) (key : string)
  (x : A) : list (string * A) :=
  match get entries key with
  | Some _ => set entries key x
  | None => insert entries key x
  end.

(** [obj[key] = v] for the keys that come in [Object.keys] order: an
    existing property keeps its place, a new one is the last. *)
Fixpoint obj_set (props : list (string * value)) (key : string) (v : value)
  : list (string * value) :=
  match props with
  | [] => [(key, v)]
  | (k, w) :: rest =>
      if String.eqb k key then (k, v) :: rest
      else (k, w) :: obj_set rest key v
  end.

(** [delete obj[key]]. *)
Definition obj_delete (props : list (string * value)) (key : string)
  : list (string * value) :=
  filter (fun entry : string * value => negb (String.eqb (fst entry) key)) props.

(** The own properties after [obj[key] = v] on an object whose prototype
    is [Object.prototype], for a value [v] that is no object: the setter of
    [__proto__] ignores it. *)
Definition assign_primitive (props : list (string * value)) (key : string)
  (v : value) : list (string * value) :=
  match get props key with
  | Some _ => put props key v
  | None => if String.eqb key "__proto__" then props else put props key v
  end.

(* ------------------------------------------------------------------ *)
(** ** The host: conversions and built-in objects of the JavaScript runtime *)

Class Host : Type := {
  (** [Number(s)] *)
  ToNumber : string -> number;
  (** [String(n)], also [`${n}`] *)
  NumberToString : number -> string;
  (** [new Date(s).getTime()] *)
  DateParse : string -> number;
  (** [new Date(t).toISOString()] *)
  toISOString : number -> string;
  (** [JSON.stringify(s)] of a string *)
  JSON_quote : string -> string;
  (** [s.toUpperCase()] *)
  toUpperCase : string -> string;
  (** [String(f)] of the built-in function named [f] *)
  FunctionToString : string -> string;
  (** The property [key] that a date, an array or a function has below
      [Object.prototype]: an own property of a function, a property of
      [Date.prototype], [Array.prototype] or [Function.prototype]. *)
  builtin_property : value -> string -> option value
}.

(* ------------------------------------------------------------------ *)
(** ** Properties along the prototype chain *)

(** The data properties of [Object.prototype]; its one accessor is
    [__proto__]. *)
Definition Object_prototype : list (string * value) :=
  [("constructor", VFunction "Object");
   ("__defineGetter__", VFunction "__defineGetter__");
   ("__defineSetter__", VFunction "__defineSetter__");
   ("hasOwnProperty", VFunction "hasOwnProperty");
   ("__lookupGetter__", VFunction "__lookupGetter__");
   ("__lookupSetter__", VFunction "__lookupSetter__");
   ("isPrototypeOf", VFunction "isPrototypeOf");
   ("propertyIsEnumerable", VFunction "propertyIsEnumerable");
   ("toString", VFunction "toString");
   ("valueOf", VFunction "valueOf");
   ("toLocaleString", VFunction "toLocaleString")].

(** Whether [Object.prototype] has a property named [key]. *)
Definition Object_prototype_has (key : string) : bool :=
  match get Object_prototype key with
  | Some _ => true
  | None => String.eqb key "__proto__"
  end.

(** What the search for a property along a prototype chain comes to: a
    data property, the accessor [__proto__] of [Object.prototype], or
    nothing. *)
Inductive slot : Type :=
| Found (v : value)
| Accessor
| Missing.

Definition from_Object_prototype (key : string) : slot :=
  match get Object_prototype key with
  | Some v => Found v
  | None => if String.eqb key "__proto__" then Accessor else Missing
  end.

(** The elements of an array are its properties ["0"], ["1"], ... *)
Fixpoint array_element (items : list value) (i : nat) (key : string)
  : option value :=
  match items with
  | [] => None
  | x :: rest =>
      if String.eqb (nat_to_string i) key then Some x
      else array_element rest (S i) key
  end.

Section PrototypeChain.

Context {host : Host}.

Definition from_builtin (obj : value) (key : string) : slot :=
  match builtin_property obj key with
  | Some v => Found v
  | None => from_Object_prototype key
  end.

(** The search for [key] from [obj] upwards. *)
Fixpoint find_property (obj : value) (key : string) : slot :=
  match obj with
  | VObject props =>
      match get props key with
      | Some v => Found v
      | None => from_Object_prototype key
      end
  | VInherits proto props =>
      match get props key with
      | Some v => Found v
      | None => find_property proto key
      end
  | VArray items =>
      if String.eqb key "length" then Found (VNumber (of_nat (List.length items)))
      else
        match array_element items 0 key with
        | Some v => Found v
        | None => from_builtin obj key
        end
  | VDate _ | VFunction _ | VDatePrototype => from_builtin obj key
  | VObjectPrototype => from_Object_prototype key
  | _ => Missing
  end.

(** The prototype of an object the engine reads from or writes to. *)
Definition prototype_of (obj : value) : value :=
  match obj with
  | VObject _ => VObjectPrototype
  | VInherits proto _ => proto
  | VDate _ => VDatePrototype
  | VDatePrototype => VObjectPrototype
  | _ => VNull
  end.

(** [obj[key]] for an object that passed the object test of the engine
    (not [null], not an array): the property found along the chain; the
    getter of [__proto__] answers with the prototype of [obj].  The engine
    reads no property of any other value. *)
Definition obj_get (obj : value) (key : string) : value :=
  match obj with
  | VObject _ | VInherits _ _ | VDate _ | VObjectPrototype | VDatePrototype =>
      match find_property obj key with
      | Found v => v
      | Accessor => prototype_of obj
      | Missing => VUndefined
      end
  | _ => VUndefined
  end.

(** What the setter of [__proto__] accepts as a prototype: an object or
    [null]. *)
Definition is_object_or_null (v : value) : bool :=
  match v with
  | VUndefined | VBoolean _ | VNumber _ | VString _ => false
  | _ => true
  end.

Definition with_prototype (proto : value) (props : list (string * value))
  : value :=
  match proto with
  | VObjectPrototype => VObject props
  | _ => VInherits proto props
  end.

(** [obj[key] = v] on an object the engine built.  An own property is
    updated.  Otherwise the chain decides: where it has the accessor
    [__proto__], the setter makes an object or [null] the prototype and
    ignores any other value; where it has a data property (those of the
    built-in prototypes are writable) or nothing, an own property is
    added, at its place in [Object.keys] order. *)
Definition obj_assign (obj : value) (key : string) (v : value) : value :=
  match obj with
  | VObject props =>
      match get props key with
      | Some _ => VObject (put props key v)
      | None =>
          match from_Object_prototype key with
          | Accessor =>
              if is_object_or_null v then with_prototype v props else obj
          | _ => VObject (put props key v)
          end
      end
  | VInherits proto props =>
      match get props key with
      | Some _ => VInherits proto (put props key v)
      | None =>
          match find_property proto key with
          | Accessor =>
              if is_object_or_null v then with_prototype v props else obj
          | _ => VInherits proto (put props key v)
          end
      end
  | _ => obj
  end.

(** [delete obj[key]]. *)
Definition obj_remove (obj : value) (key : string) : value :=
  match obj with
  | VObject props => VObject (obj_delete props key)
  | VInherits proto props => VInherits proto (obj_delete props key)
  | _ => obj
  end.

End PrototypeChain.

(* ------------------------------------------------------------------ *)
(** ** Strings *)

(** White space removed by [trim], among the code units below 256. *)
Definition is_space (c : ascii) : bool :=
  let n := nat_of_ascii c in
  (Nat.leb 9 n && Nat.leb n 13) || Nat.eqb n 32 || Nat.eqb n 160.

Fixpoint trim_start (s : string) : string :=
  match s with
  | EmptyString => EmptyString
  | String c rest => if is_space c then trim_start rest else s
  end.

Fixpoint rev_string (s acc : string) : string :=
  match s with
  | EmptyString => acc
  | String c rest => rev_string rest (String c acc)
  end.

Definition trim (s : string) : string :=
  rev_string (trim_start (rev_string (trim_start s) "")) "".

(** [toLowerCase] among the code units below 256: the letters [A] to [Z]
    and the capital letters of Latin-1, which are 32 below their small
    ones. *)
Definition lower_char (c : ascii) : ascii :=
  let n := nat_of_ascii c in
  if (Nat.leb 65 n && Nat.leb n 90)
     || (Nat.leb 192 n && Nat.leb n 222 && negb (Nat.eqb n 215))
  then ascii_of_nat (n + 32) else c.

Fixpoint toLowerCase (s : string) : string :=
  match s with
  | EmptyString => EmptyString
  | String c rest => String (lower_char c) (toLowerCase rest)
  end.

(** [xs.join(sep)]. *)
Definition join (sep : string) (xs : list string) : string :=
  String.concat sep xs.

Definition is_empty (s : string) : bool :=
  match s with EmptyString => true | _ => false end.

(* ------------------------------------------------------------------ *)
(** ** Regular expressions

    The patterns of the model: characters, ranges, sequence, alternation
    and iteration, with an optional [^] in front and [$] at the end.
    [RegExp_test] is [re.test(s)] of a pattern without flags: a match may
    start and stop anywhere the anchors allow. *)

Inductive re : Type :=
| RNone
| REps
| RChar (c : ascii)
| RRange (lo hi : ascii)
| RSeq (r1 r2 : re)
| RAlt (r1 r2 : re)
| RStar (r : re).

Record RegExp : Type := mkRegExp {
  source : string;
  fromStart : bool;
  body : re;
  toEnd : bool
}.

Fixpoint accepts_empty (r : re) : bool :=
  match r with
  | RNone | RChar _ | RRange _ _ => false
  | REps | RStar _ => true
  | RSeq r1 r2 => accepts_empty r1 && accepts_empty r2
  | RAlt r1 r2 => accepts_empty r1 || accepts_empty r2
  end.

Definition in_range (lo hi c : ascii) : bool :=
  Nat.leb (nat_of_ascii lo) (nat_of_ascii c) &&
  Nat.leb (nat_of_ascii c) (nat_of_ascii hi).

Fixpoint deriv (c : ascii) (r : re) : re :=
  match r with
  | RNone | REps => RNone
  | RChar d => if Ascii.eqb c d then REps else RNone
  | RRange lo hi => if in_range lo hi c then REps else RNone
  | RSeq r1 r2 =>
      if accepts_empty r1 then RAlt (RSeq (deriv c r1) r2) (deriv c r2)
      else RSeq (deriv c r1) r2
  | RAlt r1 r2 => RAlt (deriv c r1) (deriv c r2)
  | RStar r1 => RSeq (deriv c r1) (RStar r1)
  end.

(** The whole of [s] is a word of [r]. *)
Fixpoint full_match (r : re) (s : string) : bool :=
  match s with
  | EmptyString => accepts_empty r
  | String c rest => full_match (deriv c r) rest
  end.

(** Some prefix of [s] is a word of [r]. *)
Fixpoint prefix_match (r : re) (s : string) : bool :=
  accepts_empty r ||
  match s with
  | EmptyString => false
  | String c rest => prefix_match (deriv c r) rest
  end.

Definition match_here (x : RegExp) (s : string) : bool :=
  if toEnd x then full_match (body x) s else prefix_match (body x) s.

Fixpoint search (x : RegExp) (s : string) : bool :=
  match_here x s ||
  match s with
  | EmptyString => false
  | String _ rest => search x rest
  end.

Definition RegExp_test (x : RegExp) (s : string) : bool :=
  if fromStart x then match_here x s else search x s.

(** [`${re}`]. *)
Definition RegExp_toString (x : RegExp) : string := "/" ++ source x ++ "/".

(* ------------------------------------------------------------------ *)
(** ** Issues, errors and outcomes *)

Record ValidationIssue : Type := mkIssue {
  path : string;
  message : string
}.

(** A [ValidationError] with the message its constructor computes. *)
Record ValidationError : Type := mkError {
  error_message : string;
  issues : list ValidationIssue
}.

Definition new_ValidationError (iss : list ValidationIssue) : ValidationError :=
  {| error_message := "Validation failed: " ++ join ", " (map message iss);
     issues := iss |}.

(** What a [throw] carries: a [ValidationError], or anything else. *)
Inductive thrown : Type :=
| ThrowValidation (err : ValidationError)
| ThrowOther (what : string).

Inductive outcome (A : Type) : Type :=
| Return (a : A)
| Raise (t : thrown).

Arguments Return {A} a.
Arguments Raise {A} t.

Definition bind (A B : Type) (c : outcome A) (k : A -> outcome B) : outcome B :=
  match c with
  | Return a => k a
  | Raise t => Raise t
  end.

Notation "x <- c ;; k" := (bind c (fun x => k))
  (at level 61, c at next level, right associativity).

(** [throw new ValidationError(iss)]. *)
Definition throw_issues (A : Type) (iss : list ValidationIssue) : outcome A :=
  Raise (ThrowValidation (new_ValidationError iss)).

Arguments throw_issues {A} iss.

(** [this._customMessage ?? defaultMessage]. *)
Definition or_default (customMessage : option string) (defaultMessage : string)
  : string :=
  match customMessage with
  | Some msg => msg
  | None => defaultMessage
  end.

(** [Schema.fail]. *)
Definition fail (A : Type) (customMessage : option string)
  (path defaultMessage : string) : outcome A :=
  throw_issues [mkIssue path (or_default customMessage defaultMessage)].

Arguments fail {A} customMessage path defaultMessage.

(* ------------------------------------------------------------------ *)
(** ** Literals *)

(** The values a literal schema is built from. *)
Inductive literal : Type :=
| LString (s : string)
| LNumber (n : number)
| LBoolean (b : bool).

Definition bool_to_string (b : bool) : string :=
  if b then "true" else "false".

Definition JSON_stringify {host : Host} (l : literal) : string :=
  match l with
  | LString s => JSON_quote s
  | LNumber (Finite q) => NumberToString (Finite q)
  | LNumber _ => "null"
  | LBoolean b => bool_to_string b
  end.

Definition literal_value (l : literal) : value :=
  match l with
  | LString s => VString s
  | LNumber n => VNumber n
  | LBoolean b => VBoolean b
  end.

(** [data === l]. *)
Definition strict_eq (data : value) (l : literal) : bool :=
  match data, l with
  | VString s, LString t => String.eqb s t
  | VNumber a, LNumber b => num_eq a b
  | VBoolean a, LBoolean b => Bool.eqb a b
  | _, _ => false
  end.

(* ------------------------------------------------------------------ *)
(** ** Schemas *)

Inductive StringCheck : Type :=
| SMin (value : number)
| SMax (value : number)
| SPattern (value : RegExp).

Inductive NumberCheck : Type :=
| NMin (value : number)
| NMax (value : number)
| NInteger.

Inductive ArrayCheck : Type :=
| AMin (value : number)
| AMax (value : number).

(** A date bound, by its time value. *)
Inductive DateCheck : Type :=
| DMin (value : number)
| DMax (value : number).

(** One constructor per class; the first field is [_customMessage]. *)
Inductive schema : Type :=
| StringSchema (customMessage : option string) (checks : list StringCheck)
| NumberSchema (customMessage : option string) (checks : list NumberCheck)
| BooleanSchema (customMessage : option string)
| CoercedStringSchema (customMessage : option string) (checks : list StringCheck)
| CoercedNumberSchema (customMessage : option string) (checks : list NumberCheck)
| CoercedBooleanSchema (customMessage : option string)
| ArraySchema (customMessage : option string) (checks : list ArrayCheck)
    (item : schema)
| ObjectSchema (customMessage : option string) (shape : list (string * schema))
| EnumSchema (customMessage : option string) (values : list string)
| LiteralSchema (customMessage : option string) (value : literal)
| UnionSchema (customMessage : option string) (schemas : list schema)
| RecordSchema (customMessage : option string) (valueSchema : schema)
| DateSchema (customMessage : option string) (checks : list DateCheck)
| OptionalSchema (customMessage : option string) (inner : schema)
| NullableSchema (customMessage : option string) (inner : schema)
| TransformSchema (customMessage : option string) (inner : schema)
    (fn : value -> outcome value).

(** The chaining methods of the base class and of the classes with checks. *)
Module Schema.

(** [message(msg)]: stores the message on the instance. *)
Definition message (msg : string) (s : schema) : schema :=
  match s with
  | StringSchema _ cs => StringSchema (Some msg) cs
  | NumberSchema _ cs => NumberSchema (Some msg) cs
  | BooleanSchema _ => BooleanSchema (Some msg)
  | CoercedStringSchema _ cs => CoercedStringSchema (Some msg) cs
  | CoercedNumberSchema _ cs => CoercedNumberSchema (Some msg) cs
  | CoercedBooleanSchema _ => CoercedBooleanSchema (Some msg)
  | ArraySchema _ cs item => ArraySchema (Some msg) cs item
  | ObjectSchema _ shape => ObjectSchema (Some msg) shape
  | EnumSchema _ vs => EnumSchema (Some msg) vs
  | LiteralSchema _ l => LiteralSchema (Some msg) l
  | UnionSchema _ ss => UnionSchema (Some msg) ss
  | RecordSchema _ vs => RecordSchema (Some msg) vs
  | DateSchema _ cs => DateSchema (Some msg) cs
  | OptionalSchema _ inner => OptionalSchema (Some msg) inner
  | NullableSchema _ inner => NullableSchema (Some msg) inner
  | TransformSchema _ inner fn => TransformSchema (Some msg) inner fn
  end.

Definition optional (s : schema) : schema := OptionalSchema None s.
Definition nullable (s : schema) : schema := NullableSchema None s.
Definition transform (fn : value -> outcome value) (s : schema) : schema :=
  TransformSchema None s fn.

(** [.min(n)], [.max(n)], [.pattern(re)], [.integer()]: push a check; on a
    class without the method the schema is left as it is. *)
Definition min (n : number) (s : schema) : schema :=
  match s with
  | StringSchema m cs => StringSchema m (cs ++ [SMin n])%list
  | CoercedStringSchema m cs => CoercedStringSchema m (cs ++ [SMin n])%list
  | NumberSchema m cs => NumberSchema m (cs ++ [NMin n])%list
  | CoercedNumberSchema m cs => CoercedNumberSchema m (cs ++ [NMin n])%list
  | ArraySchema m cs item => ArraySchema m (cs ++ [AMin n])%list item
  | DateSchema m cs => DateSchema m (cs ++ [DMin n])%list
  | _ => s
  end.

Definition max (n : number) (s : schema) : schema :=
  match s with
  | StringSchema m cs => StringSchema m (cs ++ [SMax n])%list
  | CoercedStringSchema m cs => CoercedStringSchema m (cs ++ [SMax n])%list
  | NumberSchema m cs => NumberSchema m (cs ++ [NMax n])%list
  | CoercedNumberSchema m cs => CoercedNumberSchema m (cs ++ [NMax n])%list
  | ArraySchema m cs item => ArraySchema m (cs ++ [AMax n])%list item
  | DateSchema m cs => DateSchema m (cs ++ [DMax n])%list
  | _ => s
  end.

Definition pattern (x : RegExp) (s : schema) : schema :=
  match s with
  | StringSchema m cs => StringSchema m (cs ++ [SPattern x])%list
  | CoercedStringSchema m cs => CoercedStringSchema m (cs ++ [SPattern x])%list
  | _ => s
  end.

Definition integer (s : schema) : schema :=
  match s with
  | NumberSchema m cs => NumberSchema m (cs ++ [NInteger])%list
  | CoercedNumberSchema m cs => CoercedNumberSchema m (cs ++ [NInteger])%list
  | _ => s
  end.
End Schema.

(** The builders of the [v] namespace. *)
Module v.
Definition string : schema := StringSchema None [].
Definition number : schema := NumberSchema None [].
Definition boolean : schema := BooleanSchema None.
Definition array (item : schema) : schema := ArraySchema None [] item.
Definition object (shape : list (String.string * schema)) : schema :=
    ObjectSchema None shape.
Definition enum (values : list String.string) : schema := EnumSchema None values.
Definition literal (value : literal) : schema := LiteralSchema None value.
Definition union (schemas : list schema) : schema := UnionSchema None schemas.
Definition record (valueSchema : schema) : schema :=
    RecordSchema None valueSchema.
Definition date : schema := DateSchema None [].
Module coerce.
Definition string : schema := CoercedStringSchema None [].
Definition number : schema := CoercedNumberSchema None [].
Definition boolean : schema := CoercedBooleanSchema None.
End coerce.
End v.

(* ------------------------------------------------------------------ *)
(** ** Induction on schema trees

    The shape of an object and the members of a union are lists of
    schemas, so the principle carries [Forall] over them. *)

(** The classes that own no other schema. *)
Definition leaf (s : schema) : Prop :=
  match s with
  | ArraySchema _ _ _ | ObjectSchema _ _ | UnionSchema _ _ | RecordSchema _ _
  | OptionalSchema _ _ | NullableSchema _ _ | TransformSchema _ _ _ => False
  | _ => True
  end.

Section SchemaInduction.

Variable P : schema -> Prop.

Hypothesis on_leaf : forall s, leaf s -> P s.
Hypothesis on_array : forall m checks item, P item -> P (ArraySchema m checks item).
Hypothesis on_object :
  forall m shape,
    Forall (fun entry : string * schema => P (snd entry)) shape ->
    P (ObjectSchema m shape).
Hypothesis on_union : forall m schemas, Forall P schemas -> P (UnionSchema m schemas).
Hypothesis on_record : forall m inner, P inner -> P (RecordSchema m inner).
Hypothesis on_optional : forall m inner, P inner -> P (OptionalSchema m inner).
Hypothesis on_nullable : forall m inner, P inner -> P (NullableSchema m inner).
Hypothesis on_transform :
  forall m inner fn, P inner -> P (TransformSchema m inner fn).

Fixpoint schema_tree_ind (s : schema) : P s :=
  match s as s0 return P s0 with
  | ArraySchema m checks item => on_array m checks (schema_tree_ind item)
  | ObjectSchema m shape =>
      on_object m
        ((fix fields (l : list (string * schema))
           : Forall (fun entry : string * schema => P (snd entry)) l :=
            match l with
            | [] => Forall_nil _
            | entry :: rest =>
                Forall_cons entry (schema_tree_ind (snd entry)) (fields rest)
            end) shape)
  | UnionSchema m schemas =>
      on_union m
        ((fix members (l : list schema) : Forall P l :=
            match l with
            | [] => Forall_nil _
            | member :: rest =>
                Forall_cons member (schema_tree_ind member) (members rest)
            end) schemas)
  | RecordSchema m inner => on_record m (schema_tree_ind inner)
  | OptionalSchema m inner => on_optional m (schema_tree_ind inner)
  | NullableSchema m inner => on_nullable m (schema_tree_ind inner)
  | TransformSchema m inner fn => on_transform m fn (schema_tree_ind inner)
  | StringSchema m checks => on_leaf (StringSchema m checks) I
  | NumberSchema m checks => on_leaf (NumberSchema m checks) I
  | BooleanSchema m => on_leaf (BooleanSchema m) I
  | CoercedStringSchema m checks => on_leaf (CoercedStringSchema m checks) I
  | CoercedNumberSchema m checks => on_leaf (CoercedNumberSchema m checks) I
  | CoercedBooleanSchema m => on_leaf (CoercedBooleanSchema m) I
  | EnumSchema m values => on_leaf (EnumSchema m values) I
  | LiteralSchema m value => on_leaf (LiteralSchema m value) I
  | DateSchema m checks => on_leaf (DateSchema m checks) I
  end.

End SchemaInduction.

(* ------------------------------------------------------------------ *)
(** ** [parse] *)

Section Engine.

Context {host : Host}.

(** The type of a bound [parse] method: data and path to outcome. *)
Definition parser : Type := value -> string -> outcome value.

(** *** Primitive schemas *)

Fixpoint string_checks (checks : list StringCheck) (data path : string)
  : outcome value :=
  match checks with
  | [] => Return (VString data)
  | SMin n :: rest =>
      if num_lt (of_nat (String.length data)) n then
        throw_issues
          [mkIssue path
             ("String must be at least " ++ NumberToString n ++ " characters")]
      else string_checks rest data path
  | SMax n :: rest =>
      if num_gt (of_nat (String.length data)) n then
        throw_issues
          [mkIssue path
             ("String must be at most " ++ NumberToString n ++ " characters")]
      else string_checks rest data path
  | SPattern x :: rest =>
      if negb (RegExp_test x data) then
        throw_issues
          [mkIssue path ("String must match pattern " ++ RegExp_toString x)]
      else string_checks rest data path
  end.

Definition StringSchema_parse (customMessage : option string)
  (checks : list StringCheck) : parser :=
  fun data path =>
    match data with
    | VString s => string_checks checks s path
    | _ => fail customMessage path "Expected string"
    end.

Fixpoint number_checks (checks : list NumberCheck) (data : number)
  (path : string) : outcome value :=
  match checks with
  | [] => Return (VNumber data)
  | NMin n :: rest =>
      if num_lt data n then
        throw_issues
          [mkIssue path ("Number must be at least " ++ NumberToString n)]
      else number_checks rest data path
  | NMax n :: rest =>
      if num_gt data n then
        throw_issues
          [mkIssue path ("Number must be at most " ++ NumberToString n)]
      else number_checks rest data path
  | NInteger :: rest =>
      if negb (Number_isInteger data) then
        throw_issues [mkIssue path "Number must be an integer"]
      else number_checks rest data path
  end.

Definition NumberSchema_parse (customMessage : option string)
  (checks : list NumberCheck) : parser :=
  fun data path =>
    match data with
    | VNumber n =>
        if Number_isNaN n then fail customMessage path "Expected number"
        else number_checks checks n path
    | _ => fail customMessage path "Expected number"
    end.

Definition BooleanSchema_parse (customMessage : option string) : parser :=
  fun data path =>
    match data with
    | VBoolean b => Return (VBoolean b)
    | _ => fail customMessage path "Expected boolean"
    end.

(** *** Coerced schemas *)

Definition CoercedStringSchema_parse (customMessage : option string)
  (checks : list StringCheck) : parser :=
  fun data path =>
    match data with
    | VNumber n =>
        StringSchema_parse customMessage checks (VString (NumberToString n)) path
    | VBoolean b =>
        StringSchema_parse customMessage checks (VString (bool_to_string b)) path
    | _ => StringSchema_parse customMessage checks data path
    end.

Definition CoercedNumberSchema_parse (customMessage : option string)
  (checks : list NumberCheck) : parser :=
  fun data path =>
    match data with
    | VString s =>
        let trimmed := trim s in
        if is_empty trimmed then fail customMessage path "Expected number"
        else
          let num := ToNumber trimmed in
          NumberSchema_parse customMessage checks (VNumber num) path
    | _ => NumberSchema_parse customMessage checks data path
    end.

Definition CoercedBooleanSchema_parse (customMessage : option string) : parser :=
  fun data path =>
    match data with
    | VString s =>
        let lower := toLowerCase s in
        if String.eqb lower "true" || String.eqb lower "1" then
          Return (VBoolean true)
        else if String.eqb lower "false" || String.eqb lower "0"
                || String.eqb lower "" then
          Return (VBoolean false)
        else fail customMessage path "Expected boolean"
    | _ => BooleanSchema_parse customMessage data path
    end.

(** *** Enum, literal, date *)

Definition includes (values : list string) (s : string) : bool :=
  existsb (String.eqb s) values.

Definition EnumSchema_parse (customMessage : option string)
  (values : list string) : parser :=
  fun data path =>
    match data with
    | VString s =>
        if includes values s then Return (VString s)
        else fail customMessage path ("Expected one of: " ++ join ", " values)
    | _ => fail customMessage path ("Expected one of: " ++ join ", " values)
    end.

Definition LiteralSchema_parse (customMessage : option string)
  (value : literal) : parser :=
  fun data path =>
    if negb (strict_eq data value) then
      fail customMessage path ("Expected literal " ++ JSON_stringify value)
    else Return data.

Fixpoint date_checks (checks : list DateCheck) (time : number) (path : string)
  : outcome value :=
  match checks with
  | [] => Return (VDate time)
  | DMin t :: rest =>
      if num_lt time t then
        throw_issues
          [mkIssue path ("Date must be on or after " ++ toISOString t)]
      else date_checks rest time path
  | DMax t :: rest =>
      if num_gt time t then
        throw_issues
          [mkIssue path ("Date must be on or before " ++ toISOString t)]
      else date_checks rest time path
  end.

Definition DateSchema_parse (customMessage : option string)
  (checks : list DateCheck) : parser :=
  fun data path =>
    match data with
    | VString s =>
        let time := DateParse s in
        if Number_isNaN time then fail customMessage path "Invalid date"
        else date_checks checks time path
    | _ => fail customMessage path "Expected date string"
    end.

(** *** Containers *)

Definition is_object (data : value) : bool :=
  match typeof data with TObject => true | _ => false end.

Definition is_null (data : value) : bool :=
  match data with VNull => true | _ => false end.

Fixpoint array_checks (checks : list ArrayCheck) (length : nat) (path : string)
  : outcome unit :=
  match checks with
  | [] => Return tt
  | AMin n :: rest =>
      if num_lt (of_nat length) n then
        throw_issues
          [mkIssue path
             ("Array must have at least " ++ NumberToString n ++ " items")]
      else array_checks rest length path
  | AMax n :: rest =>
      if num_gt (of_nat length) n then
        throw_issues
          [mkIssue path
             ("Array must have at most " ++ NumberToString n ++ " items")]
      else array_checks rest length path
  end.

(** [path ? `${path}[${i}]` : `[${i}]`]. *)
Definition index_path (path : string) (i : nat) : string :=
  if negb (is_empty path) then path ++ "[" ++ nat_to_string i ++ "]"
  else "[" ++ nat_to_string i ++ "]".

(** [path ? `${path}.${key}` : key]. *)
Definition field_path (path key : string) : string :=
  if negb (is_empty path) then path ++ "." ++ key else key.

(** [if (issues.length > 0) throw new ValidationError(issues); return result]. *)
Definition finish (iss : list ValidationIssue) (result : value) : outcome value :=
  match iss with
  | [] => Return result
  | _ :: _ => throw_issues iss
  end.

(** The item loop of [ArraySchema.parse], from index [i] on. *)
Fixpoint array_loop (item : parser) (path : string) (data : list value)
  (i : nat) (iss : list ValidationIssue) (result : list value) : outcome value :=
  match data with
  | [] => finish iss (VArray result)
  | d :: rest =>
      match item d (index_path path i) with
      | Return x => array_loop item path rest (S i) iss (result ++ [x])%list
      | Raise (ThrowValidation err) =>
          array_loop item path rest (S i) (iss ++ issues err)%list result
      | Raise err => Raise err
      end
  end.

Definition ArraySchema_parse (customMessage : option string)
  (checks : list ArrayCheck) (item : parser) : parser :=
  fun data path =>
    match data with
    | VArray items =>
        _ <- array_checks checks (List.length items) path ;;
        array_loop item path items 0 [] []
    | _ => fail customMessage path "Expected array"
    end.

(** The key loop of [ObjectSchema.parse] over the entries of the shape. *)
Fixpoint object_loop (shape : list (string * parser)) (obj : value)
  (path : string) (iss : list ValidationIssue) (result : list (string * value))
  : outcome value :=
  match shape with
  | [] => finish iss (VObject result)
  | (key, field) :: rest =>
      let fieldPath := field_path path key in
      match field (obj_get obj key) fieldPath with
      | Return x =>
          object_loop rest obj path iss
            (if negb (is_undefined x) then obj_set result key x else result)
      | Raise (ThrowValidation err) =>
          object_loop rest obj path (iss ++ issues err)%list result
      | Raise err => Raise err
      end
  end.

Definition ObjectSchema_parse (customMessage : option string)
  (shape : list (string * parser)) : parser :=
  fun data path =>
    if negb (is_object data) || is_null data || Array_isArray data then
      fail customMessage path "Expected object"
    else object_loop shape data path [] [].

(** The entry loop of [RecordSchema.parse]; the keys are those of the
    input, so [result[key] = x] is the general assignment. *)
Fixpoint record_loop (valueSchema : parser) (entries : list (string * value))
  (path : string) (iss : list ValidationIssue) (result : value)
  : outcome value :=
  match entries with
  | [] => finish iss result
  | (key, val) :: rest =>
      match valueSchema val (field_path path key) with
      | Return x =>
          record_loop valueSchema rest path iss (obj_assign result key x)
      | Raise (ThrowValidation err) =>
          record_loop valueSchema rest path (iss ++ issues err)%list result
      | Raise err => Raise err
      end
  end.

Definition RecordSchema_parse (customMessage : option string)
  (valueSchema : parser) : parser :=
  fun data path =>
    if negb (is_object data) || is_null data || Array_isArray data then
      fail customMessage path "Expected object"
    else record_loop valueSchema (Object_entries data) path [] (VObject []).

(** *** Union: [try { return schema.parse(data, path) } catch {}] per member *)

Fixpoint union_loop (customMessage : option string) (schemas : list parser)
  (data : value) (path : string) : outcome value :=
  match schemas with
  | [] => fail customMessage path "Value does not match any type in the union"
  | member :: rest =>
      match member data path with
      | Return x => Return x
      | Raise _ => union_loop customMessage rest data path
      end
  end.

Definition UnionSchema_parse (customMessage : option string)
  (schemas : list parser) : parser :=
  fun data path => union_loop customMessage schemas data path.

(** *** Wrappers *)

Definition OptionalSchema_parse (inner : parser) : parser :=
  fun data path =>
    match data with
    | VUndefined => Return VUndefined
    | _ => inner data path
    end.

Definition NullableSchema_parse (inner : parser) : parser :=
  fun data path =>
    match data with
    | VNull => Return VNull
    | _ => inner data path
    end.

Definition TransformSchema_parse (inner : parser)
  (fn : value -> outcome value) : parser :=
  fun data path => x <- inner data path ;; fn x.

(** *** Dispatch on the class *)

Fixpoint parse (s : schema) : parser :=
  match s with
  | StringSchema m checks => StringSchema_parse m checks
  | NumberSchema m checks => NumberSchema_parse m checks
  | BooleanSchema m => BooleanSchema_parse m
  | CoercedStringSchema m checks => CoercedStringSchema_parse m checks
  | CoercedNumberSchema m checks => CoercedNumberSchema_parse m checks
  | CoercedBooleanSchema m => CoercedBooleanSchema_parse m
  | ArraySchema m checks item => ArraySchema_parse m checks (parse item)
  | ObjectSchema m shape =>
      ObjectSchema_parse m
        (map (fun entry : string * schema =>
                let (key, field) := entry in (key, parse field))
             shape)
  | EnumSchema m values => EnumSchema_parse m values
  | LiteralSchema m value => LiteralSchema_parse m value
  | UnionSchema m schemas => UnionSchema_parse m (map parse schemas)
  | RecordSchema m valueSchema => RecordSchema_parse m (parse valueSchema)
  | DateSchema m checks => DateSchema_parse m checks
  | OptionalSchema _ inner => OptionalSchema_parse (parse inner)
  | NullableSchema _ inner => NullableSchema_parse (parse inner)
  | TransformSchema _ inner fn => TransformSchema_parse (parse inner) fn
  end.

End Engine.

(* ------------------------------------------------------------------ *)
(** ** [toJsonSchema] *)

(** Documents are JavaScript objects, hence values. *)
Definition string_keyword (schema : list (string * value)) (check : StringCheck)
  : list (string * value) :=
  match check with
  | SMin n => obj_set schema "minLength" (VNumber n)
  | SMax n => obj_set schema "maxLength" (VNumber n)
  | SPattern x => obj_set schema "pattern" (VString (source x))
  end.

Definition StringSchema_toJsonSchema (checks : list StringCheck) : value :=
  VObject (fold_left string_keyword checks [("type", VString "string")]).

Definition number_keyword (schema : list (string * value)) (check : NumberCheck)
  : list (string * value) :=
  match check with
  | NMin n => obj_set schema "minimum" (VNumber n)
  | NMax n => obj_set schema "maximum" (VNumber n)
  | NInteger => obj_set schema "type" (VString "integer")
  end.

Definition NumberSchema_toJsonSchema (checks : list NumberCheck) : value :=
  VObject (fold_left number_keyword checks [("type", VString "number")]).

Definition array_keyword (schema : list (string * value)) (check : ArrayCheck)
  : list (string * value) :=
  match check with
  | AMin n => obj_set schema "minItems" (VNumber n)
  | AMax n => obj_set schema "maxItems" (VNumber n)
  end.

Definition ArraySchema_toJsonSchema (checks : list ArrayCheck) (items : value)
  : value :=
  VObject
    (fold_left array_keyword checks
       [("type", VString "array"); ("items", items)]).

(** [fieldSchema instanceof OptionalSchema]: the class of the instance
    itself; no other class extends [OptionalSchema]. *)
Definition instanceof_OptionalSchema (s : schema) : bool :=
  match s with
  | OptionalSchema _ _ => true
  | _ => false
  end.

(** The loop of [ObjectSchema.toJsonSchema]; an entry carries the key, the
    document of the field and the result of the [instanceof] test. *)
Fixpoint object_document_loop (entries : list (string * (value * bool)))
  (properties : list (string * value)) (required : list string)
  : list (string * value) * list string :=
  match entries with
  | [] => (properties, required)
  | (key, (document, isOptional)) :: rest =>
      object_document_loop rest (obj_set properties key document)
        (if negb isOptional then (required ++ [key])%list else required)
  end.

Definition ObjectSchema_toJsonSchema (entries : list (string * (value * bool)))
  : value :=
  let (properties, required) := object_document_loop entries [] [] in
  let schema := [("type", VString "object"); ("properties", VObject properties)] in
  VObject
    (match required with
     | [] => schema
     | _ :: _ => obj_set schema "required" (VArray (map VString required))
     end).

Fixpoint toJsonSchema (s : schema) : value :=
  match s with
  | StringSchema _ checks | CoercedStringSchema _ checks =>
      StringSchema_toJsonSchema checks
  | NumberSchema _ checks | CoercedNumberSchema _ checks =>
      NumberSchema_toJsonSchema checks
  | BooleanSchema _ | CoercedBooleanSchema _ =>
      VObject [("type", VString "boolean")]
  | ArraySchema _ checks item =>
      ArraySchema_toJsonSchema checks (toJsonSchema item)
  | ObjectSchema _ shape =>
      ObjectSchema_toJsonSchema
        (map (fun entry : string * schema =>
                let (key, fieldSchema) := entry in
                (key, (toJsonSchema fieldSchema,
                       instanceof_OptionalSchema fieldSchema)))
             shape)
  | EnumSchema _ values =>
      VObject [("type", VString "string"); ("enum", VArray (map VString values))]
  | LiteralSchema _ value => VObject [("const", literal_value value)]
  | UnionSchema _ schemas => VObject [("oneOf", VArray (map toJsonSchema schemas))]
  | RecordSchema _ valueSchema =>
      VObject [("type", VString "object");
               ("additionalProperties", toJsonSchema valueSchema)]
  | DateSchema _ _ =>
      VObject [("type", VString "string"); ("format", VString "date-time")]
  | OptionalSchema _ inner => toJsonSchema inner
  | NullableSchema _ inner =>
      VObject [("oneOf", VArray [toJsonSchema inner;
                                 VObject [("type", VString "null")]])]
  | TransformSchema _ inner _ => toJsonSchema inner
  end.

(** The [required] entry of an exported document, [[]] when it has none. *)
Definition required_of (document : value) : list value :=
  match own_property document "required" with
  | VArray keys => keys
  | _ => []
  end.

(* ------------------------------------------------------------------ *)
(** ** A host for closed examples

    Its conversions agree with JavaScript on the unsigned decimal integers
    below 2^53, its [toUpperCase] on strings of ASCII characters; its
    built-in objects have the methods named below.  It reads no date.  The
    examples stay within these bounds, and no theorem depends on this
    host. *)

Fixpoint digits_value (s : string) (acc : nat) : option nat :=
  match s with
  | EmptyString => Some acc
  | String c rest =>
      let n := nat_of_ascii c in
      if Nat.leb 48 n && Nat.leb n 57 then digits_value rest (10 * acc + (n - 48))
      else None
  end.

Definition decimal_ToNumber (s : string) : number :=
  match digits_value s 0 with
  | Some n => of_nat n
  | None => NaN
  end.

Definition decimal_NumberToString (n : number) : string :=
  match n with
  | NaN => "NaN"
  | Infinity negative => if negative then "-Infinity" else "Infinity"
  | Finite q =>
      match Qnum q with
      | Z0 => "0"
      | Zpos p => nat_to_string (Pos.to_nat p)
      | Zneg p => "-" ++ nat_to_string (Pos.to_nat p)
      end
  end.

Definition upper_char (c : ascii) : ascii :=
  let n := nat_of_ascii c in
  if Nat.leb 97 n && Nat.leb n 122 then ascii_of_nat (n - 32) else c.

Fixpoint ascii_toUpperCase (s : string) : string :=
  match s with
  | EmptyString => EmptyString
  | String c rest => String (upper_char c) (ascii_toUpperCase rest)
  end.

Definition method_named (names : list string) (key : string) : option value :=
  if existsb (String.eqb key) names then Some (VFunction key) else None.

Definition standard_builtin (obj : value) (key : string) : option value :=
  match obj with
  | VDate _ | VDatePrototype =>
      method_named
        ["getTime"; "getFullYear"; "getMonth"; "getDate"; "getDay"; "getHours";
         "getMinutes"; "getSeconds"; "getMilliseconds"; "getTimezoneOffset";
         "setTime"; "toISOString"; "toJSON"; "toDateString"; "toTimeString";
         "toUTCString"; "toLocaleDateString"; "toLocaleTimeString"] key
  | VArray _ =>
      method_named
        ["at"; "concat"; "entries"; "every"; "filter"; "find"; "findIndex";
         "forEach"; "includes"; "indexOf"; "join"; "keys"; "map"; "pop";
         "push"; "reduce"; "reverse"; "shift"; "slice"; "some"; "sort";
         "splice"; "unshift"; "values"] key
  | VFunction _ => method_named ["apply"; "bind"; "call"] key
  | _ => None
  end.

#[export] Instance decimal_host : Host := {|
  ToNumber := decimal_ToNumber;
  NumberToString := decimal_NumberToString;
  DateParse := fun _ => NaN;
  toISOString := fun _ => "";
  JSON_quote := fun s => String (ascii_of_nat 34) (s ++ String (ascii_of_nat 34) "");
  toUpperCase := ascii_toUpperCase;
  FunctionToString := fun f => "function " ++ f ++ "() { [native code] }";
  builtin_property := standard_builtin
|}.

(* ------------------------------------------------------------------ *)
(** ** Vocabulary of the specification

    The notions the properties below are stated with: what a container
    visits, what it collects, what a union tries, which failure is a
    schema's own. *)

Section Vocabulary.

Context {host : Host}.

(** The outcome of each element of an array, from index [i] on, keyed by
    the index. *)
Fixpoint array_children (item : schema) (path : string) (items : list value)
  (i : nat) : list (string * outcome value) :=
  match items with
  | [] => []
  | d :: rest =>
      (nat_to_string i, parse item d (index_path path i))
        :: array_children item path rest (S i)
  end.

(** The outcome of each declared key of an object, in the order of
    [Object.keys(this.shape)], which is the order of the list. *)
Definition object_children (shape : list (string * schema)) (obj : value)
  (path : string) : list (string * outcome value) :=
  map (fun entry : string * schema =>
         let (key, field) := entry in
         (key, parse field (obj_get obj key) (field_path path key)))
      shape.

(** The outcome of each observed entry of a record. *)
Definition record_children (valueSchema : schema)
  (entries : list (string * value)) (path : string)
  : list (string * outcome value) :=
  map (fun entry : string * value =>
         let (key, val) := entry in
         (key, parse valueSchema val (field_path path key)))
      entries.

Definition plain_object (data : value) : bool :=
  negb (negb (is_object data) || is_null data || Array_isArray data).

(** The children a container visits on an input that passes its own shape
    and length checks; [None] for any other schema or input. *)
Definition visits (s : schema) (data : value) (path : string)
  : option (list (string * outcome value)) :=
  match s with
  | ArraySchema _ checks item =>
      match data with
      | VArray items =>
          match array_checks checks (List.length items) path with
          | Return _ => Some (array_children item path items 0)
          | Raise _ => None
          end
      | _ => None
      end
  | ObjectSchema _ shape =>
      if plain_object data then Some (object_children shape data path) else None
  | RecordSchema _ valueSchema =>
      if plain_object data then
        Some (record_children valueSchema (Object_entries data) path)
      else None
  | _ => None
  end.

(** The issues of the children that raised a [ValidationError], in visit
    order. *)
Definition collected (outs : list (string * outcome value))
  : list ValidationIssue :=
  flat_map (fun out : string * outcome value =>
              match snd out with
              | Raise (ThrowValidation err) => issues err
              | _ => []
              end)
           outs.

(** The first child exception that is not a [ValidationError], if any. *)
Fixpoint interrupted (outs : list (string * outcome value)) : option thrown :=
  match outs with
  | [] => None
  | (_, Raise (ThrowOther what)) :: _ => Some (ThrowOther what)
  | _ :: rest => interrupted rest
  end.

Definition returned (outs : list (string * outcome value)) : list value :=
  flat_map (fun out : string * outcome value =>
              match snd out with
              | Return x => [x]
              | Raise _ => []
              end)
           outs.

Definition keep_defined (result : list (string * value))
  (out : string * outcome value) : list (string * value) :=
  match snd out with
  | Return x => if is_undefined x then result else obj_set result (fst out) x
  | Raise _ => result
  end.

Definition keep_all (result : value) (out : string * outcome value) : value :=
  match snd out with
  | Return x => obj_assign result (fst out) x
  | Raise _ => result
  end.

(** The container rebuilt from the children that returned. *)
Definition rebuilt (s : schema) (outs : list (string * outcome value)) : value :=
  match s with
  | ArraySchema _ _ _ => VArray (returned outs)
  | ObjectSchema _ _ => VObject (fold_left keep_defined outs [])
  | _ => fold_left keep_all outs (VObject [])
  end.

(** The properties of the children that returned, in visit order: those
    with a value other than [undefined], and all of them. *)
Definition kept_defined (outs : list (string * outcome value))
  : list (string * value) :=
  flat_map (fun out : string * outcome value =>
              match snd out with
              | Return x => if is_undefined x then [] else [(fst out, x)]
              | Raise _ => []
              end)
           outs.

Definition kept (outs : list (string * outcome value))
  : list (string * value) :=
  flat_map (fun out : string * outcome value =>
              match snd out with
              | Return x => [(fst out, x)]
              | Raise _ => []
              end)
           outs.

(** What a container returns when all its children returned: the array of
    their values; for an object, whose declared keys are distinct, the
    properties with a value other than [undefined]; for a record, whose
    observed keys are distinct and in [Object.keys] order, all the
    properties, when none of the keys is [__proto__]. *)
Definition holds (s : schema) (outs : list (string * outcome value))
  (out : value) : Prop :=
  match s with
  | ArraySchema _ _ _ => out = VArray (returned outs)
  | ObjectSchema _ _ =>
      NoDup (map fst outs) -> out = VObject (kept_defined outs)
  | _ =>
      NoDup (map fst outs) -> in_order (map fst outs) = true ->
      ~ In "__proto__" (map fst outs) ->
      out = VObject (kept outs)
  end.

(** The value of the first outcome that is a return. *)
Fixpoint first_success (outs : list (outcome value)) : option value :=
  match outs with
  | [] => None
  | Return x :: _ => Some x
  | Raise _ :: rest => first_success rest
  end.

(** Whether a string check rejects [s], and the message it then raises. *)
Definition string_check_fails (check : StringCheck) (s : string) : bool :=
  match check with
  | SMin n => num_lt (of_nat (String.length s)) n
  | SMax n => num_gt (of_nat (String.length s)) n
  | SPattern x => negb (RegExp_test x s)
  end.

Definition string_check_message (check : StringCheck) : string :=
  match check with
  | SMin n => "String must be at least " ++ NumberToString n ++ " characters"
  | SMax n => "String must be at most " ++ NumberToString n ++ " characters"
  | SPattern x => "String must match pattern " ++ RegExp_toString x
  end.

Definition number_check_fails (check : NumberCheck) (n : number) : bool :=
  match check with
  | NMin bound => num_lt n bound
  | NMax bound => num_gt n bound
  | NInteger => negb (Number_isInteger n)
  end.

Definition number_check_message (check : NumberCheck) : string :=
  match check with
  | NMin bound => "Number must be at least " ++ NumberToString bound
  | NMax bound => "Number must be at most " ++ NumberToString bound
  | NInteger => "Number must be an integer"
  end.

(** The constraint chain of a number schema on a number that is not
    [NaN]: the first failing check decides. *)
Definition number_chain (checks : list NumberCheck) (n : number) (path : string)
  : outcome value :=
  match find (fun check => number_check_fails check n) checks with
  | Some check => throw_issues [mkIssue path (number_check_message check)]
  | None => Return (VNumber n)
  end.

Definition customMessage_of (s : schema) : option string :=
  match s with
  | StringSchema m _ | NumberSchema m _ | BooleanSchema m
  | CoercedStringSchema m _ | CoercedNumberSchema m _ | CoercedBooleanSchema m
  | ArraySchema m _ _ | ObjectSchema m _ | EnumSchema m _ | LiteralSchema m _
  | UnionSchema m _ | RecordSchema m _ | DateSchema m _
  | OptionalSchema m _ | NullableSchema m _ | TransformSchema m _ _ => m
  end.

Definition is_raise (A : Type) (o : outcome A) : bool :=
  match o with Raise _ => true | Return _ => false end.

Definition number_type_failure (data : value) : option string :=
  match data with
  | VNumber n => if Number_isNaN n then Some "Expected number" else None
  | _ => Some "Expected number"
  end.

(** The default message of the schema's own type or shape failure on
    [data], when that is how [parse] ends: the calls of [this.fail]. *)
Definition primary_failure (s : schema) (data : value) (path : string)
  : option string :=
  match s with
  | StringSchema _ _ =>
      match data with VString _ => None | _ => Some "Expected string" end
  | NumberSchema _ _ => number_type_failure data
  | BooleanSchema _ =>
      match data with VBoolean _ => None | _ => Some "Expected boolean" end
  | CoercedStringSchema _ _ =>
      match data with
      | VString _ | VNumber _ | VBoolean _ => None
      | _ => Some "Expected string"
      end
  | CoercedNumberSchema _ _ =>
      match data with
      | VString s =>
          if is_empty (trim s) then Some "Expected number"
          else number_type_failure (VNumber (ToNumber (trim s)))
      | _ => number_type_failure data
      end
  | CoercedBooleanSchema _ =>
      match data with
      | VBoolean _ => None
      | VString s =>
          if includes ["true"; "1"; "false"; "0"; ""] (toLowerCase s) then None
          else Some "Expected boolean"
      | _ => Some "Expected boolean"
      end
  | ArraySchema _ _ _ =>
      match data with VArray _ => None | _ => Some "Expected array" end
  | ObjectSchema _ _ | RecordSchema _ _ =>
      if plain_object data then None else Some "Expected object"
  | EnumSchema _ values =>
      match data with
      | VString s =>
          if includes values s then None
          else Some ("Expected one of: " ++ join ", " values)
      | _ => Some ("Expected one of: " ++ join ", " values)
      end
  | LiteralSchema _ value =>
      if strict_eq data value then None
      else Some ("Expected literal " ++ JSON_stringify value)
  | UnionSchema _ schemas =>
      if forallb (fun member => is_raise (parse member data path)) schemas then
        Some "Value does not match any type in the union"
      else None
  | DateSchema _ _ =>
      match data with
      | VString s =>
          if Number_isNaN (DateParse s) then Some "Invalid date" else None
      | _ => Some "Expected date string"
      end
  | OptionalSchema _ _ | NullableSchema _ _ | TransformSchema _ _ _ => None
  end.

(** The transform functions of a schema tree. *)
Fixpoint transforms_of (s : schema) : list (value -> outcome value) :=
  match s with
  | ArraySchema _ _ item => transforms_of item
  | ObjectSchema _ shape =>
      flat_map (fun entry : string * schema =>
                  let (_, field) := entry in transforms_of field)
               shape
  | UnionSchema _ schemas => flat_map transforms_of schemas
  | RecordSchema _ inner | OptionalSchema _ inner | NullableSchema _ inner =>
      transforms_of inner
  | TransformSchema _ inner fn => fn :: transforms_of inner
  | _ => []
  end.

(** No transform function of the tree raises a [ValidationError] itself. *)
Definition transforms_raise_no_ValidationError (s : schema) : Prop :=
  forall fn, In fn (transforms_of s) ->
  forall x err, fn x <> Raise (ThrowValidation err).

(** What [parse(input, p)] promises of a [ValidationError] it raises. *)
Definition anchored_at (p : string) (err : ValidationError) : Prop :=
  issues err <> [] /\
  (forall i, In i (issues err) -> String.prefix p (path i) = true) /\
  error_message err =
    "Validation failed: " ++ join ", " (map message (issues err)).

(** An outcome whose [ValidationError], if it is one, is anchored at [p]. *)
Definition anchors (A : Type) (p : string) (o : outcome A) : Prop :=
  forall err, o = Raise (ThrowValidation err) -> anchored_at p err.

End Vocabulary.

(* ------------------------------------------------------------------ *)
(** ** A caller of [parse]: [Context.validQuery]

    A [URLSearchParams] is the list of its entries in order; [keys()] runs
    over every entry, [get(key)] is the value of the first entry with the
    key. *)

Definition URLSearchParams : Type := list (string * string).

Section QueryObject.

Context {host : Host}.

(** [for (const key of this.query.keys()) obj[key] = this.query.get(key)!]. *)
Fixpoint query_loop (keys : list string) (query : URLSearchParams)
  (obj : value) : value :=
  match keys with
  | [] => obj
  | key :: rest =>
      query_loop rest query
        (obj_assign obj key
           (match get query key with
            | Some s => VString s
            | None => VNull
            end))
  end.

(** The object handed to the schema, and its own properties. *)
Definition query_built (query : URLSearchParams) : value :=
  query_loop (Object_keys query) query (VObject []).

Definition query_object (query : URLSearchParams) : list (string * value) :=
  Object_entries (query_built query).

Definition validQuery (schema : schema) (query : URLSearchParams)
  : outcome value :=
  parse schema (query_built query) "".

End QueryObject.

(* ------------------------------------------------------------------ *)
(** ** URLs ([src/url.ts], [extractQueryString] of [src/context.ts])

    [indexOf] is [None] where JavaScript gives [-1]; the needles of the
    code are not empty, and the indices of [slice] are not negative. *)

Fixpoint drop (n : nat) (s : string) : string :=
  match n, s with
  | 0, _ => s
  | S _, EmptyString => EmptyString
  | S n', String _ rest => drop n' rest
  end.

Fixpoint take (n : nat) (s : string) : string :=
  match n, s with
  | 0, _ => EmptyString
  | S _, EmptyString => EmptyString
  | S n', String c rest => String c (take n' rest)
  end.

(** [s.slice(a, b)] and [s.slice(a)]. *)
Definition slice (s : string) (a b : nat) : string := take (b - a) (drop a s).
Definition slice_from (s : string) (a : nat) : string := drop a s.

Fixpoint indexOf_here (needle s : string) : option nat :=
  if String.prefix needle s then Some 0
  else
    match s with
    | EmptyString => None
    | String _ rest => option_map S (indexOf_here needle rest)
    end.

(** [s.indexOf(needle, from)]. *)
Definition indexOf (needle s : string) (from : nat) : option nat :=
  option_map (Nat.add from) (indexOf_here needle (drop from s)).

(** [url.charCodeAt(0) === 47]. *)
Definition starts_with_slash (url : string) : bool :=
  match url with
  | String c _ => Nat.eqb (nat_of_ascii c) 47
  | EmptyString => false
  end.

Definition extractPathname (url : string) : string :=
  if starts_with_slash url then
    match indexOf "?" url 0 with
    | None => url
    | Some q => slice url 0 q
    end
  else
    match indexOf "://" url 0 with
    | None => url
    | Some protoEnd =>
        match indexOf "/" url (protoEnd + 3) with
        | None => "/"
        | Some pathStart =>
            match indexOf "?" url pathStart with
            | None => slice_from url pathStart
            | Some q => slice url pathStart q
            end
        end
    end.

Definition extractQueryString (url : string) : string :=
  match indexOf "?" url 0 with
  | None => ""
  | Some q =>
      match indexOf "#" url q with
      | None => slice_from url (q + 1)
      | Some hash => slice url (q + 1) hash
      end
  end.

(** Whether the character [c] occurs in [s]. *)
Fixpoint occurs (c : ascii) (s : string) : bool :=
  match s with
  | EmptyString => false
  | String d rest => Ascii.eqb d c || occurs c rest
  end.

(** A path name: it starts with a slash and holds no question mark. *)
Definition clean (r : string) : Prop :=
  starts_with_slash r = true /\ occurs "?" r = false.

(* ------------------------------------------------------------------ *)
(** ** Route paths ([splitPath] and [Router.url] of [src/router.ts]) *)

(** [s.split("/")]. *)
Fixpoint split_slash (s : string) : list string :=
  match s with
  | EmptyString => [EmptyString]
  | String c rest =>
      if Ascii.eqb c "/"%char then EmptyString :: split_slash rest
      else
        match split_slash rest with
        | first :: others => String c first :: others
        | [] => [String c EmptyString]
        end
  end.

Definition splitPath (path : string) : list string :=
  filter (fun seg => negb (is_empty seg)) (split_slash path).

(** [seg.startsWith(":")]. *)
Definition is_param (seg : string) : bool := String.prefix ":" seg.

(** The parameter object of a caller, whose values are strings. *)
Definition strings (params : list (string * string)) : list (string * value) :=
  map (fun entry : string * string => (fst entry, VString (snd entry))) params.

Section RouterUrl.

Context {host : Host}.

(** [params?.[key]], as the text that [result.join("/")] makes of it;
    [None] where the code finds [undefined].  A key that is no own property
    reads what [Object.prototype] has: a method, or for [__proto__] the
    prototype itself. *)
Definition url_param (params : option (list (string * string)))
  (key : string) : option string :=
  match params with
  | None => None
  | Some ps =>
      match obj_get (VObject (strings ps)) key with
      | VString s => Some s
      | VFunction f => Some (FunctionToString f)
      | VObjectPrototype => Some "[object Object]"
      | _ => None
      end
  end.

(** The loop of [Router.url] over the segments of the pattern; the
    exceptions are [Error]s, given by their messages. *)
Fixpoint url_segments (name : string) (segments : list string)
  (params : option (list (string * string))) (result : list string)
  : outcome (list string) :=
  match segments with
  | [] => Return result
  | seg :: rest =>
      if is_empty seg then url_segments name rest params result
      else if String.eqb seg "*" then
        match url_param params "*" with
        | None =>
            Raise (ThrowOther
                     ("Missing wildcard param " ++ String (ascii_of_nat 34) "*"
                      ++ String (ascii_of_nat 34) " for route "
                      ++ String (ascii_of_nat 34) name
                      ++ String (ascii_of_nat 34) ""))
        | Some value => url_segments name rest params (result ++ [value])%list
        end
      else if is_param seg then
        let key := slice_from seg 1 in
        match url_param params key with
        | None =>
            Raise (ThrowOther
                     ("Missing param " ++ String (ascii_of_nat 34) key
                      ++ String (ascii_of_nat 34) " for route "
                      ++ String (ascii_of_nat 34) name
                      ++ String (ascii_of_nat 34) ""))
        | Some value => url_segments name rest params (result ++ [value])%list
        end
      else url_segments name rest params (result ++ [seg])%list
  end.

(** [Router.url(name, params)] over the table of route names. *)
Definition Router_url (names : list (string * string)) (name : string)
  (params : option (list (string * string))) : outcome string :=
  match get names name with
  | None =>
      Raise (ThrowOther
               ("Unknown route name " ++ String (ascii_of_nat 34) name
                ++ String (ascii_of_nat 34) ""))
  | Some pattern =>
      result <- url_segments name (split_slash pattern) params [] ;;
      Return ("/" ++ join "/" result)
  end.

(** What [Router.url] puts in the place of a segment: the text of the
    parameter for [*] and [:key], the segment itself otherwise. *)
Definition supplied (params : option (list (string * string))) (seg : string)
  : option string :=
  if String.eqb seg "*" then url_param params "*"
  else if is_param seg then url_param params (slice_from seg 1)
  else Some seg.

Fixpoint supply_all (params : option (list (string * string)))
  (segments : list string) : option (list string) :=
  match segments with
  | [] => Some []
  | seg :: rest =>
      match supplied params seg, supply_all params rest with
      | Some value, Some values => Some (value :: values)
      | _, _ => None
      end
  end.

End RouterUrl.

(** [Router.setName(name, path)]. *)
Definition Router_setName (names : list (string * string)) (name path : string)
  : outcome (list (string * string)) :=
  match get names name with
  | Some _ =>
      Raise (ThrowOther
               ("Route name " ++ String (ascii_of_nat 34) name
                ++ String (ascii_of_nat 34) " is already defined"))
  | None => Return (names ++ [(name, path)])%list
  end.

(** The segments of a pattern filled from the own properties of [params]:
    the value of the parameter for [*] and [:key], the segment itself
    otherwise. *)
Definition param_value (params : option (list (string * string)))
  (key : string) : option string :=
  match params with
  | Some ps => get ps key
  | None => None
  end.

Definition filled (params : option (list (string * string))) (seg : string)
  : option string :=
  if String.eqb seg "*" then param_value params "*"
  else if is_param seg then param_value params (slice_from seg 1)
  else Some seg.

Fixpoint fill_all (params : option (list (string * string)))
  (segments : list string) : option (list string) :=
  match segments with
  | [] => Some []
  | seg :: rest =>
      match filled params seg, fill_all params rest with
      | Some value, Some values => Some (value :: values)
      | _, _ => None
      end
  end.

(* ------------------------------------------------------------------ *)
(** ** The routing trie ([Node] and [Router] of [src/router.ts])

    A [Map] is the list of its entries in insertion order.  The trie is
    a tree, so the in-place updates of [add] are updates of the path from
    the root.  [matchNode] works on the one [params] object of the call: it
    is handed the object and hands it back, with what it wrote and took
    back.  The handlers are functions, which pass the tests [if (!handler)]
    of the code; any type [H] stands for them.  The warning that [add]
    prints is left out. *)

Inductive Node (H : Type) : Type :=
| mkNode (segment : string)
    (children : list (string * Node H))
    (paramChild : option (Node H))
    (wildcardChild : option (Node H))
    (paramName : option string)
    (handlers : list (string * H))
    (paths : list (string * string)).

Section Trie.

Variable H : Type.

Context {host : Host}.

Definition children (node : Node H) : list (string * Node H) :=
  match node with mkNode _ c _ _ _ _ _ => c end.
Definition paramChild (node : Node H) : option (Node H) :=
  match node with mkNode _ _ c _ _ _ _ => c end.
Definition wildcardChild (node : Node H) : option (Node H) :=
  match node with mkNode _ _ _ c _ _ _ => c end.
Definition paramName (node : Node H) : option string :=
  match node with mkNode _ _ _ _ n _ _ => n end.
Definition handlers (node : Node H) : list (string * H) :=
  match node with mkNode _ _ _ _ _ h _ => h end.
Definition paths (node : Node H) : list (string * string) :=
  match node with mkNode _ _ _ _ _ _ p => p end.

(** [new Node(segment)]. *)
Definition new_Node (segment : string) : Node H :=
  mkNode segment [] None None None [] [].

(** [node.handlers.set(method, handler); node.paths.set(method, path)]. *)
Definition set_handler (node : Node H) (method path : string) (handler : H)
  : Node H :=
  match node with
  | mkNode s c pc wc n h p =>
      mkNode s c pc wc n (set h method handler) (set p method path)
  end.

(** The descent of [Router.add] from [node] along the segments, then the
    registration under the upper-cased method. *)
Fixpoint add_loop (segments : list string) (node : Node H)
  (method path : string) (handler : H) : Node H :=
  match segments with
  | [] => set_handler node (toUpperCase method) path handler
  | seg :: rest =>
      match node with
      | mkNode s c pc wc n h p =>
          if is_param seg then
            let child :=
              match pc with
              | Some child => child
              | None => mkNode seg [] None None (Some (slice_from seg 1)) [] []
              end in
            mkNode s c (Some (add_loop rest child method path handler)) wc n h p
          else if String.eqb seg "*" then
            let child :=
              match wc with
              | Some child => child
              | None => new_Node seg
              end in
            mkNode s c pc
              (Some (set_handler child (toUpperCase method) path handler)) n h p
          else
            let child :=
              match get c seg with
              | Some child => child
              | None => new_Node seg
              end in
            mkNode s (set c seg (add_loop rest child method path handler))
              pc wc n h p
      end
  end.

Definition Router_add (root : Node H) (method path : string) (handler : H)
  : Node H :=
  add_loop (splitPath path) root method path handler.

(** What [matchNode] returns: handler and [routePath]. *)
Definition found : Type := H * option string.

(** The result of a match: handler, [routePath], and the own properties
    of [params]. *)
Definition matched : Type := H * option string * list (string * value).

(** [params[node.paramChild.paramName!]]: a missing name reads as the
    key ["null"]. *)
Definition param_key (node : Node H) : string :=
  match paramName node with
  | Some name => name
  | None => "null"
  end.

(** A try of [matchNode], and the next one when it found nothing; the
    next one works on the [params] that the first left. *)
Definition or_else (first : option found * value)
  (next : value -> option found * value) : option found * value :=
  match first with
  | (Some result, params) => (Some result, params)
  | (None, params) => next params
  end.

(** The state of [params] after a branch through a parameter child failed:
    [if (prevValue === undefined) delete params[name]; else params[name] =
    prevValue]. *)
Definition backtrack (params : value) (name : string) (prevValue : value)
  : value :=
  if is_undefined prevValue then obj_remove params name
  else obj_assign params name prevValue.

(** The try of the parameter child: the segment is written under the name
    of the parameter, the child is matched on the rest, and a failure is
    followed by the backtracking. *)
Definition param_try (child : value -> option found * value)
  (name seg : string) (params : value) : option found * value :=
  let prevValue := obj_get params name in
  match child (obj_assign params name (VString seg)) with
  | (Some result, params') => (Some result, params')
  | (None, params') => (None, backtrack params' name prevValue)
  end.

(** The try of the wildcard child, which takes the rest of the path. *)
Definition wildcard_try (child : option (Node H)) (method rest : string)
  (params : value) : option found * value :=
  match child with
  | Some child =>
      match get (handlers child) method with
      | Some handler =>
          (Some (handler, get (paths child) method),
           obj_assign params "*" (VString rest))
      | None => (None, params)
      end
  | None => (None, params)
  end.

Fixpoint matchNode (segments : list string) (node : Node H) (method : string)
  (params : value) : option found * value :=
  match segments with
  | [] =>
      match get (handlers node) method with
      | None => (None, params)
      | Some handler => (Some (handler, get (paths node) method), params)
      end
  | seg :: rest =>
      or_else
        match get (children node) seg with
        | Some staticChild => matchNode rest staticChild method params
        | None => (None, params)
        end
        (fun params =>
           or_else
             match paramChild node with
             | Some child =>
                 param_try (matchNode rest child method) (param_key child) seg
                   params
             | None => (None, params)
             end
             (wildcard_try (wildcardChild node) method
                (join "/" (seg :: rest))))
  end.

(** [Router.match(method, url)], on the trie under [root]. *)
Definition Router_match (root : Node H) (method url : string)
  : option matched :=
  match
    matchNode (splitPath (extractPathname url)) root (toUpperCase method)
      (VObject [])
  with
  | (Some (handler, routePath), params) =>
      Some (handler, routePath, Object_entries params)
  | (None, _) => None
  end.

End Trie.

(** A segment that is neither a parameter nor the wildcard. *)
Definition static_segment (seg : string) : bool :=
  negb (is_param seg) && negb (String.eqb seg "*").

(** [params[name] = seg] on an object whose values are segments: the
    setter of [__proto__] ignores a string. *)
Definition bind_param (params : list (string * string)) (name seg : string)
  : list (string * string) :=
  match get params name with
  | Some _ => put params name seg
  | None => if String.eqb name "__proto__" then params else put params name seg
  end.

(** The parameters a pattern binds on the segments of a request, when
    the segments fit the pattern: a parameter takes one segment, the
    wildcard the rest of them joined by slashes, any other segment of the
    pattern its like. *)
Fixpoint bound (pattern segments : list string)
  (params : list (string * string)) : option (list (string * string)) :=
  match pattern, segments with
  | [], [] => Some params
  | p :: pattern', seg :: rest =>
      if is_param p then
        bound pattern' rest (bind_param params (slice_from p 1) seg)
      else if String.eqb p "*" then
        Some (bind_param params "*" (join "/" (seg :: rest)))
      else if String.eqb p seg then bound pattern' rest params
      else None
  | _, _ => None
  end.

(** The segments that the parameters of a pattern take on the segments
    of a request, in the order of the pattern, when the segments fit the
    pattern. *)
Fixpoint bindings (pattern segments : list string)
  : option (list (string * string)) :=
  match pattern, segments with
  | [], [] => Some []
  | p :: pattern', seg :: rest =>
      if is_param p then
        option_map (cons (slice_from p 1, seg)) (bindings pattern' rest)
      else if String.eqb p "*" then Some [("*", join "/" (seg :: rest))]
      else if String.eqb p seg then bindings pattern' rest
      else None
  | _, _ => None
  end.

(** The names of the parameters of a pattern. *)
Definition param_names (pattern : list string) : list string :=
  map (fun seg => slice_from seg 1) (filter is_param pattern).

(* ------------------------------------------------------------------ *)
(** ** Vocabulary of the further properties *)

(** The classes whose [parse] hands back the input itself: no coercion,
    no transform, no date, and no container that rebuilds by key. *)
Fixpoint preserving (s : schema) : bool :=
  match s with
  | StringSchema _ _ | NumberSchema _ _ | BooleanSchema _
  | EnumSchema _ _ | LiteralSchema _ _ => true
  | ArraySchema _ _ item => preserving item
  | UnionSchema _ schemas => forallb preserving schemas
  | OptionalSchema _ inner | NullableSchema _ inner => preserving inner
  | _ => false
  end.

(** The own properties of the [params] of a match: segments, and the
    methods of [Object.prototype] that the backtracking wrote back; none is
    named [__proto__]. *)
Definition is_text_or_function (v : value) : bool :=
  match v with
  | VString _ | VFunction _ => true
  | _ => false
  end.

Definition param_state (props : list (string * value)) : Prop :=
  forall k v, In (k, v) props ->
              k <> "__proto__" /\ is_text_or_function v = true.

(** A try of [matchNode] that leaves an object with such properties. *)
Definition leaves_params (A : Type) (result : A * value) : Prop :=
  exists props, snd result = VObject props /\ param_state props.

(** The values a preserving schema accepts are data: no function, no
    object. *)
Definition is_data (d : value) : Prop :=
  match d with
  | VUndefined | VNull | VBoolean _ | VNumber _ | VString _ | VArray _ => True
  | _ => False
  end.

(** Two outcomes that differ at most in the paths of their issues: the same
    value, the same foreign exception, or two [ValidationError]s with the
    same messages in the same order. *)
Definition alike (o1 o2 : outcome value) : Prop :=
  match o1, o2 with
  | Return x, Return y => x = y
  | Raise (ThrowValidation e1), Raise (ThrowValidation e2) =>
      map message (issues e1) = map message (issues e2) /\
      error_message e1 = error_message e2
  | Raise (ThrowOther a), Raise (ThrowOther b) => a = b
  | _, _ => False
  end.

(** What [parse] of a preserving schema does on [d]: it returns [d], or it
    raises a [ValidationError] that has an issue. *)
Definition faithful (o : outcome value) (d : value) : Prop :=
  match o with
  | Return x => x = d
  | Raise (ThrowValidation err) => issues err <> []
  | Raise (ThrowOther _) => False
  end.

(** Children visited under two paths, alike one by one. *)
Definition alike_children (outs outs' : list (string * outcome value)) : Prop :=
  Forall2 (fun a b : string * outcome value =>
             fst a = fst b /\ alike (snd a) (snd b)) outs outs'.

(** Case analysis on every test of the goal. *)
Ltac by_cases :=
  repeat match goal with
         | |- context [if ?b then _ else _] => destruct b eqn:?
         end;
  simpl; try (split; [reflexivity | trivial; reflexivity]).

(* ------------------------------------------------------------------ *)
(** ** The loops of the containers *)

Section Loops.

Context {host : Host}.

Lemma array_loop_spec (item : schema) (path : string) (items : list value) :
  forall i iss result,
    array_loop (parse item) path items i iss result =
    match interrupted (array_children item path items i) with
    | Some t => Raise t
    | None =>
        finish (iss ++ collected (array_children item path items i))%list
               (VArray (result ++ returned (array_children item path items i))%list)
    end.
Proof.
  induction items as [|d rest IH]; intros i iss result; simpl.
  - now rewrite !app_nil_r.
  - destruct (parse item d (index_path path i)) as [x|[err|what]]; simpl.
    + rewrite IH. unfold collected, returned; simpl.
      now rewrite <- (app_assoc result [x]).
    + rewrite IH. unfold collected, returned; simpl.
      now rewrite <- (app_assoc iss (issues err)).
    + reflexivity.
Qed.

Lemma object_loop_spec (obj : value) (path : string)
  (shape : list (string * schema)) :
  forall iss result,
    object_loop
      (map (fun entry : string * schema =>
              let (key, field) := entry in (key, parse field)) shape)
      obj path iss result =
    match interrupted (object_children shape obj path) with
    | Some t => Raise t
    | None =>
        finish (iss ++ collected (object_children shape obj path))%list
               (VObject (fold_left keep_defined (object_children shape obj path)
                                   result))
    end.
Proof.
  induction shape as [|[key field] rest IH]; intros iss result; simpl.
  - now rewrite app_nil_r.
  - destruct (parse field (obj_get obj key) (field_path path key))
      as [x|[err|what]] eqn:E; simpl.
    + rewrite IH.
      change (keep_defined result (key, Return x))
        with (if is_undefined x then result else obj_set result key x).
      now destruct (is_undefined x).
    + rewrite IH. unfold collected; simpl.
      now rewrite <- (app_assoc iss (issues err)).
    + reflexivity.
Qed.

Lemma record_loop_spec (valueSchema : schema) (path : string)
  (entries : list (string * value)) :
  forall iss result,
    record_loop (parse valueSchema) entries path iss result =
    match interrupted (record_children valueSchema entries path) with
    | Some t => Raise t
    | None =>
        finish (iss ++ collected (record_children valueSchema entries path))%list
               (fold_left keep_all
                  (record_children valueSchema entries path) result)
    end.
Proof.
  induction entries as [|[key val] rest IH]; intros iss result; simpl.
  - now rewrite app_nil_r.
  - destruct (parse valueSchema val (field_path path key))
      as [x|[err|what]] eqn:E; simpl.
    + now rewrite IH.
    + rewrite IH. unfold collected; simpl.
      now rewrite <- (app_assoc iss (issues err)).
    + reflexivity.
Qed.

Lemma plain_object_guard (data : value) :
  negb (is_object data) || is_null data || Array_isArray data
  = negb (plain_object data).
Proof. unfold plain_object. now rewrite negb_involutive. Qed.

(** A container on an input that passes its own checks: the loop result in
    terms of the outcomes of all the children. *)
Lemma container_parse (s : schema) (data : value) (path : string)
  (outs : list (string * outcome value)) :
  visits s data path = Some outs ->
  parse s data path =
  match interrupted outs with
  | Some t => Raise t
  | None => finish (collected outs) (rebuilt s outs)
  end.
Proof.
  destruct s; simpl; try discriminate.
  - destruct data; try discriminate.
    destruct (array_checks checks (List.length items) path) eqn:E;
      try discriminate.
    intros [= <-]. unfold ArraySchema_parse. rewrite E. simpl.
    now rewrite array_loop_spec.
  - unfold ObjectSchema_parse. rewrite plain_object_guard.
    destruct (plain_object data); try discriminate.
    intros [= <-]. simpl. now rewrite object_loop_spec.
  - unfold RecordSchema_parse. rewrite plain_object_guard.
    destruct (plain_object data); try discriminate.
    intros [= <-]. simpl. now rewrite record_loop_spec.
Qed.

End Loops.

(* ------------------------------------------------------------------ *)
(** ** Own properties in [Object.keys] order *)

Section OwnProperties.

Variable A : Type.

Lemma get_in (l : list (string * A)) (k : string) (x : A) :
  get l k = Some x -> In (k, x) l.
Proof.
  induction l as [|[k0 y] rest IH]; simpl; [discriminate|].
  destruct (String.eqb k0 k) eqn:E.
  - apply String.eqb_eq in E. subst k0. intros [= <-]. now left.
  - intros Hget. right. now apply IH.
Qed.

Lemma get_set (entries : list (string * A)) (key k : string) (x : A) :
  get (set entries key x) k =
  if String.eqb key k then Some x else get entries k.
Proof.
  induction entries as [|[k0 y] rest IH]; simpl.
  - reflexivity.
  - destruct (String.eqb k0 key) eqn:E0; simpl.
    + apply String.eqb_eq in E0; subst k0.
      now destruct (String.eqb key k).
    + rewrite IH. destruct (String.eqb k0 k) eqn:E1; trivial.
      apply String.eqb_eq in E1; subst k0.
      now rewrite String.eqb_sym, E0.
Qed.

Lemma get_insert (entries : list (string * A)) (key k : string) (x : A) :
  get entries key = None ->
  get (insert entries key x) k =
  if String.eqb key k then Some x else get entries k.
Proof.
  induction entries as [|[k0 y] rest IH]; simpl; trivial.
  destruct (String.eqb k0 key) eqn:E0; [discriminate|]. intros Hget.
  destruct (goes_before key k0); simpl.
  - destruct (String.eqb key k); trivial.
  - rewrite (IH Hget). destruct (String.eqb k0 k) eqn:E1; trivial.
    apply String.eqb_eq in E1; subst k0.
    now rewrite String.eqb_sym, E0.
Qed.

Lemma get_put (entries : list (string * A)) (key k : string) (x : A) :
  get (put entries key x) k =
  if String.eqb key k then Some x else get entries k.
Proof.
  unfold put. destruct (get entries key) eqn:G.
  - apply get_set.
  - now apply get_insert.
Qed.

(** A new key that goes before none of the keys is the last. *)
Lemma insert_last (entries : list (string * A)) (key : string) (x : A) :
  forallb (fun k : string => negb (goes_before key k)) (map fst entries) = true ->
  insert entries key x = (entries ++ [(key, x)])%list.
Proof.
  induction entries as [|[k0 y] rest IH]; simpl; trivial.
  intros Hall. apply andb_true_iff in Hall. destruct Hall as [H0 Hrest].
  apply negb_true_iff in H0. rewrite H0. now rewrite IH.
Qed.

Lemma put_last (entries : list (string * A)) (key : string) (x : A) :
  get entries key = None ->
  forallb (fun k : string => negb (goes_before key k)) (map fst entries) = true ->
  put entries key x = (entries ++ [(key, x)])%list.
Proof.
  intros Hget Hall. unfold put. rewrite Hget. now apply insert_last.
Qed.

Lemma set_in (entries : list (string * A)) (key k : string) (v x : A) :
  In (k, x) (set entries key v) -> (k = key /\ x = v) \/ In (k, x) entries.
Proof.
  induction entries as [|[k0 w] rest IH]; simpl.
  - intros [[= <- <-]|[]]. now left.
  - destruct (String.eqb k0 key) eqn:E; simpl.
    + apply String.eqb_eq in E. subst k0.
      intros [[= <- <-]|Hin]; [now left | right; now right].
    + intros [Heq|Hin]; [right; now left|].
      destruct (IH Hin) as [Hnew|Hold]; [now left | right; now right].
Qed.

Lemma insert_in (entries : list (string * A)) (key k : string) (v x : A) :
  In (k, x) (insert entries key v) -> (k = key /\ x = v) \/ In (k, x) entries.
Proof.
  induction entries as [|[k0 w] rest IH]; simpl.
  - intros [[= <- <-]|[]]. now left.
  - destruct (goes_before key k0); simpl.
    + intros [[= <- <-]|Hin]; [now left | now right].
    + intros [Heq|Hin]; [right; now left|].
      destruct (IH Hin) as [Hnew|Hold]; [now left | right; now right].
Qed.

Lemma put_in (entries : list (string * A)) (key k : string) (v x : A) :
  In (k, x) (put entries key v) -> (k = key /\ x = v) \/ In (k, x) entries.
Proof.
  unfold put. destruct (get entries key).
  - apply set_in.
  - apply insert_in.
Qed.

Lemma get_none_keys (entries : list (string * A)) (key : string) :
  get entries key = None <-> ~ In key (map fst entries).
Proof.
  induction entries as [|[k0 y] rest IH]; simpl.
  - split; [intros _ [] | trivial].
  - destruct (String.eqb k0 key) eqn:E.
    + apply String.eqb_eq in E. split; [discriminate|].
      intros Hn. exfalso. apply Hn. now left.
    + apply String.eqb_neq in E. rewrite IH. split.
      * intros Hn [Heq|Hin]; [now apply E | now apply Hn].
      * intros Hn Hin. apply Hn. now right.
Qed.

Lemma set_keys (entries : list (string * A)) (key : string) (x y : A) :
  get entries key = Some y -> map fst (set entries key x) = map fst entries.
Proof.
  induction entries as [|[k0 w] rest IH]; simpl; [discriminate|].
  destruct (String.eqb k0 key) eqn:E; simpl; trivial.
  intros Hget. now rewrite IH.
Qed.

Lemma insert_nodup (entries : list (string * A)) (key : string) (x : A) :
  get entries key = None ->
  NoDup (map fst entries) -> NoDup (map fst (insert entries key x)).
Proof.
  induction entries as [|[k0 y] rest IH]; simpl.
  - intros _ _. constructor; [intros [] | constructor].
  - destruct (String.eqb k0 key) eqn:E; [discriminate|].
    apply String.eqb_neq in E. intros Hget Hnd.
    destruct (goes_before key k0); simpl.
    + constructor; trivial. intros [Heq|Hin]; [now apply E|].
      revert Hin. now apply get_none_keys.
    + inversion Hnd as [|? ? Hnotin Hnd']; subst.
      constructor; [|now apply IH].
      intros Hin. apply in_map_iff in Hin.
      destruct Hin as [[k z] [Hk Hin]]. simpl in Hk. subst k.
      apply insert_in in Hin. destruct Hin as [[Heq _]|Hin]; [now apply E|].
      apply Hnotin. apply in_map_iff. now exists (k0, z).
Qed.

Lemma put_nodup (entries : list (string * A)) (key : string) (x : A) :
  NoDup (map fst entries) -> NoDup (map fst (put entries key x)).
Proof.
  unfold put. destruct (get entries key) as [y|] eqn:G.
  - now rewrite (@set_keys entries key x y G).
  - now apply insert_nodup.
Qed.

(** Writing a value back in the place of the one it replaced. *)
Lemma put_restore (entries : list (string * A)) (key : string) (v w : A) :
  get entries key = Some v -> put (put entries key w) key v = entries.
Proof.
  intros Hget. unfold put at 2. rewrite Hget.
  unfold put. rewrite get_set, String.eqb_refl.
  revert Hget. induction entries as [|[k0 y] rest IH]; simpl; [discriminate|].
  destruct (String.eqb k0 key) eqn:E; simpl; rewrite E.
  - now intros [= ->].
  - intros Hget. now rewrite IH.
Qed.

End OwnProperties.

Lemma obj_delete_absent (props : list (string * value)) (key : string) :
  get props key = None -> obj_delete props key = props.
Proof.
  unfold obj_delete. induction props as [|[k0 y] rest IH]; simpl; trivial.
  destruct (String.eqb k0 key); [discriminate|].
  intros Hget. simpl. now rewrite IH.
Qed.

(** Deleting a property that was just added. *)
Lemma obj_delete_put (props : list (string * value)) (key : string)
  (v : value) :
  get props key = None -> obj_delete (put props key v) key = props.
Proof.
  intros Hget. unfold put. rewrite Hget. unfold obj_delete.
  revert Hget. induction props as [|[k0 y] rest IH]; simpl.
  - intros _. now rewrite String.eqb_refl.
  - destruct (String.eqb k0 key) eqn:E; [discriminate|]. intros Hget.
    destruct (goes_before key k0); simpl.
    + rewrite String.eqb_refl, E. simpl. f_equal.
      now apply obj_delete_absent.
    + rewrite E. simpl. now rewrite IH.
Qed.

(** The segments bound to names, as the properties of an object. *)
Lemma get_strings (params : list (string * string)) (key : string) :
  get (strings params) key = option_map VString (get params key).
Proof.
  unfold strings. induction params as [|[k0 s0] rest IH]; simpl; trivial.
  now destruct (String.eqb k0 key).
Qed.

Lemma put_strings (params : list (string * string)) (name seg : string) :
  put (strings params) name (VString seg) = strings (put params name seg).
Proof.
  unfold put. rewrite get_strings.
  destruct (get params name); cbn [option_map].
  - unfold strings.
    induction params as [|[k0 s0] rest IH]; simpl; trivial.
    destruct (String.eqb k0 name); simpl; trivial. now rewrite IH.
  - unfold strings.
    induction params as [|[k0 s0] rest IH]; simpl; trivial.
    destruct (goes_before name k0); simpl; trivial. now rewrite IH.
Qed.

Lemma in_order_app (l : list string) (k : string) (rest : list string) :
  in_order (l ++ k :: rest) = true ->
  forallb (fun k' : string => negb (goes_before k k')) l = true /\
  in_order (l ++ rest) = true.
Proof.
  induction l as [|k0 l IH]; simpl.
  - intros Hord. apply andb_true_iff in Hord. now destruct Hord.
  - intros Hord. apply andb_true_iff in Hord. destruct Hord as [Hall Hord].
    rewrite forallb_app in Hall. apply andb_true_iff in Hall.
    destruct Hall as [Hl Hrest]. simpl in Hrest.
    apply andb_true_iff in Hrest. destruct Hrest as [Hk Hrest].
    destruct (IH Hord) as [Hkl Hord']. rewrite Hk, Hkl, Hord'.
    rewrite forallb_app, Hl, Hrest. now split.
Qed.

(* ------------------------------------------------------------------ *)
(** ** Objects as property lists *)

Section Properties.

Context {host : Host}.

(** What a plain object without the own property [key] reads. *)
Lemma obj_get_object (props : list (string * value)) (key : string) :
  obj_get (VObject props) key =
  match get props key with
  | Some v => v
  | None =>
      match from_Object_prototype key with
      | Found v => v
      | Accessor => VObjectPrototype
      | Missing => VUndefined
      end
  end.
Proof.
  unfold obj_get. cbn [find_property prototype_of].
  now destruct (get props key).
Qed.

Lemma not_inherited (key : string) :
  Object_prototype_has key = false -> from_Object_prototype key = Missing.
Proof.
  unfold Object_prototype_has, from_Object_prototype.
  destruct (get Object_prototype key); [discriminate|].
  now intros ->.
Qed.

Lemma get_obj_set (props : list (string * value)) (key k : string) (x : value) :
  get (obj_set props key x) k =
  if String.eqb key k then Some x else get props k.
Proof.
  induction props as [|[k0 w] rest IH]; simpl.
  - reflexivity.
  - destruct (String.eqb k0 key) eqn:E0; simpl.
    + apply String.eqb_eq in E0; subst k0.
      now destruct (String.eqb key k).
    + rewrite IH. destruct (String.eqb k0 k) eqn:E1; trivial.
      apply String.eqb_eq in E1; subst k0.
      now rewrite String.eqb_sym, E0.
Qed.

Lemma obj_set_fresh (props : list (string * value)) (key : string) (x : value) :
  get props key = None -> obj_set props key x = (props ++ [(key, x)])%list.
Proof.
  induction props as [|[k0 w] rest IH]; simpl; trivial.
  destruct (String.eqb k0 key); try discriminate.
  intros H. now rewrite IH.
Qed.

Lemma get_app_fresh (props : list (string * value)) (key k : string) (x : value) :
  get props k = None -> key <> k -> get (props ++ [(key, x)])%list k = None.
Proof.
  intros H Hne. induction props as [|[k0 w] rest IH]; simpl in *.
  - apply String.eqb_neq in Hne. now rewrite Hne.
  - destruct (String.eqb k0 k); try discriminate. now apply IH.
Qed.


(** The defined values the declared keys returned, in declaration order. *)
Lemma keep_defined_fresh (outs : list (string * outcome value)) :
  forall result,
    NoDup (map fst outs) ->
    (forall k, In k (map fst outs) -> get result k = None) ->
    fold_left keep_defined outs result =
    (result ++
     flat_map (fun out : string * outcome value =>
                 match snd out with
                 | Return x => if is_undefined x then [] else [(fst out, x)]
                 | Raise _ => []
                 end) outs)%list.
Proof.
  induction outs as [|[k0 o0] rest IH]; intros result Hnd Hfresh; simpl.
  - now rewrite app_nil_r.
  - inversion Hnd as [|? ? Hnotin Hnd']; subst.
    assert (Hrest : forall k, In k (map fst rest) -> get result k = None)
      by (intros k Hk; apply Hfresh; now right).
    unfold keep_defined at 2; simpl.
    destruct o0 as [x|t]; simpl.
    + destruct (is_undefined x); simpl.
      * now apply IH.
      * rewrite obj_set_fresh by (apply Hfresh; now left).
        rewrite IH; trivial.
        -- now rewrite <- app_assoc.
        -- intros k Hk. apply get_app_fresh; auto.
           intros ->. now apply Hnotin.
    + now apply IH.
Qed.

End Properties.

Section ObjectLoop.

Context {host : Host}.

(** The key loop reads the input through the declared keys only. *)
Lemma object_loop_ext (shape : list (string * parser)) (o1 o2 : value)
  (path : string) :
  (forall k, In k (map fst shape) -> obj_get o1 k = obj_get o2 k) ->
  forall iss result,
    object_loop shape o1 path iss result = object_loop shape o2 path iss result.
Proof.
  induction shape as [|[key field] rest IH]; intros Hext iss result; simpl.
  - reflexivity.
  - rewrite (Hext key) by now left.
    assert (Hrest : forall k, In k (map fst rest) -> obj_get o1 k = obj_get o2 k)
      by (intros k Hk; apply Hext; now right).
    destruct (field (obj_get o2 key) (field_path path key)) as [x|[err|what]];
      trivial; now apply IH.
Qed.

Lemma object_children_keys (shape : list (string * schema)) (obj : value)
  (path : string) :
  map fst (object_children shape obj path) = map fst shape.
Proof.
  unfold object_children. rewrite map_map.
  apply map_ext. now intros [key field].
Qed.

Lemma finish_return (iss : list ValidationIssue) (result out : value) :
  finish iss result = Return out -> iss = [] /\ out = result.
Proof.
  destruct iss; simpl.
  - now intros [= <-].
  - discriminate.
Qed.

Lemma finish_raise (iss : list ValidationIssue) (result : value)
  (err : ValidationError) :
  finish iss result = Raise (ThrowValidation err) ->
  iss <> [] /\ err = new_ValidationError iss.
Proof.
  destruct iss; simpl.
  - discriminate.
  - unfold throw_issues. intros [= <-]. now split.
Qed.

End ObjectLoop.

(* ------------------------------------------------------------------ *)
(** ** Containers *)

Section Containers.

Context {host : Host}.

Lemma is_undefined_false (x : value) :
  is_undefined x = false <-> x <> VUndefined.
Proof. destruct x; simpl; split; congruence. Qed.

Lemma kept_defined_in (shape : list (string * schema)) (data : value)
  (path k : string) (x : value) :
  In (k, x)
     (flat_map (fun out : string * outcome value =>
                  match snd out with
                  | Return y => if is_undefined y then [] else [(fst out, y)]
                  | Raise _ => []
                  end)
               (object_children shape data path)) <->
  exists field,
    In (k, field) shape /\
    parse field (obj_get data k) (field_path path k) = Return x /\
    x <> VUndefined.
Proof.
  rewrite in_flat_map. unfold object_children. split.
  - intros [[k0 o] [Hin Hk]]. apply in_map_iff in Hin.
    destruct Hin as [[key field] [Heq Hshape]].
    injection Heq as <- <-. simpl in Hk.
    destruct (parse field (obj_get data key) (field_path path key))
      as [y|t] eqn:E; try contradiction.
    destruct (is_undefined y) eqn:U; try contradiction.
    destruct Hk as [[= <- <-]|[]].
    exists field. rewrite E. repeat split; trivial.
    now apply is_undefined_false.
  - intros [field (Hshape & Hparse & Hdef)].
    exists (k, Return x). split.
    + apply in_map_iff. exists (k, field). now rewrite Hparse.
    + simpl. apply is_undefined_false in Hdef. rewrite Hdef. now left.
Qed.

Lemma object_parse_returns (m : option string) (shape : list (string * schema))
  (data : value) (path : string) (out : value) :
  parse (ObjectSchema m shape) data path = Return out ->
  plain_object data = true /\
  out = VObject (fold_left keep_defined (object_children shape data path) []).
Proof.
  simpl. unfold ObjectSchema_parse. rewrite plain_object_guard.
  destruct (plain_object data); simpl; try discriminate.
  rewrite object_loop_spec.
  destruct (interrupted (object_children shape data path)); try discriminate.
  intros H. apply finish_return in H. now destruct H.
Qed.

Lemma assign_fresh (result : list (string * value)) (key : string)
  (x : value) :
  get result key = None -> key <> "__proto__" ->
  forallb (fun k : string => negb (goes_before key k)) (map fst result) = true ->
  obj_assign (VObject result) key x = VObject (result ++ [(key, x)])%list.
Proof.
  intros Hfresh Hne Hlast. unfold obj_assign. rewrite Hfresh.
  unfold from_Object_prototype. apply String.eqb_neq in Hne. rewrite Hne.
  rewrite (@put_last _ _ _ x Hfresh Hlast).
  now destruct (get Object_prototype key).
Qed.

(** The values the observed keys returned, in the order of the input, when
    the keys are in [Object.keys] order and none of them is [__proto__]. *)
Lemma keep_all_fresh (outs : list (string * outcome value)) :
  forall result,
    NoDup (map fst outs) ->
    in_order (map fst result ++ map fst outs) = true ->
    ~ In "__proto__" (map fst outs) ->
    (forall k, In k (map fst outs) -> get result k = None) ->
    fold_left keep_all outs (VObject result) = VObject (result ++ kept outs)%list.
Proof.
  induction outs as [|[k0 o0] rest IH]; intros result Hnd Hord Hno Hfresh.
  - simpl. now rewrite app_nil_r.
  - cbn [map fst] in Hnd, Hord, Hno, Hfresh.
    inversion Hnd as [|? ? Hnotin Hnd']; subst.
    assert (Hrest : forall k, In k (map fst rest) -> get result k = None)
      by (intros k Hk; apply Hfresh; now right).
    assert (Hno' : ~ In "__proto__" (map fst rest))
      by (intros Hin; apply Hno; now right).
    cbn [fold_left]. unfold keep_all at 2. cbn [snd fst].
    destruct o0 as [x|t].
    + rewrite assign_fresh;
        [ | apply Hfresh; now left | intros ->; apply Hno; now left
          | now apply (in_order_app _ _ _ Hord) ].
      rewrite IH; trivial.
      * unfold kept. simpl. now rewrite <- app_assoc.
      * rewrite map_app. cbn [map fst]. now rewrite <- app_assoc.
      * intros k Hk. apply get_app_fresh; auto.
        intros ->. now apply Hnotin.
    + apply IH; trivial. now apply (in_order_app _ _ _ Hord).
Qed.

(** C1 (amended). A container whose input passes its own shape and length
    checks visits every child: array indices in order, declared keys in
    declaration order, observed record keys.  When a child raises an
    exception that is not a [ValidationError], that exception leaves [parse]
    at once.  Otherwise every [ValidationError] of a child is caught and its
    issues are appended: when at least one issue was collected, [parse]
    raises one [ValidationError] that has all of them, in visit order, and
    the message made of their messages; when none was, it returns the
    container rebuilt from the values of the children. *)
Theorem containers_collect_every_child_issue (s : schema) (data : value)
  (path : string) (outs : list (string * outcome value)) :
  visits s data path = Some outs ->
  match interrupted outs with
  | Some t => parse s data path = Raise t
  | None =>
      match collected outs with
      | [] => exists out, parse s data path = Return out /\ holds s outs out
      | _ :: _ =>
          exists err,
            parse s data path = Raise (ThrowValidation err) /\
            issues err = collected outs /\
            error_message err
            = "Validation failed: " ++ join ", " (map message (collected outs))
      end
  end.
Proof.
  intros H. rewrite (container_parse _ _ _ H).
  destruct (interrupted outs); trivial.
  destruct (collected outs) as [|i rest] eqn:E; simpl.
  - exists (rebuilt s outs). split; trivial.
    destruct s; try discriminate; simpl.
    + reflexivity.
    + intros Hnd. now rewrite keep_defined_fresh.
    + intros Hnd Hord Hno. now rewrite keep_all_fresh.
  - eexists. split; [reflexivity|]. now split.
Qed.

(** C4. The value an object schema returns is a new object, built from
    the empty one: it holds exactly the declared keys whose validated value
    is not [undefined], so no undeclared input key and no [undefined] value
    is in it, and it does not depend on the undeclared input keys. *)
Theorem object_output_holds_declared_defined_keys (m : option string)
  (shape : list (string * schema)) (data : value) (path : string)
  (out : value) :
  NoDup (map fst shape) ->
  parse (ObjectSchema m shape) data path = Return out ->
  exists props,
    out = VObject props /\
    (forall k x,
        In (k, x) props <->
        exists field,
          In (k, field) shape /\
          parse field (obj_get data k) (field_path path k) = Return x /\
          x <> VUndefined) /\
    (forall k, In k (map fst props) -> In k (map fst shape)) /\
    (forall k x, In (k, x) props -> x <> VUndefined) /\
    (forall data',
        plain_object data' = true ->
        (forall k, In k (map fst shape) -> obj_get data' k = obj_get data k) ->
        parse (ObjectSchema m shape) data' path = Return out).
Proof.
  intros Hnd Hparse.
  destruct (object_parse_returns _ _ _ _ Hparse) as [Hplain Hout].
  rewrite keep_defined_fresh in Hout;
    [ | now rewrite object_children_keys | reflexivity ].
  simpl in Hout.
  eexists. split; [exact Hout|].
  assert (Hiff := kept_defined_in shape data path).
  split; [exact Hiff|]. split; [|split].
  - intros k Hk. apply in_map_iff in Hk. destruct Hk as [[k0 x] [<- Hin]].
    apply Hiff in Hin. destruct Hin as [field [Hshape _]].
    apply in_map_iff. now exists (k0, field).
  - intros k x Hin. apply Hiff in Hin.
    now destruct Hin as [field (_ & _ & Hdef)].
  - intros data' Hplain' Hext. rewrite <- Hparse. simpl.
    unfold ObjectSchema_parse. rewrite !plain_object_guard, Hplain, Hplain'.
    simpl. apply object_loop_ext.
    intros k Hk. apply Hext.
    rewrite map_map in Hk.
    erewrite map_ext in Hk; [exact Hk|]. now intros [key field].
Qed.


End Containers.

(** The aggregation scenario, [array(number()).parse(["a","b"])]. *)
Lemma containers_collect_every_child_issue_witness :
  visits (v.array v.number) (VArray [VString "a"; VString "b"]) ""
  = Some [("0", Raise (ThrowValidation
                         (mkError "Validation failed: Expected number"
                                  [mkIssue "[0]" "Expected number"])));
          ("1", Raise (ThrowValidation
                         (mkError "Validation failed: Expected number"
                                  [mkIssue "[1]" "Expected number"])))]
  /\
  exists err,
    parse (v.array v.number) (VArray [VString "a"; VString "b"]) ""
    = Raise (ThrowValidation err) /\
    issues err = [mkIssue "[0]" "Expected number";
                  mkIssue "[1]" "Expected number"] /\
    error_message err = "Validation failed: Expected number, Expected number".
Proof.
  split.
  - reflexivity.
  - exact (containers_collect_every_child_issue
             (v.array v.number) (VArray [VString "a"; VString "b"]) ""
             eq_refl).
Defined.

(** The optional-omission scenario: [age] is absent from the output. *)
Lemma object_output_holds_declared_defined_keys_witness :
  NoDup (map fst [("name", v.string); ("age", Schema.optional v.number)]) /\
  parse (v.object [("name", v.string); ("age", Schema.optional v.number)])
        (VObject [("name", VString "a")]) ""
  = Return (VObject [("name", VString "a")]) /\
  exists props,
    VObject [("name", VString "a")] = VObject props /\
    (forall k, In k (map fst props) -> In k ["name"; "age"]) /\
    (forall k x, In (k, x) props -> x <> VUndefined).
Proof.
  assert (Hnd : NoDup (map fst [("name", v.string);
                                ("age", Schema.optional v.number)])).
  { simpl. constructor.
    - intros [H|[]]. discriminate H.
    - constructor; [intros []|constructor]. }
  split; [exact Hnd|]. split; [reflexivity|].
  destruct (object_output_holds_declared_defined_keys
              None [("name", v.string); ("age", Schema.optional v.number)]
              (VObject [("name", VString "a")]) "" Hnd eq_refl)
    as [props (Hout & _ & Hkeys & Hdefined & _)].
  exists props. repeat split; assumption.
Defined.


(* ------------------------------------------------------------------ *)
(** ** Primitives, coercion and unions *)

Section Primitives.

Context {host : Host}.

Lemma string_checks_spec (checks : list StringCheck) (s path : string) :
  string_checks checks s path =
  match find (fun check => string_check_fails check s) checks with
  | Some check => throw_issues [mkIssue path (string_check_message check)]
  | None => Return (VString s)
  end.
Proof.
  induction checks as [|[n|n|x] rest IH];
    cbn [string_checks find string_check_fails string_check_message];
    trivial; rewrite IH.
  - now destruct (num_lt (of_nat (String.length s)) n).
  - now destruct (num_gt (of_nat (String.length s)) n).
  - now destruct (RegExp_test x s).
Qed.

Lemma number_checks_spec (checks : list NumberCheck) (n : number)
  (path : string) :
  number_checks checks n path = number_chain checks n path.
Proof.
  unfold number_chain.
  induction checks as [|[b|b|] rest IH];
    cbn [number_checks find number_check_fails number_check_message];
    trivial; rewrite IH.
  - now destruct (num_lt n b).
  - now destruct (num_gt n b).
  - now destruct (Number_isInteger n).
Qed.

Lemma union_loop_spec (m : option string) (schemas : list schema)
  (data : value) (path : string) :
  union_loop m (map parse schemas) data path =
  match first_success (map (fun member => parse member data path) schemas) with
  | Some x => Return x
  | None => fail m path "Value does not match any type in the union"
  end.
Proof.
  induction schemas as [|member rest IH]; simpl; trivial.
  now destruct (parse member data path).
Qed.

Lemma first_success_none (schemas : list schema) (data : value) (path : string) :
  first_success (map (fun member => parse member data path) schemas) = None <->
  forallb (fun member => is_raise (parse member data path)) schemas = true.
Proof.
  induction schemas as [|member rest IH]; simpl.
  - now split.
  - destruct (parse member data path); simpl; trivial.
    split; discriminate.
Qed.

(** C5 (amended). A string schema rejects every input that is not a string
    with one issue; on a string it runs its checks in attachment order and
    raises the one issue of the first check that fails: [min(n)] fails when
    the length is below [n], [max(n)] when it is above [n], [pattern(re)]
    when [re.test] finds no match, which for a pattern without anchors is a
    match anywhere in the string. *)
Theorem string_schema_is_fail_fast :
  (forall (m : option string) (checks : list StringCheck) (data : value)
          (path : string),
      parse (StringSchema m checks) data path =
      match data with
      | VString s =>
          match find (fun check => string_check_fails check s) checks with
          | Some check =>
              throw_issues [mkIssue path (string_check_message check)]
          | None => Return (VString s)
          end
      | _ => fail m path "Expected string"
      end)
  /\
  parse (Schema.max (of_nat 5) (Schema.min (of_nat 3) v.string))
        (VString "ab") ""
  = throw_issues
      [mkIssue "" ("String must be at least " ++ NumberToString (of_nat 3)
                   ++ " characters")].
Proof.
  split.
  - intros m checks data path; simpl.
    destruct data; simpl; trivial. apply string_checks_spec.
  - reflexivity.
Qed.

(** C6 (amended). A union returns the value of the first member, in
    declaration order, whose [parse] returns, whatever the members before
    it raised; when no member returns it raises one issue at the current
    path, whose message is the custom message of the union when it has one
    and "Value does not match any type in the union" otherwise, and never
    the issues of the members. *)
Theorem union_returns_first_success (m : option string)
  (schemas : list schema) (data : value) (path : string) :
  parse (UnionSchema m schemas) data path =
  match first_success (map (fun member => parse member data path) schemas) with
  | Some x => Return x
  | None =>
      throw_issues
        [mkIssue path
           (or_default m "Value does not match any type in the union")]
  end.
Proof.
  simpl. unfold UnionSchema_parse. apply union_loop_spec.
Qed.

(** C7. A coerced number schema hands a number to the number schema as it
    is; it trims a string, fails on the empty result, converts the rest with
    [Number] and fails on [NaN]; it fails on any other type.  The checks run
    on the converted number. *)
Theorem coerced_number_converts_before_checks (m : option string)
  (checks : list NumberCheck) (path : string) :
  (forall n,
      parse (CoercedNumberSchema m checks) (VNumber n) path
      = parse (NumberSchema m checks) (VNumber n) path) /\
  (forall n,
      Number_isNaN n = false ->
      parse (CoercedNumberSchema m checks) (VNumber n) path
      = number_chain checks n path) /\
  (forall s,
      trim s = "" ->
      parse (CoercedNumberSchema m checks) (VString s) path
      = fail m path "Expected number") /\
  (forall s,
      trim s <> "" -> Number_isNaN (ToNumber (trim s)) = true ->
      parse (CoercedNumberSchema m checks) (VString s) path
      = fail m path "Expected number") /\
  (forall s,
      trim s <> "" -> Number_isNaN (ToNumber (trim s)) = false ->
      parse (CoercedNumberSchema m checks) (VString s) path
      = number_chain checks (ToNumber (trim s)) path) /\
  (forall data,
      typeof data <> TNumber -> typeof data <> TString ->
      parse (CoercedNumberSchema m checks) data path
      = fail m path "Expected number") /\
  parse v.coerce.number (VString "") "" = fail None "" "Expected number" /\
  parse v.coerce.number (VString "  ") "" = fail None "" "Expected number" /\
  (ToNumber "42" = of_nat 42 ->
   parse v.coerce.number (VString "  42  ") "" = Return (VNumber (of_nat 42))).
Proof.
  repeat split.
  - intros n Hn; simpl. rewrite Hn. apply number_checks_spec.
  - intros s Hs; simpl. now rewrite Hs.
  - intros s Hs Hnan; simpl.
    destruct (trim s); [congruence|]. simpl. now rewrite Hnan.
  - intros s Hs Hnan; simpl.
    destruct (trim s) eqn:E; [congruence|]. simpl. rewrite Hnan.
    apply number_checks_spec.
  - intros data Hn Hs.
    destruct data; simpl in Hn, Hs; try congruence; reflexivity.
  - intros H42.
    change (NumberSchema_parse None [] (VNumber (ToNumber "42")) ""
            = Return (VNumber (of_nat 42))).
    now rewrite H42.
Qed.

Lemma union_loop_all_raise (m : option string) (schemas : list schema)
  (data : value) (path : string) :
  forallb (fun member => is_raise (parse member data path)) schemas = true ->
  union_loop m (map parse schemas) data path
  = fail m path "Value does not match any type in the union".
Proof.
  intros H. rewrite union_loop_spec.
  apply first_success_none in H. now rewrite H.
Qed.

Lemma union_loop_some_return (m m' : option string) (schemas : list schema)
  (data : value) (path : string) :
  forallb (fun member => is_raise (parse member data path)) schemas = false ->
  union_loop m (map parse schemas) data path
  = union_loop m' (map parse schemas) data path.
Proof.
  intros H. rewrite !union_loop_spec.
  destruct (first_success (map (fun member => parse member data path) schemas))
    eqn:E; trivial.
  apply first_success_none in E. congruence.
Qed.

Lemma coerced_boolean_words (lower : string) :
  includes ["true"; "1"; "false"; "0"; ""] lower =
  (String.eqb lower "true" || String.eqb lower "1")
  || (String.eqb lower "false" || String.eqb lower "0" || String.eqb lower "").
Proof.
  unfold includes; simpl.
  destruct (String.eqb lower "true"), (String.eqb lower "1"),
    (String.eqb lower "false"), (String.eqb lower "0"), (String.eqb lower "");
    reflexivity.
Qed.

(** [parse] of a schema with a message, by the way [parse] of the schema
    ends. *)
Lemma message_takes_the_place_of_fail (s : schema) (msg : string)
  (data : value) (path : string) :
  parse (Schema.message msg s) data path =
  match primary_failure s data path with
  | Some _ => throw_issues [mkIssue path msg]
  | None => parse s data path
  end
  /\
  match primary_failure s data path with
  | Some defaultMessage =>
      parse s data path = fail (customMessage_of s) path defaultMessage
  | None => True
  end.
Proof.
  destruct s; cbn [Schema.message parse primary_failure customMessage_of].
  - destruct data; simpl; now split.
  - unfold NumberSchema_parse, number_type_failure.
    destruct data; simpl; try now split. by_cases.
  - destruct data; simpl; now split.
  - destruct data; simpl; now split.
  - unfold CoercedNumberSchema_parse, NumberSchema_parse, number_type_failure.
    destruct data; try now split.
    + by_cases.
    + cbv zeta. by_cases.
  - unfold CoercedBooleanSchema_parse.
    destruct data; try (simpl; now split).
    rewrite coerced_boolean_words. cbv zeta.
    destruct (String.eqb (toLowerCase s) "true"),
      (String.eqb (toLowerCase s) "1"), (String.eqb (toLowerCase s) "false"),
      (String.eqb (toLowerCase s) "0"), (String.eqb (toLowerCase s) "");
      simpl; now split.
  - destruct data; simpl; now split.
  - unfold ObjectSchema_parse. rewrite plain_object_guard.
    destruct (plain_object data); simpl; now split.
  - unfold EnumSchema_parse. destruct data; try (simpl; now split). by_cases.
  - unfold LiteralSchema_parse.
    match goal with
    | |- context [strict_eq ?d ?l] => destruct (strict_eq d l)
    end; simpl; now split.
  - unfold UnionSchema_parse.
    destruct (forallb (fun member => is_raise (parse member data path)) schemas)
      eqn:E.
    + rewrite !union_loop_all_raise by exact E. now split.
    + split; trivial. now apply union_loop_some_return.
  - unfold RecordSchema_parse. rewrite plain_object_guard.
    destruct (plain_object data); simpl; now split.
  - unfold DateSchema_parse. destruct data; try (simpl; now split).
    cbv zeta. by_cases.
  - now split.
  - now split.
  - now split.
Qed.

(** C9 (amended). A custom message takes the place of the default message
    of every failure that the schema raises through [this.fail]: the wrong
    type or shape of the input, and also a failed coercion, a string outside
    an enum, a value other than the literal, an invalid date and a union
    without a matching member.  In those cases [parse] raises the one issue
    with the custom message; in all others, which are the failed checks and
    the failures of children, its outcome is that of the schema without the
    message. *)
Theorem custom_message_replaces_own_failure_only :
  (forall (s : schema) (msg : string) (data : value) (path : string),
      match primary_failure s data path with
      | Some defaultMessage =>
          parse s data path
          = Raise (ThrowValidation
                     (mkError
                        ("Validation failed: "
                         ++ or_default (customMessage_of s) defaultMessage)
                        [mkIssue path
                           (or_default (customMessage_of s) defaultMessage)]))
          /\
          parse (Schema.message msg s) data path
          = Raise (ThrowValidation
                     (mkError ("Validation failed: " ++ msg)
                              [mkIssue path msg]))
      | None => parse (Schema.message msg s) data path = parse s data path
      end)
  /\
  parse (Schema.message "Name is required" (Schema.min (of_nat 3) v.string))
        (VString "ab") ""
  = Raise (ThrowValidation
             (mkError
                ("Validation failed: String must be at least "
                 ++ NumberToString (of_nat 3) ++ " characters")
                [mkIssue "" ("String must be at least "
                             ++ NumberToString (of_nat 3) ++ " characters")]))
  /\
  parse (Schema.message "Names wanted" (v.array v.string))
        (VArray [VNumber (of_nat 1)]) ""
  = Raise (ThrowValidation
             (mkError "Validation failed: Expected string"
                      [mkIssue "[0]" "Expected string"])).
Proof.
  split; [|split; reflexivity].
  intros s msg data path.
  destruct (message_takes_the_place_of_fail s msg data path) as [Hmsg Hown].
  destruct (primary_failure s data path) as [defaultMessage|].
  - rewrite Hmsg, Hown. split; reflexivity.
  - exact Hmsg.
Qed.

End Primitives.

(** The coercion boundary, [coerce.number().parse("  42  ")]. *)
Lemma coerced_number_converts_before_checks_witness :
  ToNumber "42" = of_nat 42 /\
  parse v.coerce.number (VString "  42  ") "" = Return (VNumber (of_nat 42)).
Proof.
  split; [reflexivity|].
  destruct (coerced_number_converts_before_checks None [] "")
    as (_ & _ & _ & _ & _ & _ & _ & _ & H42).
  exact (H42 eq_refl).
Defined.

(* ------------------------------------------------------------------ *)
(** ** Paths of the raised issues *)

Section Paths.

Lemma prefix_refl (p : string) : String.prefix p p = true.
Proof.
  induction p as [|c p IH]; simpl; trivial.
  now destruct (ascii_dec c c).
Qed.

Lemma prefix_append (p rest : string) : String.prefix p (p ++ rest) = true.
Proof.
  induction p as [|c p IH]; simpl.
  - now destruct rest.
  - now destruct (ascii_dec c c).
Qed.

Lemma prefix_trans (p q r : string) :
  String.prefix p q = true -> String.prefix q r = true ->
  String.prefix p r = true.
Proof.
  revert q r. induction p as [|c p IH]; intros q r Hpq Hqr.
  - now destruct r.
  - destruct q as [|d q]; simpl in Hpq; try discriminate.
    destruct r as [|e r]; simpl in Hqr; try discriminate.
    simpl. destruct (ascii_dec c d) as [->|]; try discriminate.
    destruct (ascii_dec d e) as [->|]; try discriminate.
    destruct (ascii_dec e e); try congruence. now apply (IH q r).
Qed.

Lemma index_path_prefix (p : string) (i : nat) :
  String.prefix p (index_path p i) = true.
Proof.
  unfold index_path. destruct p; simpl negb; cbv iota.
  - reflexivity.
  - apply prefix_append.
Qed.

Lemma field_path_prefix (p key : string) :
  String.prefix p (field_path p key) = true.
Proof.
  unfold field_path. destruct p; simpl negb; cbv iota.
  - now destruct key.
  - apply prefix_append.
Qed.

End Paths.

Section Anchoring.

Context {host : Host}.

Lemma anchored_single (p msg : string) :
  anchored_at p (new_ValidationError [mkIssue p msg]).
Proof.
  repeat split; simpl; try discriminate.
  intros i [<-|[]]. apply prefix_refl.
Qed.

Lemma anchors_single (A : Type) (p msg : string) :
  anchors p (throw_issues (A := A) [mkIssue p msg]).
Proof.
  intros err [= <-]. apply anchored_single.
Qed.

Lemma anchors_fail (A : Type) (m : option string) (p d : string) :
  anchors p (fail (A := A) m p d).
Proof. apply anchors_single. Qed.

Lemma anchors_return (A : Type) (p : string) (x : A) : anchors p (Return x).
Proof. intros err; discriminate. Qed.

Lemma anchors_string_checks (checks : list StringCheck) (s p : string) :
  anchors p (string_checks checks s p).
Proof.
  rewrite string_checks_spec.
  destruct (find (fun check => string_check_fails check s) checks).
  - apply anchors_single.
  - apply anchors_return.
Qed.

Lemma anchors_number_checks (checks : list NumberCheck) (n : number)
  (p : string) :
  anchors p (number_checks checks n p).
Proof.
  rewrite number_checks_spec. unfold number_chain.
  destruct (find (fun check => number_check_fails check n) checks).
  - apply anchors_single.
  - apply anchors_return.
Qed.

Lemma anchors_date_checks (checks : list DateCheck) (t : number) (p : string) :
  anchors p (date_checks checks t p).
Proof.
  induction checks as [|[b|b] rest IH]; cbn [date_checks].
  - apply anchors_return.
  - destruct (num_lt t b); [apply anchors_single | exact IH].
  - destruct (num_gt t b); [apply anchors_single | exact IH].
Qed.

Lemma anchors_array_checks (checks : list ArrayCheck) (n : nat) (p : string) :
  anchors p (array_checks checks n p).
Proof.
  induction checks as [|[b|b] rest IH]; cbn [array_checks].
  - apply anchors_return.
  - destruct (num_lt (of_nat n) b); [apply anchors_single | exact IH].
  - destruct (num_gt (of_nat n) b); [apply anchors_single | exact IH].
Qed.

Lemma anchors_number_parse (m : option string) (checks : list NumberCheck)
  (data : value) (p : string) :
  anchors p (NumberSchema_parse m checks data p).
Proof.
  unfold NumberSchema_parse.
  destruct data; try apply anchors_fail.
  destruct (Number_isNaN n);
    [apply anchors_fail | apply anchors_number_checks].
Qed.

Lemma anchors_string_parse (m : option string) (checks : list StringCheck)
  (data : value) (p : string) :
  anchors p (StringSchema_parse m checks data p).
Proof.
  unfold StringSchema_parse.
  destruct data; try apply anchors_fail. apply anchors_string_checks.
Qed.

Lemma anchors_leaf (s : schema) :
  leaf s -> forall data p, anchors p (parse s data p).
Proof.
  intros Hleaf data p. destruct s; try contradiction; cbn [parse].
  - apply anchors_string_parse.
  - apply anchors_number_parse.
  - destruct data; try apply anchors_fail. apply anchors_return.
  - unfold CoercedStringSchema_parse.
    destruct data; apply anchors_string_parse.
  - unfold CoercedNumberSchema_parse.
    destruct data; try apply anchors_number_parse.
    cbv zeta. destruct (is_empty (trim s));
      [apply anchors_fail | apply anchors_number_parse].
  - unfold CoercedBooleanSchema_parse, BooleanSchema_parse.
    destruct data; try apply anchors_fail; try apply anchors_return.
    cbv zeta.
    repeat match goal with
           | |- context [if ?b then _ else _] => destruct b
           end;
      try apply anchors_fail; apply anchors_return.
  - unfold EnumSchema_parse.
    destruct data; try apply anchors_fail.
    destruct (includes values s); [apply anchors_return | apply anchors_fail].
  - unfold LiteralSchema_parse.
    match goal with
    | |- context [strict_eq ?d ?l] => destruct (strict_eq d l)
    end; [apply anchors_return | apply anchors_fail].
  - unfold DateSchema_parse.
    destruct data; try apply anchors_fail.
    cbv zeta. destruct (Number_isNaN (DateParse s));
      [apply anchors_fail | apply anchors_date_checks].
Qed.

Lemma interrupted_is_other (outs : list (string * outcome value)) (t : thrown) :
  interrupted outs = Some t -> exists what, t = ThrowOther what.
Proof.
  induction outs as [|[k [x|[err|what]]] rest IH]; simpl; try discriminate;
    trivial.
  intros [= <-]. now exists what.
Qed.

(** The loop of a container is anchored where its children are anchored
    below it. *)
Lemma anchors_container (s : schema) (data : value) (p : string)
  (outs : list (string * outcome value)) :
  visits s data p = Some outs ->
  (forall k o, In (k, o) outs ->
     exists q, String.prefix p q = true /\ anchors q o) ->
  anchors p (parse s data p).
Proof.
  intros Hvisits Hchildren err Hraise.
  rewrite (container_parse _ _ _ Hvisits) in Hraise.
  destruct (interrupted outs) as [t|] eqn:E.
  - apply interrupted_is_other in E. destruct E as [what ->]. discriminate.
  - apply finish_raise in Hraise. destruct Hraise as [Hne ->].
    repeat split; trivial. simpl.
    intros i Hi. unfold collected in Hi. apply in_flat_map in Hi.
    destruct Hi as [[k o] [Hin Hissue]]. simpl in Hissue.
    destruct o as [x|[e|what]]; try contradiction.
    destruct (Hchildren k _ Hin) as [q [Hpq Hq]].
    apply prefix_trans with q; trivial.
    now apply (Hq e eq_refl).
Qed.

Lemma array_children_in (item : schema) (p : string) (items : list value) :
  forall i k o,
    In (k, o) (array_children item p items i) ->
    exists d j, o = parse item d (index_path p j).
Proof.
  induction items as [|d rest IH]; intros i k o; simpl; [contradiction|].
  intros [[= _ <-]|Hin].
  - now exists d, i.
  - now apply (IH (S i) k).
Qed.

Lemma transforms_of_field (m : option string) (shape : list (string * schema))
  (key : string) (field : schema) :
  In (key, field) shape ->
  transforms_raise_no_ValidationError (ObjectSchema m shape) ->
  transforms_raise_no_ValidationError field.
Proof.
  intros Hin Hplain fn Hfn. apply Hplain. simpl.
  apply in_flat_map. now exists (key, field).
Qed.

Lemma anchors_everywhere (s : schema) :
  transforms_raise_no_ValidationError s ->
  forall data p, anchors p (parse s data p).
Proof.
  induction s as [s Hleaf | m checks item IH | m shape IH | m schemas _
                 | m inner IH | m inner IH | m inner IH | m inner fn IH]
    using schema_tree_ind; intros Hplain data p.
  - now apply anchors_leaf.
  - destruct data; try (cbn; apply anchors_fail).
    destruct (array_checks checks (List.length items) p) as [[]|t] eqn:E.
    + apply anchors_container with (outs := array_children item p items 0).
      * simpl. now rewrite E.
      * intros k o Hin. apply array_children_in in Hin.
        destruct Hin as (d & j & ->).
        exists (index_path p j). split; [apply index_path_prefix|].
        now apply IH.
    + cbn. unfold ArraySchema_parse. rewrite E. simpl.
      intros err [= ->].
      exact (anchors_array_checks checks (List.length items) p E).
  - destruct (plain_object data) eqn:E.
    + apply anchors_container with (outs := object_children shape data p).
      * simpl. now rewrite E.
      * intros k o Hin. unfold object_children in Hin.
        apply in_map_iff in Hin. destruct Hin as [[key field] [[= <- <-] Hin]].
        exists (field_path p key). split; [apply field_path_prefix|].
        rewrite Forall_forall in IH. apply (IH (key, field) Hin).
        eapply transforms_of_field; eassumption.
    + cbn. unfold ObjectSchema_parse. rewrite plain_object_guard, E.
      apply anchors_fail.
  - cbn [parse]. unfold UnionSchema_parse. rewrite union_loop_spec.
    destruct (first_success _); [apply anchors_return | apply anchors_fail].
  - destruct (plain_object data) eqn:E.
    + apply anchors_container
        with (outs := record_children inner (Object_entries data) p).
      * simpl. now rewrite E.
      * intros k o Hin. unfold record_children in Hin.
        apply in_map_iff in Hin. destruct Hin as [[key val] [[= <- <-] Hin]].
        exists (field_path p key). split; [apply field_path_prefix|].
        now apply IH.
    + cbn. unfold RecordSchema_parse. rewrite plain_object_guard, E.
      apply anchors_fail.
  - cbn [parse]. unfold OptionalSchema_parse.
    destruct data; try (now apply IH). apply anchors_return.
  - cbn [parse]. unfold NullableSchema_parse.
    destruct data; try (now apply IH). apply anchors_return.
  - cbn [parse]. unfold TransformSchema_parse, bind.
    assert (Hinner : transforms_raise_no_ValidationError inner)
      by (intros g Hg; apply Hplain; now right).
    destruct (parse inner data p) as [x|t] eqn:E.
    + intros err Herr. exfalso.
      apply (Hplain fn (or_introl eq_refl) x err Herr).
    + intros err [= ->]. now apply (IH Hinner data p).
Qed.

(** C8 (amended). In a schema none of whose transform functions raises a
    [ValidationError] of its own, every [ValidationError] that
    [parse(input, p)] raises has at least one issue, [p] is a prefix of the
    path of each issue, and its message is "Validation failed: " followed
    by the messages of the issues joined by ", ". *)
Theorem raised_errors_are_anchored (s : schema) (data : value) (p : string)
  (err : ValidationError) :
  transforms_raise_no_ValidationError s ->
  parse s data p = Raise (ThrowValidation err) ->
  issues err <> [] /\
  (forall i, In i (issues err) -> String.prefix p (path i) = true) /\
  error_message err
  = "Validation failed: " ++ join ", " (map message (issues err)).
Proof.
  intros Hplain Hraise. exact (anchors_everywhere Hplain data p Hraise).
Qed.

End Anchoring.

(** A nested failure under the path argument ["body"]. *)
Lemma raised_errors_are_anchored_witness :
  transforms_raise_no_ValidationError
    (v.object [("tags", v.array v.string)]) /\
  parse (v.object [("tags", v.array v.string)])
        (VObject [("tags", VArray [VString "a"; VNull])]) "body"
  = throw_issues [mkIssue "body.tags[1]" "Expected string"] /\
  String.prefix "body" "body.tags[1]" = true.
Proof.
  assert (Hplain : transforms_raise_no_ValidationError
                     (v.object [("tags", v.array v.string)]))
    by (intros fn []).
  split; [exact Hplain|]. split; [reflexivity|].
  destruct (@raised_errors_are_anchored decimal_host
              (v.object [("tags", v.array v.string)])
              (VObject [("tags", VArray [VString "a"; VNull])]) "body" _
              Hplain eq_refl) as (_ & Hpaths & _).
  apply (Hpaths (mkIssue "body.tags[1]" "Expected string")). now left.
Defined.

(* ------------------------------------------------------------------ *)
(** ** Where the code departs from the specification *)

(** C5, as stated, fails: the pattern [/a/] accepts ["bab"], which is not
    a word of the pattern. *)
Lemma pattern_accepts_partial_match :
  parse (Schema.pattern (mkRegExp "a" false (RChar "a"%char) false) v.string)
        (VString "bab") ""
  = Return (VString "bab")
  /\ full_match (RChar "a"%char) "bab" = false.
Proof. split; reflexivity. Qed.

(** C6, as stated, fails: a union with a custom message raises that
    message, not the generic one. *)
Lemma union_raises_custom_message :
  parse (Schema.message "Pick a string or a number"
           (v.union [v.string; v.number]))
        (VBoolean true) ""
  = throw_issues [mkIssue "" "Pick a string or a number"]
  /\
  parse (Schema.message "Pick a string or a number"
           (v.union [v.string; v.number]))
        (VBoolean true) ""
  <> throw_issues [mkIssue "" "Value does not match any type in the union"].
Proof. split; [reflexivity | discriminate]. Qed.

(** C8, as stated, fails: a [ValidationError] raised by a transform
    function leaves [parse] as it is, here with no issue at all, and with a
    path that does not extend the path of the call. *)
Lemma transform_error_is_not_anchored :
  parse (Schema.transform
           (fun _ => Raise (ThrowValidation (new_ValidationError [])))
           v.string)
        (VString "x") "user"
  = Raise (ThrowValidation (new_ValidationError []))
  /\ issues (new_ValidationError []) = []
  /\
  parse (Schema.transform
           (fun _ => throw_issues [mkIssue "" "Name is taken"])
           v.string)
        (VString "x") "user"
  = throw_issues [mkIssue "" "Name is taken"]
  /\ String.prefix "user" "" = false.
Proof. repeat split. Qed.

(** C1, as stated, fails: the array has an item that raises an issue and
    one whose transform function throws; the exception of the second leaves
    [parse], the issue collected for the first is dropped, and the third
    item is not reached. *)
Lemma foreign_exception_drops_collected_issues :
  visits (v.array (Schema.transform (fun _ => Raise (ThrowOther "boom"))
                     v.string))
         (VArray [VNumber (of_nat 1); VString "a"; VNumber (of_nat 2)]) ""
  = Some [("0", Raise (ThrowValidation
                         (mkError "Validation failed: Expected string"
                                  [mkIssue "[0]" "Expected string"])));
          ("1", Raise (ThrowOther "boom"));
          ("2", Raise (ThrowValidation
                         (mkError "Validation failed: Expected string"
                                  [mkIssue "[2]" "Expected string"])))]
  /\
  parse (v.array (Schema.transform (fun _ => Raise (ThrowOther "boom"))
                    v.string))
        (VArray [VNumber (of_nat 1); VString "a"; VNumber (of_nat 2)]) ""
  = Raise (ThrowOther "boom").
Proof. split; reflexivity. Qed.

(** C9, as stated, fails: membership in an enum is a constraint of the
    specification, yet the custom message replaces its message; so it does
    for a string that does not convert to a number. *)
Lemma enum_failure_takes_the_custom_message :
  parse (v.enum ["a"; "b"]) (VString "c") ""
  = Raise (ThrowValidation
             (mkError "Validation failed: Expected one of: a, b"
                      [mkIssue "" "Expected one of: a, b"]))
  /\
  parse (Schema.message "Pick a or b" (v.enum ["a"; "b"])) (VString "c") ""
  = Raise (ThrowValidation
             (mkError "Validation failed: Pick a or b"
                      [mkIssue "" "Pick a or b"]))
  /\
  parse (Schema.message "Give a number" v.coerce.number) (VString "abc") ""
  = Raise (ThrowValidation
             (mkError "Validation failed: Give a number"
                      [mkIssue "" "Give a number"])).
Proof. repeat split. Qed.


Section Departures.

Context {host : Host}.

(** C2 holds of every class but the union.  An exception of a transform
    function that is not a [ValidationError] leaves the transform schema and
    an array around it as it is, but a union around it catches it, and goes
    on to the next member or to its own issue. *)
Theorem union_swallows_other_exceptions :
  parse (Schema.transform (fun _ => Raise (ThrowOther "boom")) v.string)
        (VString "a") ""
  = Raise (ThrowOther "boom")
  /\
  parse (v.array
           (Schema.transform (fun _ => Raise (ThrowOther "boom")) v.string))
        (VArray [VString "a"]) ""
  = Raise (ThrowOther "boom")
  /\
  parse (v.union
           [Schema.transform (fun _ => Raise (ThrowOther "boom")) v.string;
            v.number])
        (VString "a") ""
  = throw_issues [mkIssue "" "Value does not match any type in the union"]
  /\
  parse (v.union
           [Schema.transform (fun _ => Raise (ThrowOther "boom")) v.string;
            v.string])
        (VString "a") ""
  = Return (VString "a").
Proof. repeat split. Qed.

(** C3 fails in the exporter for an [Optional] below another wrapper: the
    field [string().optional().nullable()] is listed as required, although
    [parse] accepts an input without the key; with the wrappers in the other
    order it is not listed. *)
Theorem nested_optional_is_listed_required :
  required_of
    (toJsonSchema
       (v.object [("nick", Schema.nullable (Schema.optional v.string))]))
  = [VString "nick"]
  /\
  parse (v.object [("nick", Schema.nullable (Schema.optional v.string))])
        (VObject []) ""
  = Return (VObject [])
  /\
  required_of
    (toJsonSchema
       (v.object [("nick", Schema.optional (Schema.nullable v.string))]))
  = [].
Proof. repeat split. Qed.

(** What the exporter lists: the declared keys whose field schema is not
    itself an instance of [OptionalSchema]. *)
Lemma object_document_loop_required (entries : list (string * (value * bool))) :
  forall properties required,
    snd (object_document_loop entries properties required) =
    (required ++
     map fst (filter (fun entry : string * (value * bool) =>
                        negb (snd (snd entry))) entries))%list.
Proof.
  induction entries as [|[key [document isOptional]] rest IH];
    intros properties required; simpl.
  - now rewrite app_nil_r.
  - rewrite IH. destruct isOptional; simpl; trivial.
    now rewrite <- app_assoc.
Qed.

Lemma exporter_lists_outermost_optional (m : option string)
  (shape : list (string * schema)) :
  required_of (toJsonSchema (ObjectSchema m shape)) =
  map VString
      (map fst (filter (fun entry : string * schema =>
                          negb (instanceof_OptionalSchema (snd entry))) shape)).
Proof.
  cbn [toJsonSchema]. unfold ObjectSchema_toJsonSchema.
  pose proof (object_document_loop_required
                (map (fun entry : string * schema =>
                        let (key, fieldSchema) := entry in
                        (key, (toJsonSchema fieldSchema,
                               instanceof_OptionalSchema fieldSchema))) shape)
                [] []) as Hreq.
  destruct (object_document_loop _ [] []) as [properties required].
  simpl in Hreq. subst required.
  assert (Hkeys :
            map fst
              (filter (fun entry : string * (value * bool) =>
                         negb (snd (snd entry)))
                 (map (fun entry : string * schema =>
                         let (key, fieldSchema) := entry in
                         (key, (toJsonSchema fieldSchema,
                                instanceof_OptionalSchema fieldSchema))) shape))
            = map fst (filter (fun entry : string * schema =>
                                 negb (instanceof_OptionalSchema (snd entry)))
                         shape)).
  { clear. induction shape as [|[key fieldSchema] rest IH]; simpl; trivial.
    destruct (instanceof_OptionalSchema fieldSchema); simpl; now rewrite IH. }
  rewrite Hkeys. clear Hkeys.
  destruct (map fst (filter _ shape)) as [|key keys]; reflexivity.
Qed.

(** The scenarios of the specification and of the tests. *)
Example aggregation :
  parse (v.array v.number) (VArray [VString "a"; VString "b"]) ""
  = throw_issues [mkIssue "[0]" "Expected number";
                  mkIssue "[1]" "Expected number"].
Proof. reflexivity. Qed.

Example anchored_pattern :
  let digits :=
    mkRegExp "^\d+$" true
      (RSeq (RRange "0"%char "9"%char) (RStar (RRange "0"%char "9"%char)))
      true in
  (parse (Schema.pattern digits v.string) (VString "123") ""
   = Return (VString "123"))
  /\
  (parse (Schema.pattern digits v.string) (VString "abc") ""
   = throw_issues [mkIssue "" "String must match pattern /^\d+$/"])
  /\
  (parse (Schema.pattern digits v.string) (VString "a1") ""
   = throw_issues [mkIssue "" "String must match pattern /^\d+$/"]).
Proof. repeat split. Qed.

Example nested_path_composition :
  parse (v.object [("address", v.object [("city", v.string)])])
        (VObject [("address", VObject [("city", VNumber (of_nat 123))])]) ""
  = throw_issues [mkIssue "address.city" "Expected string"].
Proof. reflexivity. Qed.

Example unknown_key_stripping :
  parse (v.object [("name", v.string)])
        (VObject [("name", VString "a"); ("extra", VBoolean true)]) ""
  = Return (VObject [("name", VString "a")]).
Proof. reflexivity. Qed.

Example optional_omission :
  parse (v.object [("name", v.string); ("age", Schema.optional v.number)])
        (VObject [("name", VString "a")]) ""
  = Return (VObject [("name", VString "a")]).
Proof. reflexivity. Qed.

Example union_short_circuit :
  parse (v.union [v.string; v.number]) (VNumber (of_nat 42)) ""
  = Return (VNumber (of_nat 42))
  /\
  parse (v.union [v.string; v.number]) (VBoolean true) ""
  = throw_issues [mkIssue "" "Value does not match any type in the union"].
Proof. split; reflexivity. Qed.

Example end_to_end :
  parse (v.object [("name", Schema.min (of_nat 1) v.string);
                   ("age", Schema.optional v.number)])
        (VObject [("name", VNumber (of_nat 123)); ("age", VString "x")]) ""
  = throw_issues [mkIssue "name" "Expected string";
                  mkIssue "age" "Expected number"].
Proof. reflexivity. Qed.

End Departures.

(* ------------------------------------------------------------------ *)
(** ** Further properties of the schemas *)

Section Acceptance.

Context {host : Host}.

Lemma find_none_forallb (A : Type) (f : A -> bool) (l : list A) :
  find f l = None <-> forallb (fun a => negb (f a)) l = true.
Proof.
  induction l as [|a l IH]; simpl.
  - now split.
  - destruct (f a); simpl.
    + split; discriminate.
    + exact IH.
Qed.

(** A number schema returns exactly on the numbers other than [NaN] that
    pass every attached check, and returns the number itself; the order of
    attachment decides the issue that is reported, never the acceptance. *)
Theorem number_schema_accepts_iff (m : option string)
  (checks : list NumberCheck) (data : value) (p : string) (x : value) :
  parse (NumberSchema m checks) data p = Return x <->
  exists n,
    data = VNumber n /\
    Number_isNaN n = false /\
    forallb (fun check => negb (number_check_fails check n)) checks = true /\
    x = VNumber n.
Proof.
  cbn [parse]. unfold NumberSchema_parse. split.
  - destruct data; try discriminate.
    destruct (Number_isNaN n) eqn:E; try discriminate.
    rewrite number_checks_spec. unfold number_chain.
    destruct (find (fun check => number_check_fails check n) checks) eqn:F;
      try discriminate.
    intros [= <-]. exists n. repeat split; trivial.
    now apply find_none_forallb.
  - intros (n & -> & Hnan & Hall & ->). rewrite Hnan.
    rewrite number_checks_spec. unfold number_chain.
    apply find_none_forallb in Hall. now rewrite Hall.
Qed.

(** A string schema returns exactly on the strings that pass every
    attached check, and returns the string itself. *)
Theorem string_schema_accepts_iff (m : option string)
  (checks : list StringCheck) (data : value) (p : string) (x : value) :
  parse (StringSchema m checks) data p = Return x <->
  exists s,
    data = VString s /\
    forallb (fun check => negb (string_check_fails check s)) checks = true /\
    x = VString s.
Proof.
  cbn [parse]. unfold StringSchema_parse. split.
  - destruct data; try discriminate.
    rewrite string_checks_spec.
    destruct (find (fun check => string_check_fails check s) checks) eqn:F;
      try discriminate.
    intros [= <-]. exists s. repeat split; trivial.
    now apply find_none_forallb.
  - intros (s & -> & Hall & ->).
    rewrite string_checks_spec.
    apply find_none_forallb in Hall. now rewrite Hall.
Qed.

Lemma array_checks_raise (checks : list ArrayCheck) (n : nat) (p : string)
  (t : thrown) :
  array_checks checks n p = Raise t ->
  exists msg, t = ThrowValidation (new_ValidationError [mkIssue p msg]).
Proof.
  induction checks as [|[b|b] rest IH]; cbn [array_checks].
  - discriminate.
  - destruct (num_lt (of_nat n) b); trivial.
    intros [= <-]. now eexists.
  - destruct (num_gt (of_nat n) b); trivial.
    intros [= <-]. now eexists.
Qed.

(** A failed length check ends [ArraySchema.parse] before any item is
    visited: the outcome is the one length issue at the path of the array,
    the same for every item schema and for every array of that length. *)
Theorem array_length_failure_precedes_items (m : option string)
  (checks : list ArrayCheck) (item item' : schema) (items items' : list value)
  (p : string) (t : thrown) :
  array_checks checks (List.length items) p = Raise t ->
  List.length items' = List.length items ->
  parse (ArraySchema m checks item) (VArray items) p = Raise t /\
  parse (ArraySchema m checks item') (VArray items') p = Raise t /\
  exists msg, t = ThrowValidation (new_ValidationError [mkIssue p msg]).
Proof.
  intros H Hlen. repeat split.
  - cbn [parse]. unfold ArraySchema_parse. now rewrite H.
  - cbn [parse]. unfold ArraySchema_parse. now rewrite Hlen, H.
  - now apply array_checks_raise in H.
Qed.

Lemma faithful_fail (m : option string) (p msg : string) (d : value) :
  faithful (fail m p msg) d.
Proof. simpl. discriminate. Qed.

Lemma faithful_children (item : schema) (p : string) (items : list value) :
  (forall d q, faithful (parse item d q) d) ->
  forall i,
    interrupted (array_children item p items i) = None /\
    (collected (array_children item p items i) = [] ->
     returned (array_children item p items i) = items).
Proof.
  intros Hitem. induction items as [|d rest IH]; intros i; simpl.
  - now split.
  - specialize (Hitem d (index_path p i)). specialize (IH (S i)).
    destruct IH as [IHi IHr].
    destruct (parse item d (index_path p i)) as [x|[err|what]];
      simpl in Hitem.
    + subst x. split; trivial.
      unfold collected, returned in *; simpl. intros H. now rewrite IHr.
    + split; trivial. unfold collected; simpl. intros H.
      apply app_eq_nil in H. now destruct H.
    + contradiction.
Qed.

Lemma preserving_is_faithful (s : schema) :
  preserving s = true -> forall d p, faithful (parse s d p) d.
Proof.
  induction s as [s Hleaf | m checks item IH | m shape _ | m schemas IH
                 | m inner _ | m inner IH | m inner IH | m inner fn _]
    using schema_tree_ind; intros Hp d p; try discriminate.
  - destruct s; try discriminate; try contradiction; cbn [parse].
    + unfold StringSchema_parse. destruct d; try apply faithful_fail.
      rewrite string_checks_spec.
      now destruct (find (fun check => string_check_fails check s) checks).
    + unfold NumberSchema_parse. destruct d; try apply faithful_fail.
      destruct (Number_isNaN n); try apply faithful_fail.
      rewrite number_checks_spec. unfold number_chain.
      now destruct (find (fun check => number_check_fails check n) checks).
    + destruct d; try apply faithful_fail. reflexivity.
    + unfold EnumSchema_parse. destruct d; try apply faithful_fail.
      destruct (includes values s); [reflexivity | apply faithful_fail].
    + unfold LiteralSchema_parse.
      match goal with
      | |- context [strict_eq ?a ?l] => destruct (strict_eq a l)
      end; [reflexivity | apply faithful_fail].
  - cbn [parse]. unfold ArraySchema_parse.
    destruct d; try apply faithful_fail.
    destruct (array_checks checks (List.length items) p) as [[]|t] eqn:E.
    + cbn [bind]. rewrite array_loop_spec.
      destruct (faithful_children item p items (IH Hp) 0) as [Hi Hr].
      rewrite Hi. rewrite !app_nil_l.
      destruct (collected (array_children item p items 0)) eqn:C; simpl.
      * now rewrite Hr.
      * discriminate.
    + cbn [bind]. apply array_checks_raise in E. destruct E as [msg ->].
      simpl. discriminate.
  - cbn [parse]. unfold UnionSchema_parse.
    simpl in Hp. rewrite forallb_forall in Hp. rewrite Forall_forall in IH.
    induction schemas as [|member rest IHrest]; simpl.
    + discriminate.
    + assert (Hm := IH member (or_introl eq_refl)
                       (Hp member (or_introl eq_refl)) d p).
      destruct (parse member d p) as [x|t]; trivial.
      apply IHrest.
      * intros y Hy. apply IH. now right.
      * intros y Hy. apply Hp. now right.
  - cbn [parse]. unfold OptionalSchema_parse.
    destruct d; try (now apply IH). reflexivity.
  - cbn [parse]. unfold NullableSchema_parse.
    destruct d; try (now apply IH). reflexivity.
Qed.

(** A schema built from string, number, boolean, enum and literal schemas
    with arrays, unions, [optional] and [nullable] never alters what it
    accepts: when [parse] returns, it returns the input. *)
Theorem preserving_schema_returns_input (s : schema) (d : value) (p : string)
  (x : value) :
  preserving s = true -> parse s d p = Return x -> x = d.
Proof.
  intros Hp Hparse. pose proof (preserving_is_faithful s Hp d p) as H.
  now rewrite Hparse in H.
Qed.

Lemma interrupted_in (outs : list (string * outcome value)) (t : thrown) :
  interrupted outs = Some t -> exists k, In (k, Raise t) outs.
Proof.
  induction outs as [|[k [x|[err|what]]] rest IH]; simpl; try discriminate.
  - intros H. destruct (IH H) as [k' Hin]. exists k'. now right.
  - intros H. destruct (IH H) as [k' Hin]. exists k'. now right.
  - intros [= <-]. exists k. now left.
Qed.

Lemma date_checks_raise (checks : list DateCheck) (t : number)
  (p what : string) :
  date_checks checks t p <> Raise (ThrowOther what).
Proof.
  induction checks as [|[b|b] rest IH]; cbn [date_checks].
  - discriminate.
  - destruct (num_lt t b); [discriminate | exact IH].
  - destruct (num_gt t b); [discriminate | exact IH].
Qed.

Lemma leaf_raises_ValidationError (s : schema) (d : value) (p what : string) :
  leaf s -> parse s d p <> Raise (ThrowOther what).
Proof.
  intros Hleaf H.
  assert (Hno : forall (A : Type) m q msg,
             fail (A := A) m q msg <> Raise (ThrowOther what))
    by (intros; discriminate).
  destruct s; try contradiction; cbn [parse] in H.
  - unfold StringSchema_parse in H. destruct d; try (now apply Hno in H).
    rewrite string_checks_spec in H.
    destruct (find (fun check => string_check_fails check s) checks);
      discriminate.
  - unfold NumberSchema_parse in H. destruct d; try (now apply Hno in H).
    destruct (Number_isNaN n); try (now apply Hno in H).
    rewrite number_checks_spec in H. unfold number_chain in H.
    destruct (find (fun check => number_check_fails check n) checks);
      discriminate.
  - destruct d; discriminate.
  - unfold CoercedStringSchema_parse, StringSchema_parse in H.
    destruct d; try (now apply Hno in H); rewrite string_checks_spec in H;
      match type of H with
      | context [find ?f ?l] => destruct (find f l)
      end; discriminate.
  - unfold CoercedNumberSchema_parse, NumberSchema_parse in H.
    destruct d; try (now apply Hno in H).
    + destruct (Number_isNaN n); try (now apply Hno in H).
      rewrite number_checks_spec in H. unfold number_chain in H.
      destruct (find (fun check => number_check_fails check n) checks);
        discriminate.
    + cbv zeta in H. destruct (is_empty (trim s)); try (now apply Hno in H).
      destruct (Number_isNaN (ToNumber (trim s))); try (now apply Hno in H).
      rewrite number_checks_spec in H. unfold number_chain in H.
      match type of H with
      | context [find ?f ?l] => destruct (find f l)
      end; discriminate.
  - unfold CoercedBooleanSchema_parse, BooleanSchema_parse in H.
    destruct d; try discriminate. cbv zeta in H.
    repeat match type of H with
           | context [if ?b then _ else _] => destruct b
           end; discriminate.
  - unfold EnumSchema_parse in H. destruct d; try discriminate.
    destruct (includes values s); discriminate.
  - unfold LiteralSchema_parse in H.
    match type of H with
    | context [strict_eq ?a ?l] => destruct (strict_eq a l)
    end; discriminate.
  - unfold DateSchema_parse in H. destruct d; try discriminate.
    cbv zeta in H. destruct (Number_isNaN (DateParse s)); try discriminate.
    now apply date_checks_raise in H.
Qed.

End Acceptance.

Section Origins.

Context {host : Host}.

Lemma other_exception_origin (s : schema) :
  forall d p what,
    parse s d p = Raise (ThrowOther what) ->
    exists fn x, In fn (transforms_of s) /\ fn x = Raise (ThrowOther what).
Proof.
  induction s as [s Hleaf | m checks item IH | m shape IH | m schemas _
                 | m inner IH | m inner IH | m inner IH | m inner fn IH]
    using schema_tree_ind; intros d p what H.
  - now apply leaf_raises_ValidationError in H.
  - cbn [parse] in H. unfold ArraySchema_parse in H.
    destruct d; try discriminate.
    destruct (array_checks checks (List.length items) p) as [[]|t] eqn:E.
    + cbn [bind] in H. rewrite array_loop_spec in H.
      destruct (interrupted (array_children item p items 0)) as [t|] eqn:I.
      * injection H as ->. apply interrupted_in in I. destruct I as [k Hin].
        apply array_children_in in Hin. destruct Hin as (d' & j & Hd).
        symmetry in Hd. exact (IH _ _ _ Hd).
      * destruct (_ ++ collected _)%list; discriminate.
    + cbn [bind] in H. apply array_checks_raise in E.
      destruct E as [msg ->]. discriminate.
  - cbn [parse] in H. unfold ObjectSchema_parse in H.
    rewrite plain_object_guard in H.
    destruct (plain_object d); try discriminate. simpl negb in H. cbv iota in H.
    rewrite object_loop_spec in H.
    destruct (interrupted (object_children shape d p)) as [t|] eqn:I.
    + injection H as ->. apply interrupted_in in I. destruct I as [k Hin].
      unfold object_children in Hin. apply in_map_iff in Hin.
      destruct Hin as [[key field] [[= <- Hd] Hin]].
      rewrite Forall_forall in IH.
      destruct (IH (key, field) Hin _ _ _ Hd) as (fn & x & Hfn & Hx).
      exists fn, x. split; trivial.
      simpl. apply in_flat_map. now exists (key, field).
    + destruct (_ ++ collected _)%list; discriminate.
  - cbn [parse] in H. unfold UnionSchema_parse in H.
    rewrite union_loop_spec in H.
    destruct (first_success _); discriminate.
  - cbn [parse] in H. unfold RecordSchema_parse in H.
    rewrite plain_object_guard in H.
    destruct (plain_object d); try discriminate. simpl negb in H. cbv iota in H.
    rewrite record_loop_spec in H.
    destruct (interrupted (record_children inner (Object_entries d) p))
      as [t|] eqn:I.
    + injection H as ->. apply interrupted_in in I. destruct I as [k Hin].
      unfold record_children in Hin. apply in_map_iff in Hin.
      destruct Hin as [[key val] [[= <- Hd] Hin]].
      exact (IH _ _ _ Hd).
    + destruct (_ ++ collected _)%list; discriminate.
  - cbn [parse] in H. unfold OptionalSchema_parse in H.
    destruct d; try discriminate; exact (IH _ _ _ H).
  - cbn [parse] in H. unfold NullableSchema_parse in H.
    destruct d; try discriminate; exact (IH _ _ _ H).
  - cbn [parse] in H. unfold TransformSchema_parse, bind in H.
    destruct (parse inner d p) as [x|t] eqn:E.
    + exists fn, x. split; [now left | exact H].
    + injection H as ->. destruct (IH _ _ _ E) as (g & x & Hg & Hx).
      exists g, x. split; [now right | exact Hx].
Qed.

(** An exception out of [parse] that is not a [ValidationError] is the
    exception of a transform function of the schema tree, as that function
    raised it; a schema without transform functions raises nothing but
    [ValidationError]s. *)
Theorem other_exception_comes_from_a_transform (s : schema) (d : value)
  (p what : string) :
  parse s d p = Raise (ThrowOther what) ->
  exists fn x, In fn (transforms_of s) /\ fn x = Raise (ThrowOther what).
Proof. apply other_exception_origin. Qed.

End Origins.

(** The exception of a transform below an object is the one that leaves. *)
Lemma other_exception_comes_from_a_transform_witness :
  parse (v.object
           [("port",
             Schema.transform (fun _ => Raise (ThrowOther "boom")) v.string)])
        (VObject [("port", VString "80")]) ""
  = Raise (ThrowOther "boom")
  /\
  exists fn x,
    In fn (transforms_of
             (v.object
                [("port",
                  Schema.transform (fun _ => Raise (ThrowOther "boom"))
                    v.string)]))
    /\ fn x = Raise (ThrowOther "boom").
Proof.
  split; [reflexivity|].
  exact (@other_exception_comes_from_a_transform decimal_host
           (v.object
              [("port",
                Schema.transform (fun _ => Raise (ThrowOther "boom"))
                  v.string)])
           (VObject [("port", VString "80")]) "" "boom" eq_refl).
Defined.

Section PathIndependence.

Context {host : Host}.

Lemma alike_refl (o : outcome value) : alike o o.
Proof. destruct o as [x|[e|w]]; simpl; trivial. now split. Qed.

Lemma alike_fail (m : option string) (p q msg : string) :
  alike (fail m p msg) (fail m q msg).
Proof. now split. Qed.

Lemma alike_single (p q msg : string) :
  alike (throw_issues [mkIssue p msg]) (throw_issues [mkIssue q msg]).
Proof. now split. Qed.

Lemma alike_string_parse (m : option string) (checks : list StringCheck)
  (d : value) (p q : string) :
  alike (StringSchema_parse m checks d p) (StringSchema_parse m checks d q).
Proof.
  unfold StringSchema_parse. destruct d; try apply alike_fail.
  rewrite !string_checks_spec.
  destruct (find (fun check => string_check_fails check s) checks);
    [apply alike_single | reflexivity].
Qed.

Lemma alike_number_parse (m : option string) (checks : list NumberCheck)
  (d : value) (p q : string) :
  alike (NumberSchema_parse m checks d p) (NumberSchema_parse m checks d q).
Proof.
  unfold NumberSchema_parse. destruct d; try apply alike_fail.
  destruct (Number_isNaN n); try apply alike_fail.
  rewrite !number_checks_spec. unfold number_chain.
  destruct (find (fun check => number_check_fails check n) checks);
    [apply alike_single | reflexivity].
Qed.

Lemma alike_date_checks (checks : list DateCheck) (t : number) (p q : string) :
  alike (date_checks checks t p) (date_checks checks t q).
Proof.
  induction checks as [|[b|b] rest IH]; cbn [date_checks].
  - reflexivity.
  - destruct (num_lt t b); [apply alike_single | exact IH].
  - destruct (num_gt t b); [apply alike_single | exact IH].
Qed.

Lemma alike_leaf (s : schema) :
  leaf s -> forall d p q, alike (parse s d p) (parse s d q).
Proof.
  intros Hleaf d p q. destruct s; try contradiction; cbn [parse].
  - apply alike_string_parse.
  - apply alike_number_parse.
  - destruct d; try apply alike_fail. reflexivity.
  - unfold CoercedStringSchema_parse. destruct d; apply alike_string_parse.
  - unfold CoercedNumberSchema_parse.
    destruct d; try apply alike_number_parse.
    cbv zeta. destruct (is_empty (trim s));
      [apply alike_fail | apply alike_number_parse].
  - unfold CoercedBooleanSchema_parse, BooleanSchema_parse.
    destruct d; try apply alike_fail; try reflexivity.
    cbv zeta.
    repeat match goal with
           | |- context [if ?b then _ else _] => destruct b
           end;
      try apply alike_fail; reflexivity.
  - unfold EnumSchema_parse. destruct d; try apply alike_fail.
    destruct (includes values s); [reflexivity | apply alike_fail].
  - unfold LiteralSchema_parse.
    match goal with
    | |- context [strict_eq ?a ?l] => destruct (strict_eq a l)
    end; [reflexivity | apply alike_fail].
  - unfold DateSchema_parse. destruct d; try apply alike_fail.
    cbv zeta. destruct (Number_isNaN (DateParse s));
      [apply alike_fail | apply alike_date_checks].
Qed.

Lemma alike_children_loop (outs outs' : list (string * outcome value)) :
  alike_children outs outs' ->
  interrupted outs = interrupted outs' /\
  map message (collected outs) = map message (collected outs') /\
  returned outs = returned outs' /\
  (forall result,
      fold_left keep_defined outs result = fold_left keep_defined outs' result) /\
  (forall result,
      fold_left keep_all outs result = fold_left keep_all outs' result).
Proof.
  induction 1 as [|[k o] [k' o'] outs outs' [Hk Ho] _ IH]; simpl.
  - repeat split.
  - simpl in Hk, Ho. subst k'.
    destruct IH as (Hi & Hc & Hr & Hd & Ha).
    destruct o as [x|[e|w]], o' as [x'|[e'|w']]; simpl in Ho;
      try contradiction.
    + subst x'. unfold collected, returned in *.
      unfold keep_defined at 2 4, keep_all at 2 4. simpl.
      repeat split; trivial; congruence.
    + destruct Ho as [Hm _]. unfold collected, returned in *.
      unfold keep_defined at 2 4, keep_all at 2 4. simpl.
      repeat split; trivial. rewrite !map_app. congruence.
    + subst w'. repeat split; intros; exact eq_refl || idtac.
      * unfold collected in *. simpl. exact Hc.
      * unfold returned in *. simpl. exact Hr.
      * unfold keep_defined at 2 4. simpl. apply Hd.
      * unfold keep_all at 2 4. simpl. apply Ha.
Qed.

Lemma alike_finish (iss iss' : list ValidationIssue) (r : value) :
  map message iss = map message iss' ->
  alike (finish iss r) (finish iss' r).
Proof.
  intros H. destruct iss as [|i iss], iss' as [|i' iss'];
    try discriminate; [reflexivity|].
  unfold finish, throw_issues, new_ValidationError, alike.
  cbn [issues error_message]. rewrite H. now split.
Qed.

Lemma alike_array_checks (checks : list ArrayCheck) (n : nat) (p q : string) :
  (array_checks checks n p = Return tt /\ array_checks checks n q = Return tt)
  \/
  exists msg,
    array_checks checks n p = throw_issues [mkIssue p msg] /\
    array_checks checks n q = throw_issues [mkIssue q msg].
Proof.
  induction checks as [|[b|b] rest IH]; cbn [array_checks].
  - now left.
  - destruct (num_lt (of_nat n) b); trivial. right. now eexists.
  - destruct (num_gt (of_nat n) b); trivial. right. now eexists.
Qed.

Lemma alike_array_children (item : schema) (p q : string) (items : list value) :
  (forall d p q, alike (parse item d p) (parse item d q)) ->
  forall i,
    alike_children (array_children item p items i)
                   (array_children item q items i).
Proof.
  intros Hitem. induction items as [|d rest IH]; intros i; simpl.
  - constructor.
  - constructor; [|apply IH]. simpl. split; [reflexivity | apply Hitem].
Qed.

Lemma alike_everywhere (s : schema) :
  forall d p q, alike (parse s d p) (parse s d q).
Proof.
  induction s as [s Hleaf | m checks item IH | m shape IH | m schemas IH
                 | m inner IH | m inner IH | m inner IH | m inner fn IH]
    using schema_tree_ind; intros d p q.
  - now apply alike_leaf.
  - cbn [parse]. unfold ArraySchema_parse.
    destruct d; try apply alike_fail.
    destruct (alike_array_checks checks (List.length items) p q)
      as [[-> ->]|[msg [-> ->]]].
    + cbn [bind]. rewrite !array_loop_spec. rewrite !app_nil_l.
      destruct (alike_children_loop
                  (alike_array_children item p q items IH 0))
        as (Hi & Hc & Hr & _).
      rewrite Hi, Hr.
      destruct (interrupted (array_children item q items 0)) as [t|].
      * destruct t; simpl; trivial. now split.
      * now apply alike_finish.
    + apply alike_single.
  - cbn [parse]. unfold ObjectSchema_parse. rewrite plain_object_guard.
    destruct (plain_object d); simpl negb; cbv iota; try apply alike_fail.
    rewrite !object_loop_spec. rewrite !app_nil_l.
    assert (Hch : alike_children (object_children shape d p)
                                 (object_children shape d q)).
    { unfold object_children. rewrite Forall_forall in IH.
      clear -IH. induction shape as [|[key field] rest IHs]; simpl.
      - constructor.
      - constructor.
        + simpl. split; trivial. apply (IH (key, field)). now left.
        + apply IHs. intros x Hx. apply IH. now right. }
    destruct (alike_children_loop Hch) as (Hi & Hc & _ & Hd & _).
    rewrite Hi, Hd.
    destruct (interrupted (object_children shape d q)) as [t|].
    + destruct t; simpl; trivial. now split.
    + now apply alike_finish.
  - cbn [parse]. unfold UnionSchema_parse. rewrite !union_loop_spec.
    rewrite Forall_forall in IH.
    assert (Hsame :
              first_success (map (fun member => parse member d p) schemas)
              = first_success (map (fun member => parse member d q) schemas)).
    { induction schemas as [|member rest IHrest]; simpl; trivial.
      assert (Hm := IH member (or_introl eq_refl) d p q).
      destruct (parse member d p) as [x|[e|w]],
               (parse member d q) as [x'|[e'|w']];
        simpl in Hm; try contradiction; try congruence;
        apply IHrest; intros y Hy; apply IH; now right. }
    rewrite Hsame. clear Hsame.
    destruct (first_success _); [exact eq_refl | apply alike_fail].
  - cbn [parse]. unfold RecordSchema_parse. rewrite plain_object_guard.
    destruct (plain_object d); simpl negb; cbv iota; try apply alike_fail.
    rewrite !record_loop_spec. rewrite !app_nil_l.
    assert (Hch : alike_children
                    (record_children inner (Object_entries d) p)
                    (record_children inner (Object_entries d) q)).
    { unfold record_children.
      induction (Object_entries d) as [|[key val] rest IHs]; simpl.
      - constructor.
      - constructor; trivial. simpl. split; [reflexivity | apply IH]. }
    destruct (alike_children_loop Hch) as (Hi & Hc & _ & _ & Ha).
    rewrite Hi, Ha.
    destruct (interrupted (record_children inner (Object_entries d) q))
      as [t|].
    + destruct t; simpl; trivial. now split.
    + now apply alike_finish.
  - cbn [parse]. unfold OptionalSchema_parse.
    destruct d; try apply IH. reflexivity.
  - cbn [parse]. unfold NullableSchema_parse.
    destruct d; try apply IH. reflexivity.
  - cbn [parse]. unfold TransformSchema_parse, bind.
    specialize (IH d p q).
    destruct (parse inner d p) as [x|[e|w]],
             (parse inner d q) as [x'|[e'|w']];
      simpl in IH; try contradiction; subst; trivial; apply alike_refl.
Qed.

(** The path argument only labels the issues.  Under two paths [parse]
    returns the same value, or raises the same foreign exception, or raises
    [ValidationError]s with the same messages in the same order and the same
    summary. *)
Theorem path_only_labels_issues (s : schema) (d : value) (p q : string) :
  match parse s d p, parse s d q with
  | Return x, Return y => x = y
  | Raise (ThrowValidation e1), Raise (ThrowValidation e2) =>
      map message (issues e1) = map message (issues e2) /\
      error_message e1 = error_message e2
  | Raise (ThrowOther a), Raise (ThrowOther b) => a = b
  | _, _ => False
  end.
Proof. exact (alike_everywhere s d p q). Qed.

End PathIndependence.

Section ObjectRoundTrip.

Context {host : Host}.

Lemma get_in_nodup (A : Type) (l : list (string * A)) (k : string) (x : A) :
  NoDup (map fst l) -> In (k, x) l -> get l k = Some x.
Proof.
  induction l as [|[k0 y] rest IH]; simpl; [contradiction|].
  intros Hnd [Heq|Hin].
  - injection Heq as -> ->. now rewrite String.eqb_refl.
  - inversion Hnd as [|? ? Hnotin Hnd']; subst.
    destruct (String.eqb k0 k) eqn:E.
    + apply String.eqb_eq in E; subst k0. exfalso. apply Hnotin.
      apply in_map_iff. now exists (k, x).
    + now apply IH.
Qed.

Lemma get_none_notin (A : Type) (l : list (string * A)) (k : string) :
  (forall x, ~ In (k, x) l) -> get l k = None.
Proof.
  induction l as [|[k0 y] rest IH]; simpl; trivial.
  intros H. destruct (String.eqb k0 k) eqn:E.
  - apply String.eqb_eq in E; subst k0. exfalso. apply (H y). now left.
  - apply IH. intros x Hx. apply (H x). now right.
Qed.

Lemma kept_keys_in (outs : list (string * outcome value)) (k : string) :
  In k (map fst
          (flat_map (fun out : string * outcome value =>
                       match snd out with
                       | Return y => if is_undefined y then [] else [(fst out, y)]
                       | Raise _ => []
                       end) outs)) ->
  In k (map fst outs).
Proof.
  induction outs as [|[k0 o] rest IH]; simpl; trivial.
  rewrite map_app, in_app_iff. intros [H|H].
  - left. destruct o as [y|t]; simpl in H; try contradiction.
    destruct (is_undefined y); simpl in H; try contradiction.
    now destruct H.
  - right. now apply IH.
Qed.

Lemma kept_keys_nodup (outs : list (string * outcome value)) :
  NoDup (map fst outs) ->
  NoDup (map fst
           (flat_map (fun out : string * outcome value =>
                        match snd out with
                        | Return y =>
                            if is_undefined y then [] else [(fst out, y)]
                        | Raise _ => []
                        end) outs)).
Proof.
  induction outs as [|[k0 o] rest IH]; simpl; intros Hnd.
  - constructor.
  - inversion Hnd as [|? ? Hnotin Hnd']; subst.
    destruct o as [y|t]; simpl; try now apply IH.
    destruct (is_undefined y); simpl; try now apply IH.
    constructor; [|now apply IH].
    intros Hin. apply Hnotin. now apply kept_keys_in.
Qed.

Lemma object_parse_returns_all (m : option string)
  (shape : list (string * schema)) (d : value) (p : string) (x : value) :
  parse (ObjectSchema m shape) d p = Return x ->
  plain_object d = true /\
  interrupted (object_children shape d p) = None /\
  collected (object_children shape d p) = [] /\
  x = VObject (fold_left keep_defined (object_children shape d p) []).
Proof.
  simpl. unfold ObjectSchema_parse. rewrite plain_object_guard.
  destruct (plain_object d); simpl; try discriminate.
  rewrite object_loop_spec.
  destruct (interrupted (object_children shape d p)); try discriminate.
  intros H. apply finish_return in H. now destruct H.
Qed.

Lemma Object_prototype_functions (key : string) (v : value) :
  get Object_prototype key = Some v -> exists f, v = VFunction f.
Proof.
  unfold Object_prototype. cbn [get].
  repeat match goal with
         | |- context [if ?b then _ else _] => destruct b
         end;
    intros [= <-]; now eexists.
Qed.

Lemma preserving_accepts_data (s : schema) :
  preserving s = true ->
  forall d p x, parse s d p = Return x -> is_data d.
Proof.
  induction s as [s Hleaf | m checks item IH | m shape _ | m schemas IH
                 | m inner _ | m inner IH | m inner IH | m inner fn _]
    using schema_tree_ind; intros Hp d p x; try discriminate.
  - destruct s; try discriminate; try contradiction; cbn [parse].
    + destruct d; simpl; trivial; discriminate.
    + destruct d; simpl; trivial; discriminate.
    + destruct d; simpl; trivial; discriminate.
    + destruct d; simpl; trivial; discriminate.
    + unfold LiteralSchema_parse.
      match goal with
      | |- context [strict_eq ?a ?l] => destruct (strict_eq a l) eqn:E
      end; try discriminate.
      intros _. destruct d; simpl; trivial;
        match type of E with
        | strict_eq _ ?l = true => destruct l
        end; discriminate.
  - cbn [parse]. destruct d; simpl; trivial; discriminate.
  - cbn [parse]. unfold UnionSchema_parse.
    simpl in Hp. rewrite forallb_forall in Hp. rewrite Forall_forall in IH.
    induction schemas as [|member rest IHrest]; simpl.
    + discriminate.
    + destruct (parse member d p) as [y|t] eqn:E.
      * intros _. exact (IH member (or_introl eq_refl)
                           (Hp member (or_introl eq_refl)) d p y E).
      * apply IHrest.
        -- intros y Hy. apply IH. now right.
        -- intros y Hy. apply Hp. now right.
  - cbn [parse]. unfold OptionalSchema_parse.
    destruct d; simpl; trivial; intros H; exact (IH Hp _ _ _ H).
  - cbn [parse]. unfold NullableSchema_parse.
    destruct d; simpl; trivial; intros H; exact (IH Hp _ _ _ H).
Qed.

(** What an object schema with preserving fields returns: every declared
    key was read and accepted as it is, and is an own property of the
    output exactly when the value read is not [undefined]. *)
Lemma object_output_reads (m : option string) (shape : list (string * schema))
  (d : value) (p : string) (x : value) :
  NoDup (map fst shape) ->
  (forall k f, In (k, f) shape -> preserving f = true) ->
  parse (ObjectSchema m shape) d p = Return x ->
  exists props',
    x = VObject props' /\
    forall k f, In (k, f) shape ->
      parse f (obj_get d k) (field_path p k) = Return (obj_get d k) /\
      get props' k =
      if is_undefined (obj_get d k) then None else Some (obj_get d k).
Proof.
  intros Hnd Hpres Hparse.
  destruct (object_parse_returns_all _ _ _ _ Hparse) as (_ & _ & Hc & Hx).
  rewrite keep_defined_fresh in Hx;
    [ | now rewrite object_children_keys | reflexivity ].
  simpl in Hx. subst x. eexists. split; [reflexivity|].
  intros k0 f Hin.
  assert (Hchild : parse f (obj_get d k0) (field_path p k0)
                   = Return (obj_get d k0)).
  { pose proof (preserving_is_faithful f (Hpres _ _ Hin)
                  (obj_get d k0) (field_path p k0)) as Hf.
    destruct (parse f (obj_get d k0) (field_path p k0)) as [y|[e|w]] eqn:E;
      simpl in Hf.
    - now subst y.
    - exfalso. apply Hf.
      assert (Hincl : forall i, In i (issues e) ->
                 In i (collected (object_children shape d p))).
      { intros i Hi. unfold collected. apply in_flat_map.
        exists (k0, Raise (ThrowValidation e)). split; trivial.
        unfold object_children. apply in_map_iff.
        exists (k0, f). now rewrite E. }
      rewrite Hc in Hincl. destruct (issues e) as [|i rest]; trivial.
      exfalso. apply (Hincl i). now left.
    - contradiction. }
  split; [exact Hchild|].
  assert (Hiff := kept_defined_in shape d p k0).
  destruct (is_undefined (obj_get d k0)) eqn:U.
  - apply get_none_notin.
    intros y Hy. apply Hiff in Hy.
    destruct Hy as (f' & Hin' & Hparse' & Hdef).
    assert (f' = f).
    { assert (H1 := get_in_nodup _ _ _ Hnd Hin).
      assert (H2 := get_in_nodup _ _ _ Hnd Hin'). congruence. }
    subst f'. rewrite Hchild in Hparse'.
    assert (Hy : y = obj_get d k0) by congruence. rewrite Hy in Hdef.
    apply is_undefined_false in Hdef. congruence.
  - apply get_in_nodup.
    + apply kept_keys_nodup. now rewrite object_children_keys.
    + apply Hiff. exists f. repeat split; trivial.
      now apply is_undefined_false.
Qed.

(** A value that a preserving schema accepts and that was read from an
    object with prototype [Object.prototype] is an own property of the
    object, or [undefined]: the schema accepts no inherited method. *)
Lemma accepted_read_is_own (f : schema) (props : list (string * value))
  (k p : string) (y : value) :
  preserving f = true ->
  parse f (obj_get (VObject props) k) p = Return y ->
  obj_get (VObject props) k = own_property (VObject props) k.
Proof.
  intros Hpres Hchild.
  pose proof (preserving_accepts_data f Hpres _ _ Hchild) as Hdata.
  rewrite obj_get_object in *. unfold own_property. cbn [Object_entries].
  destruct (get props k) as [v|]; trivial.
  unfold from_Object_prototype in *.
  destruct (get Object_prototype k) as [v|] eqn:G.
  - apply Object_prototype_functions in G. destruct G as [fn ->].
    contradiction.
  - destruct (String.eqb k "__proto__"); [contradiction | reflexivity].
Qed.

(** Parsing is idempotent on objects with preserving fields, when no
    declared key is the name of a property of [Object.prototype]: what an
    object schema returned, stripped of the undeclared keys, it accepts
    again and returns unchanged. *)
Theorem object_parse_is_idempotent (m : option string)
  (shape : list (string * schema)) (d : value) (p : string) (x : value) :
  NoDup (map fst shape) ->
  (forall k f, In (k, f) shape -> preserving f = true) ->
  (forall k, In k (map fst shape) -> Object_prototype_has k = false) ->
  parse (ObjectSchema m shape) d p = Return x ->
  parse (ObjectSchema m shape) x p = Return x.
Proof.
  intros Hnd Hpres Hno Hparse.
  destruct (object_output_reads _ _ _ _ Hnd Hpres Hparse)
    as (props' & -> & Hreads).
  destruct (object_parse_returns_all _ _ _ _ Hparse) as (Hplain & _).
  rewrite <- Hparse. simpl. unfold ObjectSchema_parse.
  rewrite !plain_object_guard, Hplain. simpl.
  apply object_loop_ext.
  intros k Hk.
  assert (Hk' : In k (map fst shape)).
  { rewrite map_map in Hk.
    erewrite map_ext in Hk; [exact Hk|]. now intros [key field]. }
  pose proof (Hno k Hk') as Hnok.
  apply in_map_iff in Hk'. destruct Hk' as [[k0 f] [Hfst Hin]].
  simpl in Hfst. subst k0.
  destruct (Hreads k f Hin) as [_ Hget].
  rewrite obj_get_object, Hget, (not_inherited _ Hnok).
  destruct (obj_get d k); reflexivity.
Qed.

(** A declared key of an object schema with preserving fields comes out
    with the value it came in with, and comes out absent when it came in
    absent or [undefined].  For a key that is no name of a property of
    [Object.prototype], input and output read the same at the key; for an
    input with prototype [Object.prototype] and any declared key, the own
    property of the output is the own property of the input. *)
Theorem object_output_keeps_declared_values (m : option string)
  (shape : list (string * schema)) (d : value) (p : string) (x : value)
  (k : string) :
  NoDup (map fst shape) ->
  (forall key f, In (key, f) shape -> preserving f = true) ->
  parse (ObjectSchema m shape) d p = Return x ->
  In k (map fst shape) ->
  (Object_prototype_has k = false -> obj_get x k = obj_get d k)
  /\
  (forall props, d = VObject props -> own_property x k = own_property d k).
Proof.
  intros Hnd Hpres Hparse Hk.
  destruct (object_output_reads _ _ _ _ Hnd Hpres Hparse)
    as (props' & -> & Hreads).
  apply in_map_iff in Hk. destruct Hk as [[k0 f] [Hfst Hin]].
  simpl in Hfst. subst k0.
  destruct (Hreads k f Hin) as [Hchild Hget].
  split.
  - intros Hnok. rewrite obj_get_object, Hget, (not_inherited _ Hnok).
    destruct (obj_get d k); reflexivity.
  - intros props ->.
    rewrite <- (accepted_read_is_own _ _ _ _ (Hpres _ _ Hin) Hchild).
    unfold own_property at 1. cbn [Object_entries]. rewrite Hget.
    destruct (obj_get (VObject props) k); reflexivity.
Qed.

End ObjectRoundTrip.

(** The unknown-key scenario, parsed twice. *)
Lemma object_parse_is_idempotent_witness :
  NoDup (map fst [("name", v.string); ("age", Schema.optional v.number)]) /\
  parse (v.object [("name", v.string); ("age", Schema.optional v.number)])
        (VObject [("name", VString "a"); ("extra", VBoolean true)]) ""
  = Return (VObject [("name", VString "a")]) /\
  parse (v.object [("name", v.string); ("age", Schema.optional v.number)])
        (VObject [("name", VString "a")]) ""
  = Return (VObject [("name", VString "a")]).
Proof.
  assert (Hnd : NoDup (map fst [("name", v.string);
                                ("age", Schema.optional v.number)])).
  { simpl. constructor.
    - intros [H|[]]. discriminate H.
    - constructor; [intros []|constructor]. }
  split; [exact Hnd|]. split; [reflexivity|].
  apply (@object_parse_is_idempotent decimal_host None
           [("name", v.string); ("age", Schema.optional v.number)]
           (VObject [("name", VString "a"); ("extra", VBoolean true)]) ""
           (VObject [("name", VString "a")]) Hnd).
  - intros k f [[= <- <-]|[[= <- <-]|[]]]; reflexivity.
  - intros k [<-|[<-|[]]]; reflexivity.
  - reflexivity.
Defined.

(** The declared keys [name] and [age] of the unknown-key scenario. *)
Lemma object_output_keeps_declared_values_witness :
  obj_get (VObject [("name", VString "a")]) "name"
  = obj_get (VObject [("name", VString "a"); ("extra", VBoolean true)]) "name"
  /\
  own_property (VObject [("name", VString "a")]) "age"
  = own_property (VObject [("name", VString "a"); ("extra", VBoolean true)])
      "age".
Proof.
  assert (Hnd : NoDup (map fst [("name", v.string);
                                ("age", Schema.optional v.number)])).
  { simpl. constructor.
    - intros [H|[]]. discriminate H.
    - constructor; [intros []|constructor]. }
  assert (Hpres : forall key f,
             In (key, f) [("name", v.string); ("age", Schema.optional v.number)] ->
             preserving f = true).
  { intros k f [[= <- <-]|[[= <- <-]|[]]]; reflexivity. }
  split.
  - apply (@object_output_keeps_declared_values decimal_host None
             [("name", v.string); ("age", Schema.optional v.number)]
             (VObject [("name", VString "a"); ("extra", VBoolean true)]) ""
             (VObject [("name", VString "a")]) "name" Hnd Hpres eq_refl).
    + now left.
    + reflexivity.
  - apply (@object_output_keeps_declared_values decimal_host None
             [("name", v.string); ("age", Schema.optional v.number)]
             (VObject [("name", VString "a"); ("extra", VBoolean true)]) ""
             (VObject [("name", VString "a")]) "age" Hnd Hpres eq_refl).
    + right. now left.
    + reflexivity.
Defined.

(** [object({constructor: string().optional()})] on an input whose own
    property [constructor] is [undefined]: the output has no such property,
    and reads the inherited function there, which the schema rejects. *)
Example inherited_name_is_read_back :
  parse (v.object [("constructor", Schema.optional v.string)])
        (VObject [("constructor", VUndefined)]) ""
  = Return (VObject [])
  /\
  obj_get (VObject []) "constructor" = VFunction "Object"
  /\
  parse (v.object [("constructor", Schema.optional v.string)]) (VObject []) ""
  = Raise (ThrowValidation
             (mkError "Validation failed: Expected string"
                      [mkIssue "constructor" "Expected string"])).
Proof. repeat split. Qed.

(** The array scenario of the tests: the accepted array is the input. *)
Lemma preserving_schema_returns_input_witness :
  preserving (v.array v.number) = true /\
  parse (v.array v.number) (VArray [VNumber (of_nat 1); VNumber (of_nat 2)]) ""
  = Return (VArray [VNumber (of_nat 1); VNumber (of_nat 2)]) /\
  VArray [VNumber (of_nat 1); VNumber (of_nat 2)]
  = VArray [VNumber (of_nat 1); VNumber (of_nat 2)].
Proof.
  split; [reflexivity|]. split; [reflexivity|].
  exact (@preserving_schema_returns_input decimal_host (v.array v.number)
           (VArray [VNumber (of_nat 1); VNumber (of_nat 2)]) ""
           (VArray [VNumber (of_nat 1); VNumber (of_nat 2)])
           eq_refl eq_refl).
Defined.

(** A failed [min(2)] on a one-element array. *)
Lemma array_length_failure_precedes_items_witness :
  parse (Schema.min (of_nat 2) (v.array v.string)) (VArray [VNull]) "tags"
  = throw_issues [mkIssue "tags" "Array must have at least 2 items"]
  /\
  parse (Schema.min (of_nat 2) (v.array v.number)) (VArray [VString "a"]) "tags"
  = throw_issues [mkIssue "tags" "Array must have at least 2 items"].
Proof.
  destruct (@array_length_failure_precedes_items decimal_host None
              [AMin (of_nat 2)] v.string v.number [VNull] [VString "a"]
              "tags" _ eq_refl eq_refl) as (H1 & H2 & _).
  split; [exact H1 | exact H2].
Defined.

Section Exporter.

Context {host : Host}.

(** The [required] entry of the document of an object schema lists, in
    declaration order, the declared keys whose field schema is not itself
    an instance of [OptionalSchema]; it is missing when there is none. *)
Theorem required_lists_keys_not_themselves_optional (m : option string)
  (shape : list (string * schema)) :
  required_of (toJsonSchema (ObjectSchema m shape)) =
  map VString
      (map fst (filter (fun entry : string * schema =>
                          negb (instanceof_OptionalSchema (snd entry))) shape))
  /\
  (Forall (fun entry : string * schema =>
             instanceof_OptionalSchema (snd entry) = true) shape ->
   get (Object_entries (toJsonSchema (ObjectSchema m shape))) "required"
   = None).
Proof.
  split; [apply exporter_lists_outermost_optional|].
  intros Hall. cbn [toJsonSchema]. unfold ObjectSchema_toJsonSchema.
  pose proof (object_document_loop_required
                (map (fun entry : string * schema =>
                        let (key, fieldSchema) := entry in
                        (key, (toJsonSchema fieldSchema,
                               instanceof_OptionalSchema fieldSchema))) shape)
                [] []) as Hreq.
  destruct (object_document_loop _ [] []) as [properties required].
  simpl in Hreq. subst required.
  assert (Hnil :
            filter (fun entry : string * (value * bool) =>
                      negb (snd (snd entry)))
              (map (fun entry : string * schema =>
                      let (key, fieldSchema) := entry in
                      (key, (toJsonSchema fieldSchema,
                             instanceof_OptionalSchema fieldSchema))) shape)
            = []).
  { clear -Hall. induction Hall as [|[key f] rest Hf _ IH]; simpl; trivial.
    simpl in Hf. now rewrite Hf. }
  rewrite Hnil. reflexivity.
Qed.

Lemma all_return (outs : list (string * outcome value)) :
  (forall k o, In (k, o) outs -> exists y, o = Return y) ->
  interrupted outs = None /\ collected outs = [].
Proof.
  induction outs as [|[k o] rest IH]; intros Hall; [now split|].
  destruct (Hall k o (or_introl eq_refl)) as [y ->].
  destruct IH as [Hi Hc]; [intros k' o' Hin; apply (Hall k'); now right|].
  split; [exact Hi | exact Hc].
Qed.

(** The exported document is sound for omission.  A declared key that it
    does not list as required, and that [Object.prototype] has not, may be
    left out of the input: its field returns [undefined], the key is absent
    from what [parse] returns, and [parse] returns as soon as the fields of
    the other declared keys do. *)
Theorem unlisted_key_may_be_absent (m : option string)
  (shape : list (string * schema)) (props : list (string * value))
  (k : string) (f : schema) (p : string) :
  NoDup (map fst shape) ->
  In (k, f) shape ->
  ~ In (VString k) (required_of (toJsonSchema (ObjectSchema m shape))) ->
  get props k = None ->
  Object_prototype_has k = false ->
  parse f (obj_get (VObject props) k) (field_path p k) = Return VUndefined
  /\
  (forall out,
      parse (ObjectSchema m shape) (VObject props) p = Return out ->
      get (Object_entries out) k = None)
  /\
  ((forall k' f',
       In (k', f') shape -> k' <> k ->
       exists y,
         parse f' (obj_get (VObject props) k') (field_path p k') = Return y) ->
   exists out, parse (ObjectSchema m shape) (VObject props) p = Return out).
Proof.
  intros Hnd Hin Hnot Habsent Hno.
  rewrite exporter_lists_outermost_optional in Hnot.
  assert (Hchild : parse f (obj_get (VObject props) k) (field_path p k)
                   = Return VUndefined).
  { rewrite obj_get_object, Habsent, (not_inherited _ Hno).
    destruct (instanceof_OptionalSchema f) eqn:E.
    - destruct f; try discriminate. reflexivity.
    - exfalso. apply Hnot. apply in_map. apply in_map_iff.
      exists (k, f). split; trivial.
      apply filter_In. split; trivial. simpl. now rewrite E. }
  split; [exact Hchild|]. split.
  - intros out Hout.
    destruct (object_parse_returns _ _ _ _ Hout) as [_ ->].
    rewrite keep_defined_fresh;
      [ | now rewrite object_children_keys | reflexivity ].
    cbn [Object_entries app]. apply get_none_notin.
    intros x Hx. apply kept_defined_in in Hx.
    destruct Hx as (f' & Hin' & Hparse' & Hdef).
    assert (f' = f).
    { assert (H1 := get_in_nodup _ _ _ Hnd Hin).
      assert (H2 := get_in_nodup _ _ _ Hnd Hin'). congruence. }
    subst f'. congruence.
  - intros Hothers.
    destruct (all_return (object_children shape (VObject props) p))
      as [Hi Hc].
    { intros k' o Ho. unfold object_children in Ho. apply in_map_iff in Ho.
      destruct Ho as [[key field] [[= <- <-] Hshape]].
      destruct (String.eqb key k) eqn:E.
      - apply String.eqb_eq in E. subst key.
        assert (field = f).
        { assert (H1 := get_in_nodup _ _ _ Hnd Hin).
          assert (H2 := get_in_nodup _ _ _ Hnd Hshape). congruence. }
        subst field. now exists VUndefined.
      - apply String.eqb_neq in E. exact (Hothers _ _ Hshape E). }
    rewrite (container_parse (ObjectSchema m shape) (VObject props) p
               (outs := object_children shape (VObject props) p))
      by reflexivity.
    rewrite Hi, Hc. now eexists.
Qed.

End Exporter.

(** The optional field of the README schema. *)
Lemma unlisted_key_may_be_absent_witness :
  required_of
    (toJsonSchema
       (v.object [("name", v.string); ("age", Schema.optional v.number)]))
  = [VString "name"] /\
  forall out,
    parse (v.object [("name", v.string); ("age", Schema.optional v.number)])
          (VObject [("name", VString "a")]) ""
    = Return out ->
    get (Object_entries out) "age" = None.
Proof.
  split; [reflexivity|].
  apply (@unlisted_key_may_be_absent decimal_host None
           [("name", v.string); ("age", Schema.optional v.number)]
           [("name", VString "a")] "age" (Schema.optional v.number) "").
  - simpl. constructor.
    + intros [H|[]]. discriminate H.
    + constructor; [intros []|constructor].
  - right; now left.
  - simpl. intros [H|[]]. discriminate H.
  - reflexivity.
  - reflexivity.
Defined.

(** An object schema whose fields are all optional exports no [required]. *)
Lemma required_lists_keys_not_themselves_optional_witness :
  Forall (fun entry : string * schema =>
            instanceof_OptionalSchema (snd entry) = true)
         [("role", Schema.optional v.string)] /\
  get (Object_entries
         (toJsonSchema (v.object [("role", Schema.optional v.string)])))
      "required"
  = None.
Proof.
  assert (Hall : Forall (fun entry : string * schema =>
                           instanceof_OptionalSchema (snd entry) = true)
                        [("role", Schema.optional v.string)])
    by (constructor; [reflexivity | constructor]).
  split; [exact Hall|].
  exact (proj2 (required_lists_keys_not_themselves_optional
                  None [("role", Schema.optional v.string)]) Hall).
Defined.

(* ------------------------------------------------------------------ *)
(** ** Query parameters *)

Section Query.

Context {host : Host}.

(** The assignment of a value that is no object keeps the prototype. *)
Lemma assign_primitive_spec (props : list (string * value)) (key : string)
  (v : value) :
  is_object_or_null v = false ->
  obj_assign (VObject props) key v = VObject (assign_primitive props key v).
Proof.
  intros Hv. unfold obj_assign, assign_primitive, from_Object_prototype.
  destruct (get props key); trivial.
  destruct (get Object_prototype key) eqn:G.
  - destruct (String.eqb key "__proto__") eqn:E; trivial.
    apply String.eqb_eq in E. subst key. discriminate G.
  - destruct (String.eqb key "__proto__"); trivial. now rewrite Hv.
Qed.

Lemma assign_primitive_nodup (props : list (string * value)) (key : string)
  (v : value) :
  NoDup (map fst props) -> NoDup (map fst (assign_primitive props key v)).
Proof.
  intros Hnd. unfold assign_primitive.
  destruct (get props key); [now apply put_nodup|].
  destruct (String.eqb key "__proto__"); trivial. now apply put_nodup.
Qed.

(** The key [__proto__] becomes no own property; any other key is bound. *)
Lemma get_assign_primitive (props : list (string * value)) (key k : string)
  (v : value) :
  get (assign_primitive props key v) k =
  if String.eqb key k then
    match get props k with
    | Some _ => Some v
    | None => if String.eqb k "__proto__" then None else Some v
    end
  else get props k.
Proof.
  unfold assign_primitive.
  destruct (String.eqb key k) eqn:E.
  - apply String.eqb_eq in E. subst k.
    destruct (get props key) eqn:G.
    + now rewrite get_put, String.eqb_refl.
    + destruct (String.eqb key "__proto__"); trivial.
      now rewrite get_put, String.eqb_refl.
  - destruct (get props key).
    + now rewrite get_put, E.
    + destruct (String.eqb key "__proto__"); trivial.
      now rewrite get_put, E.
Qed.

(** The loop of [validQuery] on an object with prototype
    [Object.prototype]; every key of [keys] is a key of the query. *)
Lemma query_loop_spec (keys : list string) (query : URLSearchParams) :
  (forall key, In key keys -> get query key <> None) ->
  forall props,
  exists props',
    query_loop keys query (VObject props) = VObject props' /\
    (NoDup (map fst props) -> NoDup (map fst props')) /\
    forall k,
      get props' k =
      if existsb (String.eqb k) keys then
        match get props k with
        | Some _ => option_map VString (get query k)
        | None =>
            if String.eqb k "__proto__" then None
            else option_map VString (get query k)
        end
      else get props k.
Proof.
  induction keys as [|key rest IH]; intros Hkeys props.
  - exists props. now repeat split.
  - destruct (get query key) as [s|] eqn:Q;
      [|exfalso; apply (Hkeys key); [now left | exact Q]].
    cbn [query_loop]. rewrite Q.
    rewrite assign_primitive_spec by reflexivity.
    destruct (IH (fun k Hk => Hkeys k (or_intror Hk))
                 (assign_primitive props key (VString s)))
      as (props' & Hloop & Hnd & Hget).
    exists props'. split; [exact Hloop|]. split.
    + intros H. apply Hnd. now apply assign_primitive_nodup.
    + intros k. rewrite Hget, get_assign_primitive. cbn [existsb].
      rewrite (String.eqb_sym k key).
      destruct (String.eqb key k) eqn:E.
      * apply String.eqb_eq in E. subst k. rewrite Q. cbn [orb option_map].
        destruct (get props key); cbn [option_map].
        -- now destruct (existsb (String.eqb key) rest).
        -- destruct (String.eqb key "__proto__");
             now destruct (existsb (String.eqb key) rest).
      * cbn [orb]. reflexivity.
Qed.

Lemma get_keys (query : URLSearchParams) (k : string) :
  existsb (String.eqb k) (Object_keys query) =
  match get query k with Some _ => true | None => false end.
Proof.
  unfold Object_keys. induction query as [|[k0 s] rest IH]; simpl; trivial.
  rewrite (String.eqb_sym k k0). now destruct (String.eqb k0 k).
Qed.

Lemma keys_are_bound (query : URLSearchParams) (key : string) :
  In key (Object_keys query) -> get query key <> None.
Proof.
  intros Hin H.
  assert (Hex : existsb (String.eqb key) (Object_keys query) = true).
  { apply existsb_exists. exists key. split; trivial. apply String.eqb_refl. }
  rewrite get_keys, H in Hex. discriminate.
Qed.

(** The object built for the query string. *)
Lemma query_built_spec (query : URLSearchParams) :
  query_built query = VObject (query_object query) /\
  NoDup (map fst (query_object query)) /\
  forall k,
    get (query_object query) k =
    if String.eqb k "__proto__" then None
    else option_map VString (get query k).
Proof.
  unfold query_object, query_built.
  destruct (query_loop_spec (Object_keys query) query (keys_are_bound query) [])
    as (props' & Hloop & Hnd & Hget).
  rewrite Hloop. cbn [Object_entries]. split; trivial. split.
  - apply Hnd. constructor.
  - intros k. rewrite Hget, get_keys. cbn [get].
    destruct (get query k); cbn [option_map]; trivial.
    now destruct (String.eqb k "__proto__").
Qed.

(** What the schema reads at a key of the query string. *)
Lemma query_object_get (query : URLSearchParams) (k s : string) :
  get query k = Some s ->
  obj_get (VObject (query_object query)) k =
  if String.eqb k "__proto__" then VObjectPrototype else VString s.
Proof.
  intros Hk. destruct (query_built_spec query) as (_ & _ & Hget).
  rewrite obj_get_object, Hget, Hk. cbn [option_map].
  destruct (String.eqb k "__proto__") eqn:E; trivial.
  apply String.eqb_eq in E. subst k. reflexivity.
Qed.

(** The object [validQuery] hands to the schema has the prototype
    [Object.prototype]; its own properties are the keys of the query string
    other than [__proto__], each once, bound to the string of the first
    entry with that key; the key [__proto__] becomes no own property. *)
Theorem query_object_first_value_wins (query : URLSearchParams) (k : string) :
  query_built query = VObject (query_object query)
  /\ get (query_object query) k =
     (if String.eqb k "__proto__" then None
      else option_map VString (get query k))
  /\ NoDup (map fst (query_object query))
  /\ forall later, get query k <> None ->
       get (query_object (query ++ later)%list) k = get (query_object query) k.
Proof.
  destruct (query_built_spec query) as (Hbuilt & Hnd & Hget).
  split; [exact Hbuilt|]. split; [apply Hget|]. split; [exact Hnd|].
  intros later Hsome.
  destruct (query_built_spec (query ++ later)%list) as (_ & _ & Hget').
  rewrite Hget, Hget'.
  assert (Happ : get (query ++ later)%list k = get query k).
  { clear -Hsome. induction query as [|[k0 s] rest IH]; simpl in *.
    - congruence.
    - destruct (String.eqb k0 k); trivial. now apply IH. }
  now rewrite Happ.
Qed.

(** The values of a query string are strings: a plain number or boolean
    field rejects a key that is present, whatever its text, and the coerced
    number schema sees the text.  The key [__proto__] is set aside: the
    object has no such property. *)
Theorem query_values_are_strings (query : URLSearchParams) (k s : string)
  (m : option string) (checks : list NumberCheck) (p : string) :
  get query k = Some s ->
  k <> "__proto__" ->
  parse (NumberSchema m checks) (obj_get (query_built query) k) p
  = fail m p "Expected number"
  /\
  parse (BooleanSchema m) (obj_get (query_built query) k) p
  = fail m p "Expected boolean"
  /\
  parse (CoercedNumberSchema m checks) (obj_get (query_built query) k) p
  = parse (CoercedNumberSchema m checks) (VString s) p.
Proof.
  intros Hk Hne. rewrite (proj1 (query_built_spec query)).
  rewrite (query_object_get _ _ Hk).
  apply String.eqb_neq in Hne. rewrite Hne. now repeat split.
Qed.

End Query.

(** [?page=1&page=2]: the first value is kept. *)
Lemma query_object_first_value_wins_witness :
  get [("page", "1")] "page" <> None /\
  get (query_object [("page", "1"); ("page", "2")]) "page"
  = Some (VString "1").
Proof.
  assert (H : get [("page", "1")] "page" <> None) by discriminate.
  split; [exact H|].
  destruct (query_object_first_value_wins [("page", "1")] "page")
    as (_ & _ & _ & Hlater).
  exact (Hlater [("page", "2")] H).
Defined.

(** [?page=2] against [number()] and [coerce.number()]. *)
Lemma query_values_are_strings_witness :
  get [("page", "2")] "page" = Some "2" /\
  parse v.number (obj_get (query_built [("page", "2")]) "page") "page"
  = fail None "page" "Expected number" /\
  parse v.coerce.number (obj_get (query_built [("page", "2")]) "page") "page"
  = Return (VNumber (of_nat 2)).
Proof.
  split; [reflexivity|].
  destruct (@query_values_are_strings decimal_host [("page", "2")] "page" "2"
              None [] "page" eq_refl) as (Hn & _ & Hc).
  - discriminate.
  - split; [exact Hn | exact (eq_trans Hc eq_refl)].
Defined.

(** [?__proto__=5&page=2]: the first key is lost, and what the schema reads
    there is [Object.prototype]. *)
Example query_proto_key :
  query_built [("__proto__", "5"); ("page", "2")]
  = VObject [("page", VString "2")]
  /\
  obj_get (query_built [("__proto__", "5"); ("page", "2")]) "__proto__"
  = VObjectPrototype.
Proof. split; reflexivity. Qed.

(** [?b=x&1=y]: the key that is an array index is listed first. *)
Example query_index_key :
  query_built [("b", "x"); ("1", "y"); ("01", "z"); ("0", "w")]
  = VObject [("0", VString "w"); ("1", VString "y"); ("b", VString "x");
             ("01", VString "z")].
Proof. reflexivity. Qed.

(* ------------------------------------------------------------------ *)
(** ** Path names and query strings *)

Section Urls.

Lemma prefix_single (c : ascii) (s : string) :
  String.prefix (String c EmptyString) s =
  match s with
  | String d _ => Ascii.eqb d c
  | EmptyString => false
  end.
Proof.
  destruct s as [|d rest]; simpl; trivial.
  destruct (ascii_dec c d) as [->|Hne].
  - rewrite Ascii.eqb_refl. now destruct rest.
  - symmetry. apply Ascii.eqb_neq. congruence.
Qed.

Lemma take_drop (n : nat) (s : string) : take n s ++ drop n s = s.
Proof.
  revert s. induction n as [|n IH]; intros [|c rest]; simpl; trivial.
  now rewrite IH.
Qed.

Lemma drop_add (a b : nat) (s : string) : drop (a + b) s = drop b (drop a s).
Proof.
  revert s. induction a as [|a IH]; intros s; simpl; trivial.
  destruct s as [|c rest]; simpl.
  - now destruct b.
  - apply IH.
Qed.

Lemma drop_length_append (a b : string) : drop (String.length a) (a ++ b) = b.
Proof. induction a as [|c a IH]; simpl; trivial. Qed.

Lemma take_length_append (a b : string) : take (String.length a) (a ++ b) = a.
Proof. induction a as [|c a IH]; simpl; trivial. now rewrite IH. Qed.

Lemma occurs_append (c : ascii) (a b : string) :
  occurs c (a ++ b) = occurs c a || occurs c b.
Proof.
  induction a as [|d a IH]; simpl; trivial.
  rewrite IH. now rewrite orb_assoc.
Qed.

(** The first occurrence of a character. *)
Lemma indexOf_here_none (c : ascii) (s : string) :
  indexOf_here (String c EmptyString) s = None <-> occurs c s = false.
Proof.
  induction s as [|d rest IH].
  - simpl. now split.
  - cbn [indexOf_here occurs]. rewrite prefix_single.
    destruct (Ascii.eqb d c); simpl.
    + split; discriminate.
    + destruct (indexOf_here (String c EmptyString) rest); simpl.
      * split; [discriminate|]. intros H. apply IH in H. discriminate.
      * split; trivial. intros _. now apply IH.
Qed.

Lemma indexOf_here_some (c : ascii) (s : string) (n : nat) :
  indexOf_here (String c EmptyString) s = Some n ->
  occurs c (take n s) = false /\
  exists rest, drop n s = String c rest.
Proof.
  revert n. induction s as [|d rest IH]; intros n.
  - simpl. discriminate.
  - cbn [indexOf_here]. rewrite prefix_single.
    destruct (Ascii.eqb d c) eqn:E.
    + intros [= <-]. simpl. split; trivial.
      apply Ascii.eqb_eq in E. subst d. now exists rest.
    + destruct (indexOf_here (String c EmptyString) rest) as [k|];
        try discriminate.
      simpl. intros [= <-]. destruct (IH k eq_refl) as [Hocc Hdrop].
      simpl. now rewrite E.
Qed.

Lemma indexOf_here_append (c : ascii) (a b : string) :
  occurs c a = false ->
  indexOf_here (String c EmptyString) (a ++ String c b)
  = Some (String.length a).
Proof.
  induction a as [|d a IH]; intros Hocc.
  - cbn [append indexOf_here]. rewrite prefix_single.
    now rewrite Ascii.eqb_refl.
  - simpl in Hocc. apply orb_false_iff in Hocc. destruct Hocc as [Hd Ha].
    cbn [append indexOf_here]. rewrite prefix_single, Hd.
    now rewrite (IH Ha).
Qed.

Lemma indexOf_zero (needle s : string) :
  indexOf needle s 0 = indexOf_here needle s.
Proof.
  unfold indexOf. simpl. now destruct (indexOf_here needle s).
Qed.

Lemma clean_is_fixed (r : string) : clean r -> extractPathname r = r.
Proof.
  intros [Hslash Hq]. unfold extractPathname. rewrite Hslash, indexOf_zero.
  apply indexOf_here_none in Hq. now rewrite Hq.
Qed.

(** Cutting a string that starts with a slash at its first question mark. *)
Lemma cut_is_clean (s : string) :
  starts_with_slash s = true ->
  clean (match indexOf_here "?" s with
         | None => s
         | Some n => take n s
         end).
Proof.
  intros Hslash. destruct (indexOf_here "?" s) as [n|] eqn:E.
  - destruct (indexOf_here_some _ _ E) as [Hocc [rest Hdrop]].
    split; trivial.
    destruct s as [|c s']; try discriminate.
    destruct n as [|n].
    + simpl in Hdrop. injection Hdrop as -> _. discriminate.
    + exact Hslash.
  - split; trivial. now apply indexOf_here_none.
Qed.

Lemma extract_is_clean_or_same (url : string) :
  clean (extractPathname url) \/
  (extractPathname url = url /\ starts_with_slash url = false /\
   indexOf "://" url 0 = None).
Proof.
  unfold extractPathname.
  destruct (starts_with_slash url) eqn:Hslash.
  - left. rewrite indexOf_zero. unfold slice. simpl drop.
    pose proof (cut_is_clean url Hslash) as H.
    destruct (indexOf_here "?" url) as [n|]; trivial.
    now rewrite Nat.sub_0_r.
  - destruct (indexOf "://" url 0) as [protoEnd|] eqn:Hproto.
    + left. unfold indexOf at 1.
      destruct (indexOf_here "/" (drop (protoEnd + 3) url)) as [n|] eqn:Hn;
        simpl option_map; cbv iota.
      * destruct (indexOf_here_some _ _ Hn) as [_ [rest Hdrop]].
        unfold indexOf, slice, slice_from. rewrite drop_add, Hdrop.
        assert (Hs : starts_with_slash (String "/" rest) = true)
          by reflexivity.
        pose proof (cut_is_clean (String "/" rest) Hs) as H.
        destruct (indexOf_here "?" (String "/" rest)) as [k|];
          simpl option_map; cbv iota; trivial.
        replace (protoEnd + 3 + n + k - (protoEnd + 3 + n)) with k
          by (rewrite Nat.add_comm; now rewrite Nat.add_sub).
        exact H.
      * now split.
    + right. now repeat split.
Qed.

(** [extractPathname] is idempotent: the path name of a path name is the
    path name. *)
Theorem extractPathname_is_idempotent (url : string) :
  extractPathname (extractPathname url) = extractPathname url.
Proof.
  destruct (extract_is_clean_or_same url) as [H|[H _]].
  - now apply clean_is_fixed.
  - now rewrite H.
Qed.

(** Of a request target (it starts with a slash) and of a URL with a
    scheme, the path name starts with a slash and holds no question
    mark. *)
Theorem extractPathname_drops_the_query (url : string) :
  starts_with_slash url = true \/ indexOf "://" url 0 <> None ->
  starts_with_slash (extractPathname url) = true /\
  occurs "?" (extractPathname url) = false.
Proof.
  intros H. destruct (extract_is_clean_or_same url) as [Hc|(_ & Hs & Hp)].
  - exact Hc.
  - destruct H as [H|H]; congruence.
Qed.

(** The two extractors take a request target apart: without a fragment it
    is its path name, followed by ["?"] and its query string when it has a
    question mark. *)
Theorem pathname_and_query_make_the_target (url : string) :
  starts_with_slash url = true ->
  occurs "#" url = false ->
  url = extractPathname url
        ++ (if occurs "?" url then "?" ++ extractQueryString url else "").
Proof.
  intros Hslash Hhash. unfold extractPathname, extractQueryString.
  rewrite Hslash, !indexOf_zero.
  destruct (indexOf_here "?" url) as [q|] eqn:E.
  - destruct (indexOf_here_some _ _ E) as [_ [rest Hdrop]].
    assert (Hocc : occurs "?" url = true).
    { destruct (occurs "?" url) eqn:O; trivial.
      apply indexOf_here_none in O. congruence. }
    rewrite Hocc. unfold slice. simpl drop. rewrite Nat.sub_0_r.
    assert (Hnone : indexOf "#" url q = None).
    { unfold indexOf.
      assert (Hd : occurs "#" (drop q url) = false).
      { rewrite <- (take_drop q url) in Hhash.
        rewrite occurs_append in Hhash.
        now apply orb_false_iff in Hhash. }
      apply indexOf_here_none in Hd. now rewrite Hd. }
    rewrite Hnone. unfold slice_from.
    rewrite drop_add, Hdrop. simpl drop.
    change ("?" ++ rest) with (String "?"%char rest).
    rewrite <- Hdrop. symmetry. apply take_drop.
  - apply indexOf_here_none in E. rewrite E.
    clear. induction url as [|c url IH]; simpl; trivial. now rewrite <- IH.
Qed.

Lemma prefix_head (a b : ascii) (p s : string) :
  String.prefix (String a p) (String b s) =
  if Ascii.eqb a b then String.prefix p s else false.
Proof.
  change (String.prefix (String a p) (String b s))
    with (match ascii_dec a b with
          | left _ => String.prefix p s
          | right _ => false
          end).
  destruct (ascii_dec a b) as [->|Hne].
  - now rewrite Ascii.eqb_refl.
  - apply Ascii.eqb_neq in Hne. now rewrite Hne.
Qed.

Lemma indexOf_here_scheme (scheme rest : string) :
  occurs ":" scheme = false ->
  indexOf_here "://" (scheme ++ "://" ++ rest) = Some (String.length scheme).
Proof.
  induction scheme as [|c scheme IH]; intros Hocc.
  - change ("" ++ "://" ++ rest) with (String ":" (String "/" (String "/" rest))).
    cbn [indexOf_here].
    pose proof (prefix_append "://" rest) as Hp.
    change ("://" ++ rest) with (String ":" (String "/" (String "/" rest))) in Hp.
    now rewrite Hp.
  - simpl in Hocc. apply orb_false_iff in Hocc. destruct Hocc as [Hc Hs].
    assert (Hp : String.prefix "://" (String c (scheme ++ "://" ++ rest))
                 = false).
    { rewrite prefix_head, Ascii.eqb_sym. now rewrite Hc. }
    change (String c scheme ++ "://" ++ rest)
      with (String c (scheme ++ "://" ++ rest)).
    cbn [indexOf_here]. rewrite Hp, (IH Hs). reflexivity.
Qed.

(** Of a URL [scheme://host/path?query] the path name is [/path]: the
    scheme holds no colon and no slash, the host no slash, the path starts
    with a slash and holds no question mark. *)
Theorem extractPathname_of_absolute_url (scheme host path query : string) :
  occurs ":" scheme = false ->
  occurs "/" scheme = false ->
  occurs "/" host = false ->
  starts_with_slash path = true ->
  occurs "?" path = false ->
  extractPathname (scheme ++ "://" ++ host ++ path ++ "?" ++ query) = path
  /\ extractPathname (scheme ++ "://" ++ host ++ path) = path
  /\ extractPathname (scheme ++ "://" ++ host) = "/".
Proof.
  intros Hcolon Hslash Hhost Hpath Hq.
  assert (Hstart : forall rest,
             starts_with_slash (scheme ++ "://" ++ rest) = false).
  { intros rest. destruct scheme as [|c scheme]; trivial.
    simpl in Hslash. apply orb_false_iff in Hslash. destruct Hslash as [Hc _].
    simpl. destruct (Nat.eqb (nat_of_ascii c) 47) eqn:E; trivial.
    apply Nat.eqb_eq in E.
    assert (c = "/"%char)
      by (rewrite <- (ascii_nat_embedding c), E; reflexivity).
    subst c. discriminate. }
  assert (Hbody : forall rest,
             drop (String.length scheme + 3) (scheme ++ "://" ++ rest) = rest).
  { intros rest. rewrite drop_add, drop_length_append. reflexivity. }
  destruct path as [|c path']; try discriminate.
  assert (Hc : c = "/"%char).
  { simpl in Hpath. apply Nat.eqb_eq in Hpath.
    rewrite <- (ascii_nat_embedding c), Hpath. reflexivity. }
  subst c.
  assert (Hhead : forall tail,
             extractPathname
               (scheme ++ "://" ++ host ++ String "/" path' ++ tail)
             = match indexOf_here "?" (String "/" path' ++ tail) with
               | None => String "/" path' ++ tail
               | Some k => take k (String "/" path' ++ tail)
               end).
  { intros tail.
    change (String "/" path' ++ tail) with (String "/" (path' ++ tail)).
    unfold extractPathname.
    rewrite Hstart, indexOf_zero, (indexOf_here_scheme _ _ Hcolon).
    unfold indexOf at 1. rewrite Hbody.
    rewrite (indexOf_here_append _ _ _ Hhost). simpl option_map. cbv iota.
    unfold indexOf, slice, slice_from.
    rewrite drop_add, Hbody, drop_length_append.
    destruct (indexOf_here "?" (String "/" (path' ++ tail))) as [k|];
      simpl option_map; cbv iota; trivial.
    replace (String.length scheme + 3 + String.length host + k
             - (String.length scheme + 3 + String.length host)) with k
      by (rewrite Nat.add_comm; now rewrite Nat.add_sub).
    reflexivity. }
  split; [|split].
  - rewrite (Hhead ("?" ++ query)).
    change (String "/" path' ++ "?" ++ query)
      with (String "/" path' ++ String "?" query).
    rewrite (indexOf_here_append _ _ _ Hq).
    apply take_length_append.
  - assert (Hnil : String "/" path' = String "/" path' ++ "").
    { clear. induction (String "/" path') as [|d r IH]; simpl; trivial.
      now rewrite <- IH. }
    rewrite Hnil at 1. rewrite (Hhead "").
    rewrite <- Hnil.
    apply indexOf_here_none in Hq. now rewrite Hq.
  - unfold extractPathname.
    rewrite Hstart, indexOf_zero, (indexOf_here_scheme _ _ Hcolon).
    unfold indexOf. rewrite Hbody.
    apply indexOf_here_none in Hhost. now rewrite Hhost.
Qed.

End Urls.

(** [/users?page=2]: path name and query string. *)
Lemma pathname_and_query_make_the_target_witness :
  extractPathname "/users?page=2" = "/users" /\
  extractQueryString "/users?page=2" = "page=2" /\
  "/users?page=2"
  = extractPathname "/users?page=2" ++ "?"
    ++ extractQueryString "/users?page=2".
Proof.
  split; [reflexivity|]. split; [reflexivity|].
  exact (pathname_and_query_make_the_target "/users?page=2" eq_refl eq_refl).
Defined.

(** The URL of a request as the server gives it. *)
Lemma extractPathname_of_absolute_url_witness :
  extractPathname "http://localhost:3000/users/42?full=1" = "/users/42".
Proof.
  exact (proj1 (extractPathname_of_absolute_url
                  "http" "localhost:3000" "/users/42" "full=1"
                  eq_refl eq_refl eq_refl eq_refl eq_refl)).
Defined.

(** A URL with a scheme and no path. *)
Lemma extractPathname_drops_the_query_witness :
  indexOf "://" "http://localhost?x=1" 0 <> None /\
  starts_with_slash (extractPathname "http://localhost?x=1") = true /\
  occurs "?" (extractPathname "http://localhost?x=1") = false.
Proof.
  assert (H : indexOf "://" "http://localhost?x=1" 0 <> None)
    by discriminate.
  split; [exact H|].
  exact (extractPathname_drops_the_query "http://localhost?x=1"
           (or_intror H)).
Defined.

(* ------------------------------------------------------------------ *)
(** ** Segments of a route path *)

Section Segments.

Lemma split_slash_not_nil (s : string) : split_slash s <> [].
Proof.
  induction s as [|c rest IH]; simpl; try discriminate.
  destruct (Ascii.eqb c "/"); try discriminate.
  destruct (split_slash rest); discriminate.
Qed.

Lemma split_slash_free (s seg : string) :
  In seg (split_slash s) -> occurs "/" seg = false.
Proof.
  revert seg. induction s as [|c rest IH]; intros seg; simpl.
  - intros [<-|[]]. reflexivity.
  - destruct (Ascii.eqb c "/") eqn:E.
    + intros [<-|H]; [reflexivity | now apply IH].
    + destruct (split_slash rest) as [|first others] eqn:S.
      * intros [<-|[]]. simpl. now rewrite E.
      * intros [<-|H].
        -- simpl. rewrite E. apply IH. now left.
        -- apply IH. now right.
Qed.

Lemma split_slash_whole (a : string) :
  occurs "/" a = false -> split_slash a = [a].
Proof.
  induction a as [|c a IH]; simpl; trivial.
  intros H. apply orb_false_iff in H. destruct H as [Hc Ha].
  rewrite Hc, (IH Ha). reflexivity.
Qed.

Lemma split_slash_append (a b : string) :
  occurs "/" a = false ->
  split_slash (a ++ String "/" b) = a :: split_slash b.
Proof.
  induction a as [|c a IH]; simpl; trivial.
  intros H. apply orb_false_iff in H. destruct H as [Hc Ha].
  rewrite Hc, (IH Ha). reflexivity.
Qed.

Lemma split_slash_join (segs : list string) :
  segs <> [] ->
  Forall (fun seg => occurs "/" seg = false) segs ->
  split_slash (join "/" segs) = segs.
Proof.
  unfold join. induction segs as [|seg rest IH]; [congruence|].
  intros _ Hall. inversion Hall as [|? ? Hseg Hrest]; subst.
  destruct rest as [|next rest'].
  - simpl. now apply split_slash_whole.
  - change (String.concat "/" (seg :: next :: rest'))
      with (seg ++ String "/" (String.concat "/" (next :: rest'))).
    rewrite (split_slash_append _ _ Hseg). f_equal.
    apply IH; [discriminate | exact Hrest].
Qed.

(** No segment of [splitPath] is empty and none holds a slash. *)
Theorem splitPath_segments_are_proper (path seg : string) :
  In seg (splitPath path) -> seg <> "" /\ occurs "/" seg = false.
Proof.
  unfold splitPath. intros H. apply filter_In in H. destruct H as [Hin Hne].
  split.
  - intros ->. discriminate.
  - now apply (split_slash_free path).
Qed.

Lemma filter_proper (segs : list string) :
  Forall (fun seg => seg <> "" /\ occurs "/" seg = false) segs ->
  filter (fun seg => negb (is_empty seg)) segs = segs.
Proof.
  induction 1 as [|seg rest [Hne _] _ IH]; simpl; trivial.
  destruct seg; [congruence|]. simpl. now rewrite IH.
Qed.

Lemma splitPath_join (segs : list string) :
  Forall (fun seg => seg <> "" /\ occurs "/" seg = false) segs ->
  splitPath ("/" ++ join "/" segs) = segs.
Proof.
  intros Hall. unfold splitPath.
  change ("/" ++ join "/" segs) with (String "/" (join "/" segs)).
  cbn [split_slash]. rewrite Ascii.eqb_refl. cbn [filter is_empty negb].
  destruct segs as [|seg rest].
  - reflexivity.
  - rewrite split_slash_join.
    + now apply filter_proper.
    + discriminate.
    + eapply Forall_impl; [|exact Hall]. now intros a [_ H].
Qed.

(** Joining proper segments behind a slash and splitting again gives the
    segments back; so the path made of the segments of a path splits like
    the path, whatever slashes the path doubled or ended with. *)
Theorem splitPath_inverts_join (segs : list string) (path : string) :
  (Forall (fun seg => seg <> "" /\ occurs "/" seg = false) segs ->
   splitPath ("/" ++ join "/" segs) = segs)
  /\ splitPath ("/" ++ join "/" (splitPath path)) = splitPath path.
Proof.
  split; [apply splitPath_join|].
  apply splitPath_join. apply Forall_forall.
  intros seg Hin. unfold splitPath in Hin. apply filter_In in Hin.
  destruct Hin as [Hin Hne]. split.
  - intros ->. discriminate.
  - now apply (split_slash_free path).
Qed.

End Segments.

(** The segments of [//users//42/]. *)
Lemma splitPath_segments_are_proper_witness :
  splitPath "//users//42/" = ["users"; "42"] /\
  "42" <> "" /\ occurs "/" "42" = false.
Proof.
  split; [reflexivity|].
  apply (splitPath_segments_are_proper "//users//42/" "42").
  right. now left.
Defined.

(** Two proper segments, joined and split. *)
Lemma splitPath_inverts_join_witness :
  splitPath ("/" ++ join "/" ["users"; "42"]) = ["users"; "42"].
Proof.
  apply (proj1 (splitPath_inverts_join ["users"; "42"] "")).
  repeat constructor; discriminate.
Defined.

(* ------------------------------------------------------------------ *)
(** ** Named routes *)

Section NamedRoutes.

Context {host : Host}.

Lemma url_segments_spec (name : string)
  (params : option (list (string * string))) (segments : list string) :
  forall result,
    match supply_all params (filter (fun seg => negb (is_empty seg)) segments)
    with
    | Some values =>
        url_segments name segments params result
        = Return (result ++ values)%list
    | None =>
        exists msg, url_segments name segments params result
                    = Raise (ThrowOther msg)
    end.
Proof.
  induction segments as [|seg rest IH]; intros result.
  - simpl. now rewrite app_nil_r.
  - cbn [url_segments filter].
    destruct (is_empty seg) eqn:E; cbn [negb].
    + apply IH.
    + cbn [supply_all]. unfold supplied.
      destruct (String.eqb seg "*").
      * destruct (url_param params "*") as [value|].
        -- specialize (IH (result ++ [value])%list).
           destruct (supply_all params _); trivial.
           rewrite IH. now rewrite <- app_assoc.
        -- now eexists.
      * destruct (is_param seg).
        -- cbv zeta.
           destruct (url_param params (slice_from seg 1)) as [value|].
           ++ specialize (IH (result ++ [value])%list).
              destruct (supply_all params _); trivial.
              rewrite IH. now rewrite <- app_assoc.
           ++ now eexists.
        -- specialize (IH (result ++ [seg])%list).
           destruct (supply_all params _); trivial.
           rewrite IH. now rewrite <- app_assoc.
Qed.

(** An own property of [params] is what [Router.url] reads. *)
Lemma url_param_own (params : option (list (string * string)))
  (key value : string) :
  param_value params key = Some value -> url_param params key = Some value.
Proof.
  unfold param_value, url_param. destruct params as [ps|]; try discriminate.
  intros H. now rewrite obj_get_object, get_strings, H.
Qed.

(** A key that is no own property and that [Object.prototype] has not
    reads as [undefined]. *)
Lemma url_param_missing (params : option (list (string * string)))
  (key : string) :
  param_value params key = None -> Object_prototype_has key = false ->
  url_param params key = None.
Proof.
  unfold param_value, url_param. destruct params as [ps|]; trivial.
  intros H Hno.
  now rewrite obj_get_object, get_strings, H, (not_inherited _ Hno).
Qed.

Lemma supply_own (params : option (list (string * string)))
  (segments values : list string) :
  fill_all params segments = Some values ->
  supply_all params segments = Some values.
Proof.
  revert values. induction segments as [|seg rest IH]; intros values; simpl.
  - trivial.
  - destruct (filled params seg) as [value|] eqn:F; try discriminate.
    destruct (fill_all params rest) as [values'|]; try discriminate.
    intros [= <-]. rewrite (IH values' eq_refl).
    assert (Hs : supplied params seg = Some value).
    { unfold filled in F. unfold supplied.
      destruct (String.eqb seg "*"); [now apply url_param_own|].
      destruct (is_param seg); [now apply url_param_own | exact F]. }
    now rewrite Hs.
Qed.

(** Where no parameter is named like a property of [Object.prototype],
    what [Router.url] finds are the own properties of [params]. *)
Lemma supply_is_fill (params : option (list (string * string)))
  (segments : list string) :
  (forall key, In key (param_names segments) ->
               Object_prototype_has key = false) ->
  supply_all params segments = fill_all params segments.
Proof.
  assert (Hread : forall key, Object_prototype_has key = false ->
                              url_param params key = param_value params key).
  { intros key Hno. destruct (param_value params key) as [value|] eqn:E.
    - now apply url_param_own.
    - now apply url_param_missing. }
  induction segments as [|seg rest IH]; intros Hnames; simpl; trivial.
  assert (Hseg : supplied params seg = filled params seg).
  { unfold supplied, filled.
    destruct (String.eqb seg "*"); [now apply Hread|].
    destruct (is_param seg) eqn:Hp; trivial.
    apply Hread, Hnames. unfold param_names. cbn [filter]. rewrite Hp.
    now left. }
  rewrite Hseg, IH; trivial.
  intros key Hin. apply Hnames. unfold param_names in *. cbn [filter].
  destruct (is_param seg); trivial. now right.
Qed.

(** [Router.url] returns exactly for a registered name all of whose
    parameters [params?.[key]] finds, as an own property of [params] or as a
    property of [Object.prototype]; it then returns a slash followed by the
    segments of the pattern, each parameter replaced by the text of what was
    found, joined by slashes.  In every other case it throws.  Where no
    parameter of the pattern is named like a property of [Object.prototype],
    what is found are the own properties of [params]. *)
Theorem url_returns_the_filled_pattern (names : list (string * string))
  (name : string) (params : option (list (string * string))) (u : string) :
  (Router_url names name params = Return u <->
   exists pattern values,
     get names name = Some pattern /\
     supply_all params (splitPath pattern) = Some values /\
     u = "/" ++ join "/" values)
  /\
  forall pattern,
    get names name = Some pattern ->
    (forall key, In key (param_names (splitPath pattern)) ->
                 Object_prototype_has key = false) ->
    supply_all params (splitPath pattern) = fill_all params (splitPath pattern).
Proof.
  split; [|intros pattern _; apply supply_is_fill].
  unfold Router_url, splitPath. split.
  - destruct (get names name) as [pattern|]; try discriminate.
    pose proof (url_segments_spec name params (split_slash pattern) []) as H.
    destruct (supply_all params _) as [values|] eqn:F.
    + rewrite H. cbn [bind app]. intros [= <-].
      exists pattern, values. now repeat split.
    + destruct H as [msg ->]. discriminate.
  - intros (pattern & values & -> & Hfill & ->).
    pose proof (url_segments_spec name params (split_slash pattern) []) as H.
    rewrite Hfill in H. now rewrite H.
Qed.

(** The URL of a route splits into the segments of its pattern with the
    parameters replaced, when the values are proper segments (not empty,
    without a slash). *)
Theorem url_splits_like_the_pattern (names : list (string * string))
  (name : string) (params : option (list (string * string))) (u : string)
  (pattern : string) (values : list string) :
  Router_url names name params = Return u ->
  get names name = Some pattern ->
  fill_all params (splitPath pattern) = Some values ->
  Forall (fun seg => seg <> "" /\ occurs "/" seg = false) values ->
  splitPath u = values.
Proof.
  intros Hurl Hname Hfill Hproper.
  unfold Router_url, splitPath in Hurl, Hfill. rewrite Hname in Hurl.
  pose proof (url_segments_spec name params (split_slash pattern) []) as H.
  rewrite (supply_own _ _ Hfill) in H. rewrite H in Hurl.
  cbn [bind app] in Hurl.
  injection Hurl as <-. now apply splitPath_join.
Qed.

Lemma get_append_new (A : Type) (l : list (string * A)) (k key : string)
  (x : A) :
  get (l ++ [(key, x)])%list k =
  match get l k with
  | Some y => Some y
  | None => if String.eqb key k then Some x else None
  end.
Proof.
  induction l as [|[k0 y] rest IH]; simpl; trivial.
  now destruct (String.eqb k0 k).
Qed.

(** Route names are written once: [setName] binds a fresh name and leaves
    the others as they are, and throws on a name that is bound, so a bound
    name keeps its path. *)
Theorem setName_never_overwrites (names : list (string * string))
  (name path : string) :
  (get names name = None ->
   exists names',
     Router_setName names name path = Return names' /\
     get names' name = Some path /\
     (forall other, other <> name -> get names' other = get names other) /\
     (forall path', exists msg,
         Router_setName names' name path' = Raise (ThrowOther msg)))
  /\
  (get names name <> None ->
   exists msg, Router_setName names name path = Raise (ThrowOther msg)).
Proof.
  unfold Router_setName. split.
  - intros Hfree. rewrite Hfree. eexists. split; [reflexivity|].
    assert (Hbound : get (names ++ [(name, path)])%list name = Some path).
    { rewrite get_append_new, Hfree. now rewrite String.eqb_refl. }
    repeat split.
    + exact Hbound.
    + intros other Hne. rewrite get_append_new.
      destruct (get names other); trivial.
      destruct (String.eqb name other) eqn:E; trivial.
      apply String.eqb_eq in E. congruence.
    + intros path'. rewrite Hbound. now eexists.
  - intros Hbound. destruct (get names name); [now eexists | congruence].
Qed.

End NamedRoutes.

(** The route [/users/:id] named [user], with [id = 42]. *)
Lemma url_returns_the_filled_pattern_witness :
  Router_url [("user", "/users/:id")] "user" (Some [("id", "42")])
  = Return "/users/42".
Proof.
  apply (proj2 (proj1 (url_returns_the_filled_pattern
                         [("user", "/users/:id")] "user" (Some [("id", "42")])
                         "/users/42"))).
  exists "/users/:id", ["users"; "42"]. repeat split.
Defined.

(** A parameter named like a method of [Object.prototype] is found there
    when [params] lacks it, and [Router.url] does not throw. *)
Example url_reads_inherited_properties :
  Router_url [("made", "/made/:constructor")] "made" (Some [])
  = Return "/made/function Object() { [native code] }"
  /\
  exists msg,
    Router_url [("user", "/users/:id")] "user" (Some []) = Raise (ThrowOther msg).
Proof. split; [reflexivity | now eexists]. Qed.

Lemma url_splits_like_the_pattern_witness :
  Router_url [("user", "/users/:id")] "user" (Some [("id", "42")])
  = Return "/users/42"
  /\ splitPath "/users/42" = ["users"; "42"].
Proof.
  split; [reflexivity|].
  apply (@url_splits_like_the_pattern decimal_host
           [("user", "/users/:id")] "user"
           (Some [("id", "42")]) "/users/42" "/users/:id" ["users"; "42"]
           eq_refl eq_refl eq_refl).
  repeat constructor; discriminate.
Defined.

Lemma setName_never_overwrites_witness :
  get [("home", "/")] "user" = None /\
  exists names',
    Router_setName [("home", "/")] "user" "/users/:id" = Return names' /\
    get names' "user" = Some "/users/:id".
Proof.
  split; [reflexivity|].
  destruct (proj1 (setName_never_overwrites [("home", "/")] "user"
                     "/users/:id") eq_refl)
    as (names' & Hset & Hget & _).
  now exists names'.
Defined.

(* ------------------------------------------------------------------ *)
(** ** The routing trie *)

Section ParamState.

Context {host : Host}.

Lemma assign_value (props : list (string * value)) (key : string) (v : value) :
  key <> "__proto__" ->
  obj_assign (VObject props) key v = VObject (put props key v).
Proof.
  intros Hne. apply String.eqb_neq in Hne.
  unfold obj_assign, from_Object_prototype. rewrite Hne.
  destruct (get props key); trivial.
  now destruct (get Object_prototype key).
Qed.

Lemma param_state_proto (props : list (string * value)) :
  param_state props -> get props "__proto__" = None.
Proof.
  intros Hps. apply get_none_notin. intros x Hin.
  now destruct (Hps _ _ Hin) as [Hne _].
Qed.

Lemma param_state_set (props : list (string * value)) (key : string)
  (v : value) :
  param_state props -> key <> "__proto__" -> is_text_or_function v = true ->
  param_state (put props key v).
Proof.
  intros Hps Hne Hv k x Hin. apply put_in in Hin.
  destruct Hin as [[-> ->]|Hin]; [now split | now apply Hps].
Qed.

Lemma param_state_delete (props : list (string * value)) (key : string) :
  param_state props -> param_state (obj_delete props key).
Proof.
  intros Hps k x Hin. unfold obj_delete in Hin. apply filter_In in Hin.
  now apply Hps.
Qed.

Lemma param_state_segment (props : list (string * value)) (key seg : string) :
  param_state props -> param_state (assign_primitive props key (VString seg)).
Proof.
  intros Hps. unfold assign_primitive.
  destruct (get props key) as [w|] eqn:G.
  - apply param_state_set; trivial.
    apply get_in in G. now destruct (Hps _ _ G).
  - destruct (String.eqb key "__proto__") eqn:E; trivial.
    apply param_state_set; trivial. now apply String.eqb_neq.
Qed.

Lemma defined_param (v : value) :
  is_text_or_function v = true -> is_undefined v = false.
Proof. now destruct v. Qed.

(** After the backtracking the parameters are an object of the same kind. *)
Lemma backtrack_state (props1 props2 : list (string * value)) (key : string) :
  param_state props1 -> param_state props2 ->
  exists props3,
    backtrack (VObject props2) key (obj_get (VObject props1) key)
    = VObject props3 /\ param_state props3.
Proof.
  intros H1 H2. rewrite obj_get_object. unfold backtrack.
  destruct (get props1 key) as [v|] eqn:G1.
  - apply get_in in G1. destruct (H1 _ _ G1) as [Hne Hv].
    rewrite (defined_param _ Hv), (assign_value _ _ Hne).
    eexists. split; [reflexivity|]. now apply param_state_set.
  - unfold from_Object_prototype.
    destruct (get Object_prototype key) as [v|] eqn:GO.
    + destruct (Object_prototype_functions _ GO) as [f ->].
      assert (Hne : key <> "__proto__") by (intros ->; discriminate GO).
      cbn [is_undefined]. rewrite (assign_value _ _ Hne).
      eexists. split; [reflexivity|]. now apply param_state_set.
    + destruct (String.eqb key "__proto__") eqn:E.
      * apply String.eqb_eq in E. subst key. cbn [is_undefined].
        exists props2. split; trivial.
        unfold obj_assign. now rewrite (param_state_proto H2).
      * cbn [is_undefined obj_remove].
        eexists. split; [reflexivity|]. now apply param_state_delete.
Qed.

End ParamState.

Section Routing.

Variable H : Type.

Context {host : Host}.

Lemma static_segment_tests (seg : string) :
  static_segment seg = true ->
  is_param seg = false /\ String.eqb seg "*" = false.
Proof.
  unfold static_segment. intros Hs. apply andb_true_iff in Hs.
  destruct Hs as [Hp Hw]. now rewrite negb_true_iff in Hp, Hw.
Qed.

Lemma match_static_after_add (segments : list string) (method path : string)
  (handler : H) (params : value) :
  Forall (fun seg => static_segment seg = true) segments ->
  forall node : Node H,
    matchNode segments (add_loop segments node method path handler)
              (toUpperCase method) params
    = (Some (handler, Some path), params).
Proof.
  induction 1 as [|seg rest Hseg _ IH]; intros [s c pc wc n h p].
  - simpl. now rewrite !get_set, String.eqb_refl.
  - destruct (static_segment_tests _ Hseg) as [Hp Hw].
    cbn [add_loop]. rewrite Hp, Hw. cbv zeta.
    cbn [matchNode children]. rewrite get_set, String.eqb_refl.
    now rewrite IH.
Qed.

(** A route whose path has only static segments is found once it is
    registered, whatever else the trie holds: a request for its method (in
    any case of letters) whose path name splits into the same segments gets
    its handler and its path, and no parameters.  Registering the path again
    replaces the handler. *)
Theorem static_route_is_matched (root : Node H) (method method' path url : string)
  (handler : H) :
  Forall (fun seg => static_segment seg = true) (splitPath path) ->
  splitPath (extractPathname url) = splitPath path ->
  toUpperCase method' = toUpperCase method ->
  Router_match (Router_add root method path handler) method' url
  = Some (handler, Some path, []).
Proof.
  intros Hstatic Hsame Hmethod. unfold Router_match, Router_add.
  rewrite Hsame, Hmethod. now rewrite match_static_after_add.
Qed.

(** A node without children and handlers matches nothing, and leaves the
    parameters as they are. *)
Lemma match_bare_node (s : string) (n : option string) (segments : list string)
  (method : string) (params : value) :
  matchNode segments (mkNode (H := H) s [] None None n [] []) method params
  = (None, params).
Proof. now destruct segments. Qed.

Lemma add_loop_paramName (segments : list string) (node : Node H)
  (method path : string) (handler : H) :
  paramName (add_loop segments node method path handler) = paramName node.
Proof.
  destruct node as [s c pc wc n h p].
  destruct segments as [|seg rest]; cbn [add_loop set_handler]; trivial.
  destruct (is_param seg); trivial. now destruct (String.eqb seg "*").
Qed.

(** *** The parameters stay an object of segments *)

Lemma or_else_leaves (first : option (found H) * value)
  (next : value -> option (found H) * value) :
  leaves_params first ->
  (forall props, param_state props -> leaves_params (next (VObject props))) ->
  leaves_params (or_else first next).
Proof.
  destruct first as [[result|] params]; intros [props [Hsnd Hps]] Hnext;
    simpl in *.
  - now exists props.
  - subst params. now apply Hnext.
Qed.

Lemma param_try_leaves (child : value -> option (found H) * value)
  (name seg : string) (props : list (string * value)) :
  param_state props ->
  (forall props', param_state props' -> leaves_params (child (VObject props'))) ->
  leaves_params (param_try child name seg (VObject props)).
Proof.
  intros Hps Hchild. unfold param_try. cbv zeta.
  rewrite assign_primitive_spec by reflexivity.
  destruct (Hchild _ (param_state_segment name seg Hps))
    as [props2 [Hsnd Hps2]].
  destruct (child (VObject (assign_primitive props name (VString seg))))
    as [[result|] params]; simpl in Hsnd; subst params.
  - now exists props2.
  - exact (backtrack_state name Hps Hps2).
Qed.

Lemma wildcard_try_leaves (child : option (Node H)) (method rest : string)
  (props : list (string * value)) :
  param_state props ->
  leaves_params (wildcard_try child method rest (VObject props)).
Proof.
  intros Hps. unfold wildcard_try.
  destruct child as [child|]; [|now exists props].
  destruct (get (handlers child) method); [|now exists props].
  rewrite assign_primitive_spec by reflexivity.
  eexists. split; [reflexivity|]. now apply param_state_segment.
Qed.

Lemma matchNode_leaves (segments : list string) :
  forall (node : Node H) (method : string) (props : list (string * value)),
    param_state props ->
    leaves_params (matchNode segments node method (VObject props)).
Proof.
  induction segments as [|seg rest IH]; intros node method props Hps;
    cbn [matchNode].
  - destruct (get (handlers node) method); now exists props.
  - apply or_else_leaves.
    + destruct (get (children node) seg); [now apply IH | now exists props].
    + intros props1 Hps1. apply or_else_leaves.
      * destruct (paramChild node) as [child|]; [|now exists props1].
        apply param_try_leaves; trivial. intros props' Hps'. now apply IH.
      * intros props2 Hps2. now apply wildcard_try_leaves.
Qed.

(** *** Another route for another method *)

Lemma or_else_ext (first : option (found H) * value)
  (next next' : value -> option (found H) * value) :
  leaves_params first ->
  (forall props, param_state props ->
                 next (VObject props) = next' (VObject props)) ->
  or_else first next = or_else first next'.
Proof.
  destruct first as [[result|] params]; intros [props [Hsnd Hps]] Hnext;
    simpl in *; trivial.
  subst params. now apply Hnext.
Qed.

Lemma param_try_ext (child child' : value -> option (found H) * value)
  (name seg : string) (props : list (string * value)) :
  param_state props ->
  (forall props', param_state props' ->
                  child (VObject props') = child' (VObject props')) ->
  param_try child name seg (VObject props)
  = param_try child' name seg (VObject props).
Proof.
  intros Hps Hchild. unfold param_try. cbv zeta.
  rewrite assign_primitive_spec by reflexivity.
  now rewrite (Hchild _ (param_state_segment name seg Hps)).
Qed.

(** A parameter child that matches nothing leaves the parameters as they
    were, when its name is not the name of a method of
    [Object.prototype]. *)
Lemma param_try_nothing (child : value -> option (found H) * value)
  (name seg : string) (props : list (string * value)) :
  param_state props ->
  get Object_prototype name = None ->
  (forall props', param_state props' ->
                  child (VObject props') = (None, VObject props')) ->
  param_try child name seg (VObject props) = (None, VObject props).
Proof.
  intros Hps Hno Hchild. unfold param_try. cbv zeta.
  rewrite assign_primitive_spec by reflexivity.
  rewrite (Hchild _ (param_state_segment name seg Hps)).
  f_equal. rewrite obj_get_object. unfold backtrack, assign_primitive.
  destruct (get props name) as [v|] eqn:G.
  - pose proof (get_in _ _ G) as Hin. destruct (Hps _ _ Hin) as [Hne Hv].
    rewrite (defined_param _ Hv), (assign_value _ _ Hne).
    now rewrite put_restore by exact G.
  - unfold from_Object_prototype. rewrite Hno.
    destruct (String.eqb name "__proto__") eqn:E.
    + apply String.eqb_eq in E. subst name. cbn [is_undefined].
      unfold obj_assign. now rewrite G.
    + cbn [is_undefined obj_remove]. now rewrite obj_delete_put by exact G.
Qed.

Lemma add_keeps_other_methods (segments : list string) (method path : string)
  (handler : H) (other : string) :
  toUpperCase method <> other ->
  (forall name, In name (param_names segments) ->
                get Object_prototype name = None) ->
  forall (node : Node H) segments' props,
    param_state props ->
    matchNode segments' (add_loop segments node method path handler)
              other (VObject props)
    = matchNode segments' node other (VObject props).
Proof.
  intros Hne. apply String.eqb_neq in Hne.
  induction segments as [|seg rest IH];
    intros Hnames [s c pc wc n h p] segments' props Hps.
  - cbn [add_loop set_handler].
    destruct segments' as [|seg' rest']; cbn [matchNode handlers paths children
                                              paramChild wildcardChild]; trivial.
    now rewrite !get_set, Hne.
  - cbn [add_loop].
    destruct (is_param seg) eqn:Hp; [|destruct (String.eqb seg "*")].
    + assert (Hrest : forall name, In name (param_names rest) ->
                                   get Object_prototype name = None).
      { intros name Hin. apply Hnames. unfold param_names. cbn [filter].
        rewrite Hp. now right. }
      assert (Hseg : get Object_prototype (slice_from seg 1) = None).
      { apply Hnames. unfold param_names. cbn [filter]. rewrite Hp. now left. }
      cbv zeta.
      destruct segments' as [|seg' rest']; cbn [matchNode handlers paths children
                                                paramChild wildcardChild]; trivial.
      apply or_else_ext.
      { destruct (get c seg'); [now apply matchNode_leaves | now exists props]. }
      intros props1 Hps1. f_equal.
      unfold param_key at 1. rewrite add_loop_paramName.
      destruct pc as [child|].
      * apply param_try_ext; trivial.
        intros props' Hps'. now apply IH.
      * cbn [paramName]. apply param_try_nothing; trivial.
        intros props' Hps'. rewrite IH by trivial. apply match_bare_node.
    + assert (Hrest : forall name, In name (param_names rest) ->
                                   get Object_prototype name = None).
      { intros name Hin. apply Hnames. unfold param_names. cbn [filter].
        now rewrite Hp. }
      cbv zeta.
      destruct segments' as [|seg' rest']; cbn [matchNode handlers paths children
                                                paramChild wildcardChild]; trivial.
      apply or_else_ext.
      { destruct (get c seg'); [now apply matchNode_leaves | now exists props]. }
      intros props1 Hps1. apply or_else_ext.
      { destruct pc as [child|]; [|now exists props1].
        apply param_try_leaves; trivial.
        intros props' Hps'. now apply matchNode_leaves. }
      intros props2 Hps2. unfold wildcard_try.
      destruct wc as [[s' c' pc' wc' n' h' p']|];
        cbn [set_handler new_Node handlers paths];
        now rewrite !get_set, Hne.
    + assert (Hrest : forall name, In name (param_names rest) ->
                                   get Object_prototype name = None).
      { intros name Hin. apply Hnames. unfold param_names. cbn [filter].
        now rewrite Hp. }
      cbv zeta.
      destruct segments' as [|seg' rest']; cbn [matchNode handlers paths children
                                                paramChild wildcardChild]; trivial.
      rewrite get_set.
      destruct (String.eqb seg seg') eqn:E; trivial.
      apply String.eqb_eq in E. subst seg'. rewrite IH by trivial.
      destruct (get c seg) as [child|]; trivial.
      unfold new_Node. now rewrite match_bare_node.
Qed.

Lemma param_state_nil : param_state [].
Proof. intros k v []. Qed.

(** Registering a route for one method never changes what a request for
    another method matches, when no parameter of the route is named like a
    method of [Object.prototype]. *)
Theorem add_keeps_other_methods_routes (root : Node H)
  (method method' path url : string) (handler : H) :
  toUpperCase method <> toUpperCase method' ->
  (forall name, In name (param_names (splitPath path)) ->
                get Object_prototype name = None) ->
  Router_match (Router_add root method path handler) method' url
  = Router_match root method' url.
Proof.
  intros Hne Hnames. unfold Router_match, Router_add.
  now rewrite add_keeps_other_methods by (trivial; apply param_state_nil).
Qed.

End Routing.

Section SingleRoute.

Variable H : Type.

Context {host : Host}.

(** On parameters that are segments, [params[name] = seg] is
    [bind_param]. *)
Lemma assign_strings (params : list (string * string)) (name seg : string) :
  obj_assign (VObject (strings params)) name (VString seg)
  = VObject (strings (bind_param params name seg)).
Proof.
  rewrite assign_primitive_spec by reflexivity. f_equal.
  unfold assign_primitive, bind_param. rewrite get_strings.
  destruct (get params name); cbn [option_map].
  - apply put_strings.
  - destruct (String.eqb name "__proto__"); trivial. apply put_strings.
Qed.

Lemma single_route (pattern : list string) (method path : string)
  (handler : H) :
  forall (s : string) (n : option string) segments params,
    match bound pattern segments params with
    | Some params' =>
        matchNode segments
          (add_loop pattern (mkNode s [] None None n [] []) method path handler)
          (toUpperCase method) (VObject (strings params))
        = (Some (handler, Some path), VObject (strings params'))
    | None =>
        fst (matchNode segments
               (add_loop pattern (mkNode s [] None None n [] []) method path
                  handler)
               (toUpperCase method) (VObject (strings params)))
        = None
    end.
Proof.
  induction pattern as [|p pattern' IH]; intros s n segments params.
  - cbn [add_loop set_handler set]. destruct segments as [|seg rest].
    + cbn [matchNode handlers paths get bound].
      now rewrite String.eqb_refl.
    + reflexivity.
  - cbn [add_loop]. destruct segments as [|seg rest].
    + cbn [bound].
      destruct (is_param p); [|destruct (String.eqb p "*")]; reflexivity.
    + cbn [bound]. destruct (is_param p) eqn:Hp.
      * cbv zeta. cbn [matchNode children paramChild wildcardChild get or_else].
        unfold param_key. rewrite add_loop_paramName. cbn [paramName].
        unfold param_try. cbv zeta. rewrite assign_strings.
        specialize (IH p (Some (slice_from p 1)) rest
                      (bind_param params (slice_from p 1) seg)).
        destruct (bound pattern' rest (bind_param params (slice_from p 1) seg)).
        -- now rewrite IH.
        -- destruct (matchNode rest _ _ _) as [[result|] params'];
             [discriminate | reflexivity].
      * destruct (String.eqb p "*") eqn:Hw.
        -- cbv zeta.
           cbn [matchNode children paramChild wildcardChild get new_Node
                set_handler handlers paths set or_else wildcard_try].
           rewrite String.eqb_refl. now rewrite assign_strings.
        -- cbv zeta.
           cbn [matchNode children paramChild wildcardChild get set].
           destruct (String.eqb p seg) eqn:E.
           ++ unfold new_Node.
              specialize (IH p None rest params).
              destruct (bound pattern' rest params).
              ** now rewrite IH.
              ** destruct (matchNode rest _ _ _) as [[result|] params'];
                   [discriminate | reflexivity].
           ++ reflexivity.
Qed.

Lemma get_bind_param (params : list (string * string)) (name seg k : string) :
  get (bind_param params name seg) k =
  if String.eqb name k then
    match get params k with
    | Some _ => Some seg
    | None => if String.eqb k "__proto__" then None else Some seg
    end
  else get params k.
Proof.
  unfold bind_param.
  destruct (String.eqb name k) eqn:E.
  - apply String.eqb_eq in E. subst k.
    destruct (get params name) eqn:G.
    + now rewrite get_put, String.eqb_refl.
    + destruct (String.eqb name "__proto__"); trivial.
      now rewrite get_put, String.eqb_refl.
  - destruct (get params name).
    + now rewrite get_put, E.
    + destruct (String.eqb name "__proto__"); trivial.
      now rewrite get_put, E.
Qed.

Lemma bind_param_nodup (params : list (string * string)) (name seg : string) :
  NoDup (map fst params) -> NoDup (map fst (bind_param params name seg)).
Proof.
  intros Hnd. unfold bind_param.
  destruct (get params name); [now apply put_nodup|].
  destruct (String.eqb name "__proto__"); trivial. now apply put_nodup.
Qed.

Lemma get_app_last (A : Type) (l : list (string * A)) (key k : string) (x : A) :
  get (l ++ [(key, x)])%list k =
  match get l k with
  | Some y => Some y
  | None => if String.eqb key k then Some x else None
  end.
Proof.
  induction l as [|[k0 y] rest IH]; simpl; trivial.
  now destruct (String.eqb k0 k).
Qed.

(** The parameters bound one after the other: a later segment replaces an
    earlier one of the same name, and [__proto__] is bound to nothing. *)
Lemma get_bind_all (pairs : list (string * string)) :
  forall params,
    get params "__proto__" = None ->
    forall k,
      get (fold_left (fun ps b => bind_param ps (fst b) (snd b)) pairs params) k
      = if String.eqb k "__proto__" then None
        else match get (rev pairs) k with
             | Some seg => Some seg
             | None => get params k
             end.
Proof.
  induction pairs as [|[name seg] rest IH]; intros params Hproto k.
  - simpl. destruct (String.eqb k "__proto__") eqn:E; trivial.
    apply String.eqb_eq in E. now subst k.
  - cbn [fold_left fst snd rev]. rewrite IH.
    + destruct (String.eqb k "__proto__") eqn:E; trivial.
      rewrite get_app_last, get_bind_param.
      destruct (get (rev rest) k); trivial.
      destruct (String.eqb name k); trivial.
      rewrite E. now destruct (get params k).
    + rewrite get_bind_param.
      destruct (String.eqb name "__proto__"); trivial. now rewrite Hproto.
Qed.

Lemma bind_all_nodup (pairs : list (string * string)) :
  forall params,
    NoDup (map fst params) ->
    NoDup (map fst
             (fold_left (fun ps b => bind_param ps (fst b) (snd b)) pairs params)).
Proof.
  induction pairs as [|[name seg] rest IH]; intros params Hnd; trivial.
  cbn [fold_left fst snd]. apply IH. now apply bind_param_nodup.
Qed.

Lemma bound_bindings (pattern : list string) :
  forall segments params,
    bound pattern segments params
    = option_map
        (fun pairs =>
           fold_left (fun ps b => bind_param ps (fst b) (snd b)) pairs params)
        (bindings pattern segments).
Proof.
  induction pattern as [|p pattern' IH]; intros segments params.
  - now destruct segments.
  - destruct segments as [|seg rest]; trivial.
    cbn [bound bindings]. destruct (is_param p).
    + rewrite IH. now destruct (bindings pattern' rest).
    + destruct (String.eqb p "*"); trivial.
      destruct (String.eqb p seg); trivial.
Qed.

(** A router with one route matches exactly the requests for its method
    whose segments fit the pattern, and gives them the handler, the path of
    the route and the parameters the pattern binds: one segment for each
    [:name], the rest of the path for [*]; a path with more or fewer
    segments does not match.  The parameters have each name once, with the
    segment that the last parameter of that name took; a parameter named
    [__proto__] is bound to nothing. *)
Theorem single_route_matches_its_pattern (method path url : string)
  (handler : H) :
  Router_match (Router_add (new_Node H "") method path handler) method url
  = option_map (fun params => (handler, Some path, strings params))
               (bound (splitPath path) (splitPath (extractPathname url)) [])
  /\
  match bindings (splitPath path) (splitPath (extractPathname url)) with
  | Some pairs =>
      exists params,
        Router_match (Router_add (new_Node H "") method path handler) method url
        = Some (handler, Some path, params) /\
        NoDup (map fst params) /\
        forall k,
          get params k =
          if String.eqb k "__proto__" then None
          else option_map VString (get (rev pairs) k)
  | None =>
      Router_match (Router_add (new_Node H "") method path handler) method url
      = None
  end.
Proof.
  assert (Hmatch :
            Router_match (Router_add (new_Node H "") method path handler)
              method url
            = option_map (fun params => (handler, Some path, strings params))
                (bound (splitPath path) (splitPath (extractPathname url)) [])).
  { unfold Router_match, Router_add, new_Node.
    pose proof (single_route (splitPath path) method path handler "" None
                  (splitPath (extractPathname url)) []) as Hroute.
    destruct (bound (splitPath path) (splitPath (extractPathname url)) []).
    - cbn [strings map] in Hroute. now rewrite Hroute.
    - cbn [strings map] in Hroute.
      destruct (matchNode _ _ _ _) as [[result|] params];
        [discriminate | reflexivity]. }
  split; [exact Hmatch|].
  rewrite Hmatch, bound_bindings.
  destruct (bindings (splitPath path) (splitPath (extractPathname url)))
    as [pairs|]; cbn [option_map]; trivial.
  eexists. split; [reflexivity|]. split.
  - unfold strings. rewrite map_map. cbn [fst].
    apply bind_all_nodup. constructor.
  - intros k. rewrite get_strings, get_bind_all by reflexivity.
    destruct (String.eqb k "__proto__"); trivial.
    now destruct (get (rev pairs) k).
Qed.

End SingleRoute.

Section QueryValidation.

Context {host : Host}.

(** [validQuery] with a plain number field never accepts a key that the
    query string has: the field raises its "Expected number" at the key,
    because the value is a string. *)
Theorem validQuery_rejects_plain_number (m mk : option string)
  (shape : list (string * schema)) (checks : list NumberCheck)
  (query : URLSearchParams) (k s : string) :
  get query k = Some s ->
  In (k, NumberSchema mk checks) shape ->
  interrupted (object_children shape (VObject (query_object query)) "") = None ->
  exists err,
    validQuery (ObjectSchema m shape) query = Raise (ThrowValidation err) /\
    In (mkIssue k (or_default mk "Expected number")) (issues err).
Proof.
  intros Hk Hin Hnone. unfold validQuery.
  rewrite (proj1 (query_built_spec query)).
  assert (Hissue :
            In (mkIssue k (or_default mk "Expected number"))
               (collected
                  (object_children shape (VObject (query_object query)) ""))).
  { unfold collected. apply in_flat_map.
    exists (k, parse (NumberSchema mk checks)
                 (obj_get (VObject (query_object query)) k) (field_path "" k)).
    split.
    - unfold object_children. apply in_map_iff.
      now exists (k, NumberSchema mk checks).
    - rewrite (query_object_get _ _ Hk).
      destruct (String.eqb k "__proto__"); simpl; now left. }
  rewrite (container_parse (ObjectSchema m shape)
             (VObject (query_object query)) ""
             (outs := object_children shape (VObject (query_object query)) ""))
    by reflexivity.
  rewrite Hnone.
  destruct (collected (object_children shape (VObject (query_object query)) ""))
    as [|i rest] eqn:E; [contradiction|].
  simpl. unfold throw_issues. eexists. split; [reflexivity|]. exact Hissue.
Qed.

End QueryValidation.

(** [GET /users/me] on a router that has the route [/users/:id] too. *)
Lemma static_route_is_matched_witness :
  Router_match
    (Router_add (Router_add (new_Node nat "") "get" "/users/:id" 1)
                "get" "/users/me" 2)
    "GET" "http://localhost/users/me?full=1"
  = Some (2, Some "/users/me", []).
Proof.
  apply (@static_route_is_matched nat decimal_host
           (Router_add (new_Node nat "") "get" "/users/:id" 1)
           "get" "GET" "/users/me" "http://localhost/users/me?full=1" 2).
  - repeat constructor.
  - reflexivity.
  - reflexivity.
Defined.

(** A [POST] route below [/users/:id] leaves [GET /users/me] as it was. *)
Lemma add_keeps_other_methods_routes_witness :
  Router_match
    (Router_add (Router_add (new_Node nat "") "get" "/users/:id" 1)
                "post" "/users/:id/posts" 2)
    "GET" "/users/me"
  = Some (1, Some "/users/:id", [("id", VString "me")]).
Proof.
  rewrite (@add_keeps_other_methods_routes nat decimal_host
             (Router_add (new_Node nat "") "get" "/users/:id" 1)
             "post" "GET" "/users/:id/posts" "/users/me" 2).
  - reflexivity.
  - discriminate.
  - intros name [<-|[]]. reflexivity.
Defined.

(** A parameter named like a method of [Object.prototype] is another
    matter.  The [POST] route [/:constructor/x] gives the root a parameter
    child; [GET /a/b] tries it before the wildcard, reads the inherited
    [constructor] as the previous value, and writes it back when the child
    fails: the parameters of the wildcard match then hold it.  A parameter
    named [__proto__] is bound to nothing. *)
Example backtracking_leaves_inherited_value :
  Router_match (Router_add (new_Node nat "") "get" "/*" 1) "GET" "/a/b"
  = Some (1, Some "/*", [("*", VString "a/b")])
  /\
  Router_match
    (Router_add (Router_add (new_Node nat "") "get" "/*" 1)
                "post" "/:constructor/x" 2)
    "GET" "/a/b"
  = Some (1, Some "/*",
          [("constructor", VFunction "Object"); ("*", VString "a/b")])
  /\
  Router_match (Router_add (new_Node nat "") "get" "/:__proto__/x" 1)
               "GET" "/a/x"
  = Some (1, Some "/:__proto__/x", []).
Proof. repeat split. Qed.

(** A parameter named like an array index is listed first. *)
Example index_parameter_comes_first :
  Router_match (Router_add (new_Node nat "") "get" "/:b/:1" 1) "GET" "/x/y"
  = Some (1, Some "/:b/:1", [("1", VString "y"); ("b", VString "x")]).
Proof. reflexivity. Qed.

Lemma validQuery_rejects_plain_number_witness :
  validQuery (v.object [("page", v.number)]) [("page", "2")]
  = throw_issues [mkIssue "page" "Expected number"].
Proof.
  destruct (@validQuery_rejects_plain_number decimal_host None None
              [("page", v.number)] [] [("page", "2")] "page" "2"
              eq_refl (or_introl eq_refl) eq_refl) as [err [Herr _]].
  reflexivity.
Defined.

(* ------------------------------------------------------------------ *)
(** ** Records and exported number types *)

Section Records.

Context {host : Host}.

Lemma all_children_returned (outs : list (string * outcome value)) :
  interrupted outs = None ->
  collected outs = [] ->
  (forall k e, In (k, Raise (ThrowValidation e)) outs -> issues e <> []) ->
  flat_map (fun out : string * outcome value =>
              match snd out with
              | Return x => [(fst out, x)]
              | Raise _ => []
              end) outs
  = map (fun out : string * outcome value =>
           (fst out, match snd out with Return x => x | Raise _ => VUndefined end))
        outs
  /\ forall k o, In (k, o) outs -> exists y, o = Return y.
Proof.
  induction outs as [|[k0 [x|[e|w]]] rest IH]; simpl; intros Hi Hc Hne.
  - split; [reflexivity | contradiction].
  - unfold collected in *. simpl in Hc.
    destruct (IH Hi Hc) as [Hmap Hall].
    + intros k e Hin. apply (Hne k). now right.
    + split; [now rewrite Hmap|].
      intros k o [[= <- <-]|Hin]; [now exists x | now apply (Hall k)].
  - exfalso. unfold collected in Hc. simpl in Hc.
    apply app_eq_nil in Hc. destruct Hc as [He _].
    apply (Hne k0 e); [now left | exact He].
  - discriminate.
Qed.

(** A record schema without transform errors of its own keeps every key of
    an input none of whose keys is [__proto__], in the order of the input,
    each with the value its schema returned, [undefined] included.  The
    input is an object: its keys are distinct and come in [Object.keys]
    order. *)
Theorem record_keeps_every_key (m : option string) (valueSchema : schema)
  (entries : list (string * value)) (p : string) (x : value) :
  NoDup (map fst entries) ->
  in_order (map fst entries) = true ->
  ~ In "__proto__" (map fst entries) ->
  transforms_raise_no_ValidationError valueSchema ->
  parse (RecordSchema m valueSchema) (VObject entries) p = Return x ->
  exists props,
    x = VObject props /\
    map fst props = map fst entries /\
    forall k val,
      In (k, val) entries ->
      exists y,
        parse valueSchema val (field_path p k) = Return y /\ In (k, y) props.
Proof.
  intros Hnd Hord Hno Hplain Hparse.
  cbn [parse] in Hparse. unfold RecordSchema_parse in Hparse.
  cbn [is_object typeof is_null Array_isArray negb orb Object_entries]
    in Hparse.
  rewrite record_loop_spec in Hparse.
  set (outs := record_children valueSchema entries p) in *.
  assert (Hkeys : map fst outs = map fst entries).
  { unfold outs, record_children. rewrite map_map.
    apply map_ext. now intros [key val]. }
  destruct (interrupted outs) eqn:Hi; try discriminate.
  apply finish_return in Hparse. destruct Hparse as [Hc ->].
  rewrite app_nil_l in Hc.
  rewrite keep_all_fresh;
    [ | now rewrite Hkeys | now rewrite Hkeys | now rewrite Hkeys
      | reflexivity ].
  rewrite app_nil_l. unfold kept.
  destruct (all_children_returned outs Hi Hc) as [Hmap Hall].
  { intros k e Hin. unfold outs, record_children in Hin.
    apply in_map_iff in Hin. destruct Hin as [[key val] [[= <- Hd] _]].
    exact (proj1 (anchors_everywhere Hplain _ _ Hd)). }
  rewrite Hmap. eexists. split; [reflexivity|]. split.
  - rewrite map_map. simpl. exact Hkeys.
  - intros k val Hin.
    assert (Hout : In (k, parse valueSchema val (field_path p k)) outs).
    { unfold outs, record_children. apply in_map_iff. now exists (k, val). }
    destruct (Hall _ _ Hout) as [y Hy]. exists y. split; trivial.
    apply in_map_iff.
    exists (k, parse valueSchema val (field_path p k)). split; trivial.
    simpl. now rewrite Hy.
Qed.

(** The document of a number schema has type ["integer"] exactly when an
    integer check is attached, and then the schema returns integers only. *)
Theorem integer_document_is_sound (m : option string)
  (checks : list NumberCheck) :
  obj_get (toJsonSchema (NumberSchema m checks)) "type"
  = VString (if existsb (fun check =>
                           match check with NInteger => true | _ => false end)
                        checks
             then "integer" else "number")
  /\
  (obj_get (toJsonSchema (NumberSchema m checks)) "type" = VString "integer" ->
   forall d p x,
     parse (NumberSchema m checks) d p = Return x ->
     exists n, x = VNumber n /\ Number_isInteger n = true).
Proof.
  assert (Htype : forall acc,
             get (fold_left number_keyword checks acc) "type" =
             if existsb (fun check =>
                           match check with NInteger => true | _ => false end)
                        checks
             then Some (VString "integer") else get acc "type").
  { induction checks as [|[b|b|] rest IH]; intros acc; simpl; trivial.
    - rewrite IH, get_obj_set. simpl. reflexivity.
    - rewrite IH, get_obj_set. simpl. reflexivity.
    - rewrite IH, get_obj_set. simpl.
      now destruct (existsb _ rest). }
  assert (Hdoc : obj_get (toJsonSchema (NumberSchema m checks)) "type"
                 = VString (if existsb (fun check =>
                                          match check with
                                          | NInteger => true
                                          | _ => false
                                          end) checks
                            then "integer" else "number")).
  { cbn [toJsonSchema]. unfold NumberSchema_toJsonSchema.
    rewrite obj_get_object, Htype.
    now destruct (existsb _ checks). }
  split; [exact Hdoc|].
  intros Hint d p x Hparse. rewrite Hdoc in Hint.
  destruct (existsb _ checks) eqn:E; try discriminate.
  apply existsb_exists in E. destruct E as [check [Hin Hcheck]].
  destruct check; try discriminate.
  cbn [parse] in Hparse. unfold NumberSchema_parse in Hparse.
  destruct d; try discriminate.
  destruct (Number_isNaN n); try discriminate.
  rewrite number_checks_spec in Hparse. unfold number_chain in Hparse.
  destruct (find (fun check => number_check_fails check n) checks) eqn:F;
    try discriminate.
  injection Hparse as <-. exists n. split; trivial.
  apply find_none_forallb in F. rewrite forallb_forall in F.
  specialize (F NInteger Hin). simpl in F.
  now rewrite !negb_true_iff, negb_false_iff in F.
Qed.

End Records.

(** A record of strings. *)
Lemma record_keeps_every_key_witness :
  NoDup (map fst [("a", VString "x"); ("b", VString "y")]) /\
  exists props,
    parse (v.record v.string) (VObject [("a", VString "x"); ("b", VString "y")])
          ""
    = Return (VObject props) /\
    map fst props = ["a"; "b"].
Proof.
  assert (Hnd : NoDup (map fst [("a", VString "x"); ("b", VString "y")])).
  { simpl. constructor.
    - intros [H|[]]. discriminate H.
    - constructor; [intros []|constructor]. }
  split; [exact Hnd|].
  destruct (@record_keeps_every_key decimal_host None v.string
              [("a", VString "x"); ("b", VString "y")] ""
              (VObject [("a", VString "x"); ("b", VString "y")]) Hnd
              eq_refl)
    as (props & Hx & Hkeys & _).
  - intros [H|[H|[]]]; discriminate H.
  - intros fn [].
  - reflexivity.
  - exists props. split; [now rewrite <- Hx | exact Hkeys].
Defined.

(** The key [__proto__] of an input, as [JSON.parse] makes it an own
    property: the value that the record returns has no such property.  A
    string is dropped; an object becomes the prototype. *)
Example record_proto_key :
  parse (v.record v.string)
        (VObject [("__proto__", VString "x"); ("a", VString "y")]) ""
  = Return (VObject [("a", VString "y")])
  /\
  parse (v.record (v.record v.string))
        (VObject [("__proto__", VObject [("b", VString "c")]);
                  ("a", VObject [])]) ""
  = Return (VInherits (VObject [("b", VString "c")]) [("a", VObject [])]).
Proof. split; reflexivity. Qed.

(** [number().integer()]: the document and a fraction. *)
Lemma integer_document_is_sound_witness :
  obj_get (toJsonSchema (Schema.integer v.number)) "type" = VString "integer"
  /\
  exists n,
    VNumber (of_nat 3) = VNumber n /\ Number_isInteger n = true.
Proof.
  split; [reflexivity|].
  exact (proj2 (@integer_document_is_sound decimal_host None [NInteger])
               eq_refl (VNumber (of_nat 3)) "" (VNumber (of_nat 3)) eq_refl).
Defined.

(** [number().min(1).max(100)] on 50. *)
Lemma number_schema_accepts_iff_witness :
  parse (Schema.max (of_nat 100) (Schema.min (of_nat 1) v.number))
        (VNumber (of_nat 50)) ""
  = Return (VNumber (of_nat 50)).
Proof.
  apply (proj2 (@number_schema_accepts_iff decimal_host None
                  [NMin (of_nat 1); NMax (of_nat 100)]
                  (VNumber (of_nat 50)) "" (VNumber (of_nat 50)))).
  exists (of_nat 50). repeat split.
Defined.

(** [string().min(2).max(5)] on ["abc"]. *)
Lemma string_schema_accepts_iff_witness :
  parse (Schema.max (of_nat 5) (Schema.min (of_nat 2) v.string))
        (VString "abc") ""
  = Return (VString "abc").
Proof.
  apply (proj2 (@string_schema_accepts_iff decimal_host None
                  [SMin (of_nat 2); SMax (of_nat 5)]
                  (VString "abc") "" (VString "abc"))).
  exists "abc". repeat split.
Defined.
